(** * A shallow embedding of the torrent client's core

    The development follows the layout of the Python sources:
    [utils/details.py], [utils/build_messages.py], [utils/verify_messages.py],
    [utils/handlers.py], [utils/json_data.py], [utils/download.py] and
    [utils/get_peers.py].  Byte strings are [list byte]; Python integers are
    [Z]; piece indices, which only ever come from an unsigned wire field or
    from an enumeration, are [nat]; the set of claimed pieces is a [gset nat];
    exceptions are an explicit error monad.

    All definitions come first, the theorems about them follow. *)

From Stdlib Require Import ZArith String.
From Stdlib.Strings Require Import Byte.
From stdpp Require Import gmap strings list.

Open Scope Z_scope.
Set Warnings "-register-all,-clear-no-such-hyp".

(* ===================================================================== *)
(** * Definitions                                                         *)
(* ===================================================================== *)

(* --------------------------------------------------------------------- *)
(** ** Python values the sources rely on                                  *)
(* --------------------------------------------------------------------- *)

Module Py.

Abbreviation bytes := (list byte).

(** The exceptions that the modelled code can see. *)
Inductive exn : Type :=
| StructError            (* struct.error *)
| IndexError
| TypeError
| TimeoutError           (* socket.timeout / asyncio.TimeoutError *)
| IncompleteReadError    (* the peer closed the stream *)
| Gaierror               (* socket.gaierror *)
| OSError
| InvalidConnectionRespone
| InvalidAnnounceRespone
| ValueError
| NameError
| RecursionError
| SystemExit.             (* sys.exit(1); not an [Exception] *)

Inductive result (A : Type) : Type :=
| Ok (a : A)
| Raise (e : exn).
Global Arguments Ok {A} a.
Global Arguments Raise {A} e.

Global Instance result_ret : MRet result := fun _ a => Ok a.
Global Instance result_bind : MBind result := fun _ _ f m =>
  match m with Ok a => f a | Raise e => Raise e end.
Global Instance result_fmap : FMap result := fun _ _ f m =>
  match m with Ok a => Ok (f a) | Raise e => Raise e end.

Global Instance exn_eq_dec : EqDecision exn.
Proof. solve_decision. Defined.

Global Instance byte_eq_dec : EqDecision byte.
Proof.
  intros x y. destruct (Byte.eqb x y) eqn:E.
  - left. by apply Byte.byte_dec_bl.
  - right. by apply Byte.eqb_false.
Defined.

Global Instance byte_inhabited : Inhabited byte := populate x00.

(** The value of a byte, as Python's [b[i]] gives it. *)
Definition byte_val (b : byte) : Z := Z.of_N (Byte.to_N b).

(** [bytes([z])] for [z] reduced modulo 256. *)
Definition byte_of_Z (z : Z) : byte :=
  default x00 (Byte.of_N (Z.to_N (z mod 256))).

(** [len(b)] *)
Definition len {A} (l : list A) : Z := Z.of_nat (length l).

(** [b[lo:hi]] for [0 <= lo]. *)
Definition slice {A} (lo hi : nat) (l : list A) : list A :=
  take (hi - lo) (drop lo l).

(** Big-endian unsigned value of a byte string. *)
Definition be_uint (bs : bytes) : Z :=
  fold_left (fun acc b => acc * 256 + byte_val b) bs 0.

(** Big-endian encoding of [z] on [n] bytes (wrap-around as in a C cast). *)
Fixpoint be_bytes (n : nat) (z : Z) : bytes :=
  match n with
  | O => []
  | S n' => byte_of_Z (Z.shiftr z (8 * Z.of_nat n')) :: be_bytes n' z
  end.

(** [struct.unpack(">I", b)[0]]: exactly four bytes or [struct.error]. *)
Definition unpack_I (b : bytes) : result Z :=
  if decide (length b = 4%nat) then Ok (be_uint b) else Raise StructError.

(** [struct.unpack(">H", b)[0]]. *)
Definition unpack_H (b : bytes) : result Z :=
  if decide (length b = 2%nat) then Ok (be_uint b) else Raise StructError.

(** [struct.unpack(">b", b)[0]]: one byte, read as two's complement. *)
Definition unpack_b (b : bytes) : result Z :=
  match b with
  | [x] => Ok ((byte_val x + 128) mod 256 - 128)
  | _ => Raise StructError
  end.

(** [struct.unpack(">II", b)]. *)
Definition unpack_II (b : bytes) : result (Z * Z) :=
  if decide (length b = 8%nat)
  then Ok (be_uint (slice 0 4 b), be_uint (slice 4 8 b))
  else Raise StructError.

End Py.
Import Py.

(* --------------------------------------------------------------------- *)
(** ** utils/details.py                                                   *)
(* --------------------------------------------------------------------- *)

Module Details.

(** [class ParsedMessage]: every attribute may be [None]. *)
Record ParsedMessage : Type := mkParsedMessage {
  size : option Z;
  id : option Z;
  payload : option bytes;
}.

(** The attributes of [class TorrentDetails] that the download stage
    reads. *)
Record TorrentDetails : Type := mkTorrentDetails {
  piece_length : Z;
  total_length : Z;
  num_of_pieces : Z;
  hash_of_pieces : list bytes;
  info_hash : bytes;
}.

End Details.

(* --------------------------------------------------------------------- *)
(** ** utils/build_messages.py                                            *)
(* --------------------------------------------------------------------- *)

Module BuildMessages.

(** [struct.pack(">Ib", 1, 2)] *)
Definition build_interested : bytes := be_bytes 4 1 ++ [byte_of_Z 2].

(** [struct.pack(">Ib", 1, 0)] and [struct.pack(">Ib", 1, 1)] *)
Definition build_choke : bytes := be_bytes 4 1 ++ [byte_of_Z 0].
Definition build_unchoke : bytes := be_bytes 4 1 ++ [byte_of_Z 1].

(** [struct.pack(">I", 0)] *)
Definition build_keep_alive : bytes := be_bytes 4 0.

(** The messages with integer fields.  For each, the bytes on the wire,
    and the function of the source: [struct.pack] raises [struct.error] for
    a value that does not fit its field ([I]: 32 bits, [H]: 16 bits,
    unsigned). *)

(** [struct.pack(">IbI", 5, 4, piece_index)] *)
Definition have_message (piece_index : Z) : bytes :=
  be_bytes 4 5 ++ [byte_of_Z 4] ++ be_bytes 4 piece_index.
Definition build_have (piece_index : Z) : result bytes :=
  if decide (0 ≤ piece_index < 2 ^ 32) then Ok (have_message piece_index)
  else Raise StructError.

(** [struct.pack(">IbIII", 13, 6, piece_index, begin, length)] *)
Definition request_message (piece_index begin length : Z) : bytes :=
  be_bytes 4 13 ++ [byte_of_Z 6] ++ be_bytes 4 piece_index
    ++ be_bytes 4 begin ++ be_bytes 4 length.
Definition build_request (piece_index begin length : Z) : result bytes :=
  if decide (0 ≤ piece_index < 2 ^ 32 ∧ 0 ≤ begin < 2 ^ 32 ∧ 0 ≤ length < 2 ^ 32)
  then Ok (request_message piece_index begin length)
  else Raise StructError.

(** [build_piece]: header [">IbII"] followed by the block. *)
Definition piece_message (piece_index begin : Z) (block : bytes) : bytes :=
  be_bytes 4 (9 + len block) ++ [byte_of_Z 7] ++ be_bytes 4 piece_index
    ++ be_bytes 4 begin ++ block.
Definition build_piece (piece_index begin : Z) (block : bytes) : result bytes :=
  let block_length := len block in
  let total_length := 9 + block_length in
  if decide (total_length < 2 ^ 32 ∧ 0 ≤ piece_index < 2 ^ 32 ∧ 0 ≤ begin < 2 ^ 32)
  then Ok (piece_message piece_index begin block)
  else Raise StructError.

(** [parse_message]: the three conditional expressions of the source, each
    guarding a [struct.unpack] that could raise. *)
Definition parse_message (packet : bytes) : result Details.ParsedMessage :=
  length ← (if decide (len packet < 4) then Ok None
            else Some <$> unpack_I (slice 0 4 packet));
  id ← (if decide (len packet < 5) then Ok None
        else Some <$> unpack_b (slice 4 5 packet));
  let payload := if decide (len packet < 6) then None
                 else Some (drop 5 packet) in
  Ok (Details.mkParsedMessage length id payload).

(** *** The other messages and the reading side *)

(** [struct.pack("<n>s", b)]: cut or padded with zero bytes. *)
Definition pack_s (n : nat) (b : bytes) : bytes := take n (b ++ replicate n x00).

(** [build_bitTorrent_handshake]; [peer_id_random] is the outcome of
    [bytes(random.getrandbits(8) for _ in range(12))]. *)
Definition build_bitTorrent_handshake (details : Details.TorrentDetails)
    (peer_id_random : bytes) : bytes :=
  let pstrlen := 19 in
  let pstr := list_byte_of_string "BitTorrent protocol" in
  let peer_id := list_byte_of_string "-TR4003-" ++ peer_id_random in
  [byte_of_Z pstrlen] ++ pack_s 19 pstr ++ replicate 8 x00
    ++ pack_s 20 (Details.info_hash details) ++ pack_s 20 peer_id.

(** [struct.pack(">Ib", 1, 3)] *)
Definition build_uninterested : bytes := be_bytes 4 1 ++ [byte_of_Z 3].

(** [struct.pack(">IbIII", 13, 8, piece_index, begin, length)] *)
Definition build_cancel (piece_index begin length : Z) : result bytes :=
  if decide (0 ≤ piece_index < 2 ^ 32 ∧ 0 ≤ begin < 2 ^ 32 ∧ 0 ≤ length < 2 ^ 32)
  then Ok (be_bytes 4 13 ++ [byte_of_Z 8] ++ be_bytes 4 piece_index
             ++ be_bytes 4 begin ++ be_bytes 4 length)
  else Raise StructError.

(** [struct.pack(">IbH", 3, 9, port)] *)
Definition build_port (port : Z) : result bytes :=
  if decide (0 ≤ port < 2 ^ 16)
  then Ok (be_bytes 4 3 ++ [byte_of_Z 9] ++ be_bytes 2 port)
  else Raise StructError.

(** [bitfield_bytes[i // 8] |= (1 << (7 - (i % 8)))] *)
Definition set_bit (bitfield_bytes : bytes) (i : nat) : result bytes :=
  match bitfield_bytes !! (i / 8)%nat with
  | None => Raise IndexError
  | Some b =>
      Ok (<[(i / 8)%nat :=
              byte_of_Z (Z.lor (byte_val b) (Z.shiftl 1 (7 - Z.of_nat (i mod 8))))]>
            bitfield_bytes)
  end.

(** The loop [for i, has_piece in enumerate(bitfeild)]. *)
Fixpoint set_bits (i : nat) (bitfeild : list bool) (bitfield_bytes : bytes)
    : result bytes :=
  match bitfeild with
  | [] => Ok bitfield_bytes
  | has_piece :: rest =>
      bitfield_bytes' ← (if has_piece then set_bit bitfield_bytes i
                         else Ok bitfield_bytes);
      set_bits (S i) rest bitfield_bytes'
  end.

(** [build_bitfeild]: a negative count makes [bytearray] raise, a length
    that does not fit 32 bits makes [struct.pack] raise. *)
Definition build_bitfeild (bitfeild : list bool) (details : Details.TorrentDetails)
    : result bytes :=
  let bitfield_length := (Details.num_of_pieces details + 7) `div` 8 in
  if decide (bitfield_length < 0) then Raise ValueError
  else
    bitfield_bytes ← set_bits 0 bitfeild (replicate (Z.to_nat bitfield_length) x00);
    let total_length := 1 + len bitfield_bytes in
    if decide (total_length < 2 ^ 32)
    then Ok (be_bytes 4 total_length ++ [byte_of_Z 5] ++ bitfield_bytes)
    else Raise StructError.

(** A socket, seen from [recvall]: the chunks that successive [recv] calls
    can draw from.  [recv(k)] gives at most [k] bytes of the first chunk;
    an empty chunk, or none, is what a closed connection gives. *)
Definition sock_recv (k : nat) (sock : list bytes) : bytes * list bytes :=
  match sock with
  | [] => ([], [])
  | chunk :: sock' =>
      if decide (length chunk ≤ k)%nat then (chunk, sock')
      else (take k chunk, drop k chunk :: sock')
  end.

(** What [recvall] ends with: the data and the socket after it, or
    [ConnectionError("Peer closed connection")]. *)
Inductive recvall_outcome : Type :=
| Received (data : bytes) (sock : list bytes)
| ConnectionError
| StillReading.

(** [recvall]: the loop [while len(data) < n]; every turn adds at least one
    byte, so [n] turns are enough ([StillReading] marks a loop cut short). *)
Fixpoint recvall_loop (fuel : nat) (sock : list bytes) (n : nat) (data : bytes)
    : recvall_outcome :=
  if decide (length data < n)%nat then
    match fuel with
    | O => StillReading
    | S fuel' =>
        let '(part, sock') := sock_recv (n - length data) sock in
        match part with
        | [] => ConnectionError
        | _ => recvall_loop fuel' sock' n (data ++ part)
        end
    end
  else Received data sock.

Definition recvall (sock : list bytes) (n : nat) : recvall_outcome :=
  recvall_loop n sock n [].

(** [reader.readexactly(n)] on the bytes that the peer sends before it
    closes the connection. *)
Definition readexactly (n : nat) (stream : bytes) : result (bytes * bytes) :=
  if decide (n ≤ length stream)%nat then Ok (take n stream, drop n stream)
  else Raise IncompleteReadError.

(** [recv_whole_message]: the message and what is left of the stream. *)
Definition recv_whole_message (stream : bytes) (isHandshake : bool)
    : result (bytes * bytes) :=
  if isHandshake then readexactly 68 stream
  else
    '(len_bytes, stream') ← readexactly 4 stream;
    length ← unpack_I len_bytes;
    '(payload, stream'') ← readexactly (Z.to_nat length) stream';
    Ok (len_bytes ++ payload, stream'').

(** *** Notions used to state properties of the codec *)


End BuildMessages.

(* --------------------------------------------------------------------- *)
(** ** utils/verify_messages.py                                           *)
(* --------------------------------------------------------------------- *)

Module VerifyMessages.

(** [b'BitTorrent protocol'] *)
Definition pstr : bytes := list_byte_of_string "BitTorrent protocol".

(** [struct.unpack(">B19s8x20s20s", packet)]: the format has size 68. *)
Definition unpack_handshake (packet : bytes)
  : result (Z * bytes * bytes * bytes) :=
  match packet with
  | b0 :: _ =>
      if decide (length packet = 68%nat)
      then Ok (byte_val b0, slice 1 20 packet, slice 28 48 packet,
               slice 48 68 packet)
      else Raise StructError
  | [] => Raise StructError
  end.

Definition is_handshake (packet info_hash : bytes) : result bool :=
  if decide (len packet ≠ 68) then Ok false
  else
    '(len_resp, msg_resp, info_hash_resp, peer_id_resp) ← unpack_handshake packet;
    if bool_decide (len_resp ≠ 19) || bool_decide (msg_resp ≠ pstr)
       || bool_decide (info_hash_resp ≠ info_hash)
    then Ok false
    else Ok true.

(** Python compares an attribute that may be [None] with an integer. *)
Definition opt_eqb (o : option Z) (z : Z) : bool := bool_decide (o = Some z).

Definition is_have (msg : Details.ParsedMessage) : bool :=
  opt_eqb (Details.id msg) 4.
Definition is_bitfeild (msg : Details.ParsedMessage) : bool :=
  opt_eqb (Details.id msg) 5.
Definition is_choke (msg : Details.ParsedMessage) : bool :=
  opt_eqb (Details.id msg) 0 && opt_eqb (Details.size msg) 1.
Definition is_unchoke (msg : Details.ParsedMessage) : bool :=
  opt_eqb (Details.id msg) 1 && opt_eqb (Details.size msg) 1.

(** [msg.id == 7 and msg.size > 9 and msg.payload is not None]; the
    conjunction short-circuits, so [msg.size] is an integer when it is
    compared. *)
Definition is_piece (msg : Details.ParsedMessage) : bool :=
  opt_eqb (Details.id msg) 7
  && match Details.size msg with Some s => bool_decide (9 < s) | None => false end
  && bool_decide (Details.payload msg ≠ None).

End VerifyMessages.

(* --------------------------------------------------------------------- *)
(** ** hashlib.sha1, as the handlers use it                               *)
(* --------------------------------------------------------------------- *)

Module Hashlib.

Definition w32 (z : Z) : Z := Z.land z 4294967295.

Definition rotl (n x : Z) : Z :=
  w32 (Z.lor (Z.shiftl x n) (Z.shiftr (w32 x) (32 - n))).

(** Padding: a one bit, zeros up to 56 modulo 64, the bit length on 8 bytes. *)
Definition pad (msg : bytes) : bytes :=
  let l := len msg in
  msg ++ [x80] ++ replicate (Z.to_nat ((55 - l) mod 64)) x00 ++ be_bytes 8 (8 * l).

Fixpoint blocks (fuel : nat) (bs : bytes) : list bytes :=
  match fuel with
  | O => []
  | S fuel' =>
      match bs with
      | [] => []
      | _ => take 64 bs :: blocks fuel' (drop 64 bs)
      end
  end.

Fixpoint words (n : nat) (bs : bytes) : list Z :=
  match n with
  | O => []
  | S n' => be_uint (take 4 bs) :: words n' (drop 4 bs)
  end.

(** The message schedule, most recent word first. *)
Fixpoint extend (n : nat) (rev_w : list Z) : list Z :=
  match n with
  | O => rev_w
  | S n' =>
      let w := rotl 1 (Z.lxor (Z.lxor (rev_w !!! 2%nat) (rev_w !!! 7%nat))
                              (Z.lxor (rev_w !!! 13%nat) (rev_w !!! 15%nat))) in
      extend n' (w :: rev_w)
  end.

Definition schedule (block : bytes) : list Z :=
  reverse (extend 64 (reverse (words 16 block))).

Definition round_fk (t : nat) (b c d : Z) : Z * Z :=
  if decide (t < 20)%nat
  then (Z.lor (Z.land b c) (Z.land (Z.lxor b 4294967295) d), 1518500249)
  else if decide (t < 40)%nat
  then (Z.lxor (Z.lxor b c) d, 1859775393)
  else if decide (t < 60)%nat
  then (Z.lor (Z.lor (Z.land b c) (Z.land b d)) (Z.land c d), 2400959708)
  else (Z.lxor (Z.lxor b c) d, 3395469782).

Definition round (st : Z * Z * Z * Z * Z) (tw : nat * Z) : Z * Z * Z * Z * Z :=
  let '(a, b, c, d, e) := st in
  let '(f, k) := round_fk tw.1 b c d in
  (w32 (rotl 5 a + f + e + k + tw.2), a, rotl 30 b, c, d).

Definition compress (h : Z * Z * Z * Z * Z) (block : bytes) : Z * Z * Z * Z * Z :=
  let '(a, b, c, d, e) := fold_left round (imap pair (schedule block)) h in
  let '(h0, h1, h2, h3, h4) := h in
  (w32 (h0 + a), w32 (h1 + b), w32 (h2 + c), w32 (h3 + d), w32 (h4 + e)).

(** [hashlib.sha1(data).digest()] *)
Definition sha1 (data : bytes) : bytes :=
  let padded := pad data in
  let '(h0, h1, h2, h3, h4) :=
    fold_left compress (blocks (length padded) padded)
      (1732584193, 4023233417, 2562383102, 271733878, 3285377520) in
  be_bytes 4 h0 ++ be_bytes 4 h1 ++ be_bytes 4 h2 ++ be_bytes 4 h3 ++ be_bytes 4 h4.

End Hashlib.

(* --------------------------------------------------------------------- *)
(** ** utils/handlers.py                                                  *)
(* --------------------------------------------------------------------- *)

Module Handlers.

(** [have_handler]: unpacking [None] is a [TypeError], a payload that is not
    four bytes a [struct.error], an index past the list an [IndexError]. *)
Definition have_handler (parsed_message : Details.ParsedMessage)
    (verified_pieces : list bool) : result (list nat) :=
  match Details.payload parsed_message with
  | None => Raise TypeError
  | Some payload =>
      piece_index ← unpack_I payload;
      match verified_pieces !! Z.to_nat piece_index with
      | None => Raise IndexError
      | Some v => Ok (if negb v then [Z.to_nat piece_index] else [])
      end
  end.

(** The inner [for bit in range(8)] loop of [bitfield_handler], with its
    [break]; [bits] is what is left of [range(8)]. *)
Fixpoint bitfield_bits (byte_index : nat) (byte : byte) (total_pieces : nat)
    (verified_pieces : list bool) (bits : list nat) (result : list nat)
    : Py.result (list nat) :=
  match bits with
  | [] => Ok result
  | bit :: bits' =>
      let piece_index := (byte_index * 8 + (7 - bit))%nat in
      if decide (total_pieces ≤ piece_index)%nat then Ok result
      else
        let has_piece := Z.land (Z.shiftr (byte_val byte) (Z.of_nat bit)) 1 in
        if decide (has_piece = 0)
        then bitfield_bits byte_index byte total_pieces verified_pieces bits' result
        else
          match verified_pieces !! piece_index with
          | None => Raise IndexError
          | Some v =>
              bitfield_bits byte_index byte total_pieces verified_pieces bits'
                (if negb v then result ++ [piece_index] else result)
          end
  end.

(** The outer [for byte_index, byte in enumerate(payload)] loop. *)
Fixpoint bitfield_bytes (byte_index : nat) (payload : bytes) (total_pieces : nat)
    (verified_pieces : list bool) (result : list nat) : Py.result (list nat) :=
  match payload with
  | [] => Ok result
  | byte :: payload' =>
      result' ← bitfield_bits byte_index byte total_pieces verified_pieces
                  (seq 0 8) result;
      bitfield_bytes (S byte_index) payload' total_pieces verified_pieces result'
  end.

Definition bitfield_handler (parsed_message : Details.ParsedMessage)
    (verified_pieces : list bool) : result (list nat) :=
  match Details.payload parsed_message with
  | None => Raise TypeError
  | Some payload =>
      bitfield_bytes 0 payload (length verified_pieces) verified_pieces []
  end.

(** Bit [i] of a bitfield as the wire format defines it:
    [(byte[i/8] >> (7 - i%8)) & 1]. *)
Definition bit_at (payload : bytes) (i : nat) : Z :=
  Z.land (Z.shiftr (byte_val (payload !!! (i / 8)%nat))
            (7 - Z.of_nat (i mod 8))) 1.

Definition verify_piece_hash (piece_data piece_hash : bytes) : bool :=
  let calculated_hash := Hashlib.sha1 piece_data in
  bool_decide (calculated_hash = piece_hash).

End Handlers.

(* --------------------------------------------------------------------- *)
(** ** utils/json_data.py                                                 *)
(* --------------------------------------------------------------------- *)

Module JsonData.

(** The values that occur as attributes of a [ResumeData] object. *)
Inductive pyval : Type :=
| PBool (b : bool)
| PInt (z : Z)
| PStr (s : string)
| PList (l : list pyval)
| PSet (s : gset nat)
| PLock.

(** What [json.dump] can write and [json.load] gives back. *)
Inductive json : Type :=
| JBool (b : bool)
| JInt (z : Z)
| JStr (s : string)
| JArr (l : list json).

(** [@dataclass class ResumeData].  The annotations of the source are taken
    as the types of the fields.  The [lock] attribute holds no data: the
    blocks it guards are the atomic steps of the download module. *)
Record ResumeData : Type := mkResumeData {
  info_hash : string;
  piece_length : Z;
  total_pieces : Z;
  downloaded : Z;
  file_sizes : list Z;
  mtime : Z;
  verified_pieces : list bool;
  last_active : string;
  claimed_pieces : gset nat;
}.

(** [dataclasses.asdict(self)]: every field, the two non-init ones too. *)
Definition asdict (self : ResumeData) : gmap string pyval :=
  list_to_map
    [ ("info_hash"%string, PStr (info_hash self));
      ("piece_length"%string, PInt (piece_length self));
      ("total_pieces"%string, PInt (total_pieces self));
      ("downloaded"%string, PInt (downloaded self));
      ("file_sizes"%string, PList (PInt <$> file_sizes self));
      ("mtime"%string, PInt (mtime self));
      ("verified_pieces"%string, PList (PBool <$> verified_pieces self));
      ("last_active"%string, PStr (last_active self));
      ("lock"%string, PLock);
      ("claimed_pieces"%string, PSet (claimed_pieces self)) ].

(** The encoder of [json.dump]: sets and locks are not serializable. *)
Fixpoint json_encode (v : pyval) : option json :=
  match v with
  | PBool b => Some (JBool b)
  | PInt z => Some (JInt z)
  | PStr s => Some (JStr s)
  | PList l => JArr <$> mapM json_encode l
  | PSet _ => None
  | PLock => None
  end.

Fixpoint json_decode (j : json) : pyval :=
  match j with
  | JBool b => PBool b
  | JInt z => PInt z
  | JStr s => PStr s
  | JArr l => PList (map json_decode l)
  end.

(** [json.dump(data, f)] raises [TypeError] as soon as one value of the
    dictionary cannot be encoded. *)
Definition json_dump (data : gmap string pyval) : result (gmap string json) :=
  if decide (map_Forall (fun _ v => is_Some (json_encode v)) data)
  then Ok (omap json_encode data)
  else Raise TypeError.

Definition json_load (f : gmap string json) : gmap string pyval :=
  json_decode <$> f.

(** [to_json]: the content of the file that is written. *)
Definition to_json (self : ResumeData) : result (gmap string json) :=
  let data := asdict self in
  let data := delete "lock"%string data in
  let data := delete "claimed_pieces"%string data in
  json_dump data.

Definition as_int (v : pyval) : result Z :=
  match v with PInt z => Ok z | _ => Raise TypeError end.
Definition as_str (v : pyval) : result string :=
  match v with PStr s => Ok s | _ => Raise TypeError end.
Definition as_bool (v : pyval) : result bool :=
  match v with PBool b => Ok b | _ => Raise TypeError end.

Fixpoint as_list {A} (f : pyval -> result A) (l : list pyval) : result (list A) :=
  match l with
  | [] => Ok []
  | x :: l' => a ← f x; r ← as_list f l'; Ok (a :: r)
  end.

Definition as_list_of {A} (f : pyval -> result A) (v : pyval) : result (list A) :=
  match v with PList l => as_list f l | _ => Raise TypeError end.

(** The parameters of the generated [__init__]. *)
Definition init_fields : gset string :=
  {[ "info_hash"%string; "piece_length"%string; "total_pieces"%string;
     "downloaded"%string; "file_sizes"%string; "mtime"%string;
     "verified_pieces"%string; "last_active"%string ]}.

Definition field (data : gmap string pyval) (k : string) : result pyval :=
  match data !! k with Some v => Ok v | None => Raise TypeError end.

(** [cls] called with the keywords of [data]: a missing or an unexpected
    keyword is a [TypeError];
    [claimed_pieces] starts as the default empty set.  A document whose
    values do not fit the annotations is rejected here. *)
Definition cls (data : gmap string pyval) : result ResumeData :=
  if decide (dom data = init_fields) then
    info_hash ← field data "info_hash" ≫= as_str;
    piece_length ← field data "piece_length" ≫= as_int;
    total_pieces ← field data "total_pieces" ≫= as_int;
    downloaded ← field data "downloaded" ≫= as_int;
    file_sizes ← field data "file_sizes" ≫= as_list_of as_int;
    mtime ← field data "mtime" ≫= as_int;
    verified_pieces ← field data "verified_pieces" ≫= as_list_of as_bool;
    last_active ← field data "last_active" ≫= as_str;
    Ok (mkResumeData info_hash piece_length total_pieces downloaded
          file_sizes mtime verified_pieces last_active ∅)
  else Raise TypeError.

(** [from_json]: build the object with [cls], then
    [obj.claimed_pieces = set()]. *)
Definition from_json (f : gmap string json) : result ResumeData :=
  let data := json_load f in
  obj ← cls data;
  Ok (mkResumeData (info_hash obj) (piece_length obj) (total_pieces obj)
        (downloaded obj) (file_sizes obj) (mtime obj) (verified_pieces obj)
        (last_active obj) ∅).

(** The record built in [master.py] for a new download. *)
Definition fresh (info_hash : string) (piece_length num_of_pieces : Z)
    (file_sizes : list Z) (mtime : Z) (last_active : string) : ResumeData :=
  mkResumeData info_hash piece_length num_of_pieces 0 file_sizes mtime
    (replicate (Z.to_nat num_of_pieces) false) last_active ∅.

(** The document that [to_json] writes. *)
Definition document (self : ResumeData) : gmap string json :=
  list_to_map
    [ ("info_hash"%string, JStr (info_hash self));
      ("piece_length"%string, JInt (piece_length self));
      ("total_pieces"%string, JInt (total_pieces self));
      ("downloaded"%string, JInt (downloaded self));
      ("file_sizes"%string, JArr (JInt <$> file_sizes self));
      ("mtime"%string, JInt (mtime self));
      ("verified_pieces"%string, JArr (JBool <$> verified_pieces self));
      ("last_active"%string, JStr (last_active self)) ].

(** [buf.append(byte)]: a value outside [range(256)] is a [ValueError]. *)
Definition bytearray_append (buf : bytes) (byte : Z) : result bytes :=
  if decide (0 ≤ byte < 256) then Ok (buf ++ [byte_of_Z byte])
  else Raise ValueError.

(** The loop [for i, bit in enumerate(self.verified_pieces)] of
    [verified_to_bytes]. *)
Fixpoint pack_bits (i : nat) (bits : list bool) (buf : bytes) (byte : Z)
    : result (bytes * Z) :=
  match bits with
  | [] => Ok (buf, byte)
  | bit :: rest =>
      let byte := Z.lor (Z.shiftl byte 1) (Z.b2z bit) in
      if decide (i mod 8 = 7)%nat then
        buf' ← bytearray_append buf byte;
        pack_bits (S i) rest buf' 0
      else pack_bits (S i) rest buf byte
  end.

Definition verified_to_bytes (self : ResumeData) : result bytes :=
  '(buf, byte) ← pack_bits 0 (verified_pieces self) [] 0;
  let remaining := (length (verified_pieces self) mod 8)%nat in
  if decide (remaining ≠ 0)%nat
  then bytearray_append buf (Z.shiftl byte (8 - Z.of_nat remaining))
  else Ok buf.

(** *** The loop invariant of [verified_to_bytes] *)

(** The state of the loop of [verified_to_bytes] after the entries [pre]:
    [q] whole bytes in [buf] and [r] bits in [byte]. *)
Definition packed (pre : list bool) (buf : bytes) (byte : Z) (q r : nat) : Prop :=
  length pre = (8 * q + r)%nat ∧ (r < 8)%nat ∧ length buf = q
  ∧ (∀ j, (j < 8 * q)%nat → Handlers.bit_at buf j = 1 ↔ pre !! j = Some true)
  ∧ 0 ≤ byte < 2 ^ Z.of_nat r
  ∧ (∀ t, (t < r)%nat →
          Z.testbit byte (Z.of_nat (r - 1 - t)) = true
          ↔ pre !! (8 * q + t)%nat = Some true).

End JsonData.

(* --------------------------------------------------------------------- *)
(** ** utils/download.py                                                  *)
(* --------------------------------------------------------------------- *)

Module Download.
Import JsonData.

Definition MAX_CLAIM_PER_PEER : Z := 30.
Definition BLOCK_SIZE : Z := 2 ^ 14.

(** *** The incoming side of a connection

    [recv_whole_message] returns the next whole message of the stream
    ([len_bytes + payload]).  A reader is the list of messages that the peer
    still delivers and what follows them: the peer closes the connection
    ([readexactly] raises) or stays silent. *)
Inductive stream_end : Type := PeerCloses | PeerSilent.

Record Reader : Type := mkReader {
  incoming : list bytes;
  ending : stream_end;
}.

(** *** The blocks guarded by [resume_data.lock] *)

Definition set_claimed (resume_data : ResumeData) (c : gset nat) : ResumeData :=
  mkResumeData (info_hash resume_data) (piece_length resume_data)
    (total_pieces resume_data) (downloaded resume_data)
    (file_sizes resume_data) (mtime resume_data)
    (verified_pieces resume_data) (last_active resume_data) c.

(** [resume_data.claimed_pieces.discard(piece_index)] *)
Definition discard_claim (piece_index : nat) (resume_data : ResumeData)
    : ResumeData :=
  set_claimed resume_data (claimed_pieces resume_data ∖ {[piece_index]}).

(** The claiming loop.  It mutates the shared object as it goes, so an
    [IndexError] leaves the claims made so far in place; the local list
    [claimed] is returned together with the exception, if any. *)
Fixpoint claim_batch (pieces_available_from_peer : list nat)
    (resume_data : ResumeData) (claimed : list nat)
    : ResumeData * list nat * option exn :=
  match pieces_available_from_peer with
  | [] => (resume_data, claimed, None)
  | piece_index :: rest =>
      if decide (MAX_CLAIM_PER_PEER ≤ len claimed)
      then (resume_data, claimed, None)
      else
        match verified_pieces resume_data !! piece_index with
        | None => (resume_data, claimed, Some IndexError)
        | Some v =>
            if negb v && bool_decide (piece_index ∉ claimed_pieces resume_data)
            then claim_batch rest
                   (set_claimed resume_data
                      ({[piece_index]} ∪ claimed_pieces resume_data))
                   (claimed ++ [piece_index])
            else claim_batch rest resume_data claimed
        end
  end.

(** The block after a successful save:
    [verified_pieces[piece_index] = True; downloaded += 1; discard]. *)
Definition commit_piece (piece_index : nat) (resume_data : ResumeData)
    : result ResumeData :=
  if decide (piece_index < length (verified_pieces resume_data))%nat
  then Ok (mkResumeData (info_hash resume_data) (piece_length resume_data)
             (total_pieces resume_data) (downloaded resume_data + 1)
             (file_sizes resume_data) (mtime resume_data)
             (<[piece_index := true]> (verified_pieces resume_data))
             (last_active resume_data)
             (claimed_pieces resume_data ∖ {[piece_index]}))
  else Raise IndexError.

(** The [except] block: every index of the local list is discarded. *)
Definition release_claims (claimed : list nat) (resume_data : ResumeData)
    : ResumeData :=
  fold_left (fun rd piece_index => discard_claim piece_index rd) claimed
    resume_data.

(** *** Fetching one piece *)

(** [piece_data[begin:begin + len(r_block)] = r_block] on a bytearray. *)
Definition slice_assign (piece_data : bytes) (begin : nat) (r_block : bytes)
    : bytes :=
  take begin piece_data ++ r_block ++ drop (begin + length r_block) piece_data.

Inductive fetched : Type :=
| Fetched (piece_data : bytes) (rest : list bytes)
| FetchError (e : exn)
| FetchStalled.

(** The inner [while True]: read messages until the block that was asked
    for arrives. *)
Fixpoint recv_block (ending : stream_end) (piece_index begin : Z)
    (piece_data : bytes) (incoming : list bytes) : fetched :=
  match incoming with
  | [] =>
      match ending with
      | PeerCloses => FetchError IncompleteReadError
      | PeerSilent => FetchStalled
      end
  | msg :: rest =>
      match BuildMessages.parse_message msg with
      | Raise e => FetchError e
      | Ok parsed =>
          if VerifyMessages.is_piece parsed then
            let payload := default [] (Details.payload parsed) in
            match unpack_II (slice 0 8 payload) with
            | Raise e => FetchError e
            | Ok (r_index, r_begin) =>
                let r_block := drop 8 payload in
                if bool_decide (r_index = piece_index)
                   && bool_decide (r_begin = begin)
                then Fetched (slice_assign piece_data (Z.to_nat begin) r_block)
                       rest
                else recv_block ending piece_index begin piece_data rest
            end
          else recv_block ending piece_index begin piece_data rest
      end
  end.

(** The [for block_num in range(num_blocks)] loop; [sent] collects what is
    written to the peer. *)
Fixpoint fetch_blocks (ending : stream_end) (piece_length : Z)
    (piece_index : nat) (block_nums : list nat) (piece_data : bytes)
    (incoming : list bytes) (sent : list bytes) : fetched * list bytes :=
  match block_nums with
  | [] => (Fetched piece_data incoming, sent)
  | block_num :: block_nums' =>
      let begin := Z.of_nat block_num * BLOCK_SIZE in
      let block_length := Z.min BLOCK_SIZE (piece_length - begin) in
      match BuildMessages.build_request (Z.of_nat piece_index) begin
              block_length with
      | Raise e => (FetchError e, sent)
      | Ok request_msg =>
          let sent := sent ++ [request_msg] in
          match recv_block ending (Z.of_nat piece_index) begin piece_data
                  incoming with
          | Fetched piece_data' rest =>
              fetch_blocks ending piece_length piece_index block_nums'
                piece_data' rest sent
          | other => (other, sent)
          end
      end
  end.

(** The request for block [block_num] of piece [piece_index]: it depends on
    the piece length only, not on the index nor on the total length. *)
Definition request_for (piece_length : Z) (piece_index block_num : nat) : bytes :=
  BuildMessages.request_message (Z.of_nat piece_index)
    (Z.of_nat block_num * BLOCK_SIZE)
    (Z.min BLOCK_SIZE (piece_length - Z.of_nat block_num * BLOCK_SIZE)).

(** The body of [for piece_index in claimed] up to the hash check. *)
Definition fetch_piece (torrent_details : Details.TorrentDetails)
    (piece_index : nat) (r : Reader) : fetched * list bytes :=
  let piece_length := Details.piece_length torrent_details in
  let num_blocks := (piece_length + BLOCK_SIZE - 1) `div` BLOCK_SIZE in
  if decide (piece_length < 0) then (FetchError ValueError, [])
  else
    let piece_data := replicate (Z.to_nat piece_length) x00 in
    fetch_blocks (ending r) piece_length piece_index
      (seq 0 (Z.to_nat num_blocks)) piece_data (incoming r) [].

(** *** One session of [download_from_peer]

    The coroutine gives up control only while it waits for the network: the
    lock is free whenever it is asked for, since no [await] occurs while it
    is held.  So a session advances in steps that are atomic for the others:
    the claiming block, and the fetch of one piece together with the hash
    check and the block that follows it.  [phase] says where the coroutine
    stands between two steps. *)
Inductive phase : Type :=
| Claiming                       (* at the top of the outer [while True] *)
| Fetching (todo : list nat)     (* inside [for piece_index in claimed] *)
| Closed                         (* after [finally] *)
| Stalled.                       (* blocked in a read that never returns *)

Record Session : Type := mkSession {
  pieces_available_from_peer : list nat;
  reader : Reader;
  claimed : list nat;
  at_phase : phase;
  sent : list bytes;
}.

(** What the sessions share: the resume data and the disk.  [saved] lists
    the calls [save_piece_to_disk(piece_index, piece_data, ...)] that have
    returned.  A call may also raise: that depends on the files and on the
    file system, which stand outside the sessions, so [save_raises] says
    for each call, by its number, whether it raises, and [save_calls]
    counts the calls made. *)
Record Shared : Type := mkShared {
  resume_data : ResumeData;
  saved : list (nat * bytes);
  save_raises : nat -> bool;
  save_calls : nat;
}.

Definition set_resume_data (sh : Shared) (rd : ResumeData) : Shared :=
  mkShared rd (saved sh) (save_raises sh) (save_calls sh).

(** A disk on which every save succeeds. *)
Definition never_raises : nat -> bool := fun _ => false.

(** The [except Exception] block followed by [finally]. *)
Definition on_error (sh : Shared) (s : Session) (sent' : list bytes)
    : Shared * Session :=
  (set_resume_data sh (release_claims (claimed s) (resume_data sh)),
   mkSession (pieces_available_from_peer s) (reader s) (claimed s) Closed
     (sent s ++ sent')).

Definition after_piece (todo : list nat) : phase :=
  match todo with [] => Claiming | _ => Fetching todo end.

(** One step of a session: from one point where the coroutine touches the
    shared data to the next. *)
Definition session_step (torrent_details : Details.TorrentDetails)
    (sh : Shared) (s : Session) : Shared * Session :=
  match at_phase s with
  | Claiming =>
      let '(rd, claimed, e) :=
        claim_batch (pieces_available_from_peer s) (resume_data sh) [] in
      let s' := mkSession (pieces_available_from_peer s) (reader s) claimed
                  (at_phase s) (sent s) in
      match e with
      | Some _ => on_error (set_resume_data sh rd) s' []
      | None =>
          (set_resume_data sh rd,
           mkSession (pieces_available_from_peer s) (reader s) claimed
             (match claimed with [] => Closed | _ => Fetching claimed end)
             (sent s))
      end
  | Fetching [] => (sh, s)
  | Fetching (piece_index :: todo) =>
      match fetch_piece torrent_details piece_index (reader s) with
      | (FetchError _, sent') => on_error sh s sent'
      | (FetchStalled, sent') =>
          (sh, mkSession (pieces_available_from_peer s) (reader s) (claimed s)
                 Stalled (sent s ++ sent'))
      | (Fetched piece_data rest, sent') =>
          let s' := mkSession (pieces_available_from_peer s)
                      (mkReader rest (ending (reader s))) (claimed s)
                      (after_piece todo) (sent s ++ sent') in
          match Details.hash_of_pieces torrent_details !! piece_index with
          | None => on_error sh s' []
          | Some piece_hash =>
              if negb (Handlers.verify_piece_hash piece_data piece_hash)
              then (set_resume_data sh
                      (discard_claim piece_index (resume_data sh)), s')
              else if save_raises sh (save_calls sh)
              then on_error
                     (mkShared (resume_data sh) (saved sh) (save_raises sh)
                        (S (save_calls sh))) s' []
              else
                let sh' := mkShared (resume_data sh)
                             (saved sh ++ [(piece_index, piece_data)])
                             (save_raises sh) (S (save_calls sh)) in
                match commit_piece piece_index (resume_data sh') with
                | Raise _ => on_error sh' s' []
                | Ok rd => (set_resume_data sh' rd, s')
                end
          end
      end
  | Closed => (sh, s)
  | Stalled => (sh, s)
  end.

(** *** Several sessions on one event loop

    The download workers run their sessions interleaved; a schedule names,
    step after step, the session that runs next. *)
Record World : Type := mkWorld {
  shared : Shared;
  sessions : list Session;
}.

Definition world_step (torrent_details : Details.TorrentDetails) (w : World)
    (k : nat) : World :=
  match sessions w !! k with
  | None => w
  | Some s =>
      let '(sh, s') := session_step torrent_details (shared w) s in
      mkWorld sh (<[k := s']> (sessions w))
  end.

Definition run (torrent_details : Details.TorrentDetails) (w : World)
    (schedule : list nat) : World :=
  fold_left (world_step torrent_details) schedule w.

(** A session as [download_worker] starts it. *)
Definition new_session (pieces_to_request : list nat) (r : Reader) : Session :=
  mkSession pieces_to_request r [] Claiming [].

(** [popcount(verified)] *)
Definition popcount (verified : list bool) : Z :=
  len (filter (fun b => b = true) verified).

(** The two parts of the ledger invariant. *)
Definition claims_unverified (rd : ResumeData) : Prop :=
  ∀ i, i ∈ claimed_pieces rd → verified_pieces rd !! i ≠ Some true.

Definition count_exact (rd : ResumeData) : Prop :=
  downloaded rd = popcount (verified_pieces rd).

(** The batch of a session that is fetching holds distinct indices, all of
    them claimed. *)
Definition owns_batch (rd : ResumeData) (s : Session) : Prop :=
  match at_phase s with
  | Fetching todo => NoDup todo ∧ ∀ i, i ∈ todo → i ∈ claimed_pieces rd
  | _ => True
  end.

(** The claims of a session that runs alone; [others] is the claimed set
    that it found at its start. *)
Definition holds_claims (others : gset nat) (rd : ResumeData) (s : Session)
    : Prop :=
  match at_phase s with
  | Fetching todo =>
      NoDup todo ∧ claimed_pieces rd = others ∪ list_to_set todo
      ∧ (∀ i, i ∈ todo → i ∈ claimed s) ∧ (∀ i, i ∈ claimed s → i ∉ others)
  | Stalled => True
  | _ => claimed_pieces rd = others
  end.

(** *** The handle stage *)

(** [wait_for_unchoke]: only the timeout is caught inside; [seen] collects
    the messages read. *)
Fixpoint wait_for_unchoke (ending : stream_end) (incoming seen : list bytes)
    : result bool * list bytes * list bytes :=
  match incoming with
  | [] =>
      match ending with
      | PeerSilent => (Ok false, seen, [])
      | PeerCloses => (Raise IncompleteReadError, seen, [])
      end
  | msg :: rest =>
      match BuildMessages.parse_message msg with
      | Raise e => (Raise e, seen ++ [msg], rest)
      | Ok parsed =>
          if VerifyMessages.is_unchoke parsed then (Ok true, seen ++ [msg], rest)
          else wait_for_unchoke ending rest (seen ++ [msg])
      end
  end.

(** What one iteration of [handle_worker] does with a connection. *)
Record Handled : Type := mkHandled {
  enqueued : option (list nat * Reader);   (* [download_queue.put] *)
  seen : list bytes;                        (* the messages read *)
  written : list bytes;                     (* the messages written *)
  writer_closed : bool;
}.

Definition handle_peer (resume_data : ResumeData) (r : Reader) : Handled :=
  match incoming r with
  | [] => mkHandled None [] [] true
  | msg :: rest =>
      match BuildMessages.parse_message msg with
      | Raise _ => mkHandled None [msg] [] true
      | Ok parsed_message =>
          if VerifyMessages.is_have parsed_message then
            match Handlers.have_handler parsed_message
                    (verified_pieces resume_data) with
            | Raise _ => mkHandled None [msg] [] true
            | Ok [] => mkHandled None [msg] [] false
            | Ok pieces_to_request =>
                match wait_for_unchoke (ending r) rest [msg] with
                | (Ok true, seen, rest') =>
                    mkHandled
                      (Some (pieces_to_request, mkReader rest' (ending r)))
                      seen [] false
                | (_, seen, _) => mkHandled None seen [] true
                end
            end
          else if VerifyMessages.is_bitfeild parsed_message then
            match Handlers.bitfield_handler parsed_message
                    (verified_pieces resume_data) with
            | Raise _ => mkHandled None [msg] [] true
            | Ok [] => mkHandled None [msg] [] false
            | Ok pieces_to_request =>
                mkHandled (Some (pieces_to_request, mkReader rest (ending r)))
                  [msg] [BuildMessages.build_interested] false
            end
          else mkHandled None [msg] [] false
      end
  end.

(** What [download_worker] starts for a connection: the session of
    [download_from_peer] on the pieces and the reader that [handle_worker]
    has put on the download queue, if it has. *)
Definition queued_session (resume_data : ResumeData) (r : Reader)
    : option Session :=
  match enqueued (handle_peer resume_data r) with
  | Some (pieces_to_request, r') => Some (new_session pieces_to_request r')
  | None => None
  end.

(** An unchoke message is among the messages read. *)
Definition unchoke_seen (seen : list bytes) : Prop :=
  ∃ msg parsed, msg ∈ seen ∧ BuildMessages.parse_message msg = Ok parsed
                ∧ VerifyMessages.is_unchoke parsed = true.

(** *** What a peer may send *)

(** Messages that are not [piece] messages: what a peer may send between
    two blocks. *)
Definition not_a_piece (msg : bytes) : Prop :=
  ∃ parsed, BuildMessages.parse_message msg = Ok parsed ∧ VerifyMessages.is_piece parsed = false.

(** Block [block_num] of a piece whose bytes are [content], and the message
    with which a peer serves it. *)
Definition block_of (content : bytes) (block_num : nat) : bytes :=
  take (Z.to_nat BLOCK_SIZE) (drop (block_num * Z.to_nat BLOCK_SIZE) content).
Definition serve (piece_index : nat) (content : bytes) (block_num : nat) : bytes :=
  BuildMessages.piece_message (Z.of_nat piece_index)
    (Z.of_nat block_num * BLOCK_SIZE) (block_of content block_num).

(** Whether a message is an [unchoke], as [wait_for_unchoke] tests it. *)
Definition unchoke_msg (msg : bytes) : bool :=
  match BuildMessages.parse_message msg with
  | Ok parsed => VerifyMessages.is_unchoke parsed
  | Raise _ => false
  end.

End Download.

(* --------------------------------------------------------------------- *)
(** ** utils/get_peers.py                                                 *)
(* --------------------------------------------------------------------- *)

Module GetPeers.

Definition PORT_NUMBER : Z := 6881.
Definition MAX_TRY : Z := 1.

(** Python's default recursion limit bounds the retries. *)
Definition recursion_limit : nat := 1000.

(** What the network does with one datagram exchange. *)
Inductive send_outcome : Type := Sent | SendTimeout | SendGaierror | SendFails.
Inductive recv_outcome : Type :=
| Reply (datagram : bytes) | RecvTimeout | RecvFails.

(** One attempt of the connect exchange, with the random number drawn. *)
Record connect_attempt : Type := mkConnectAttempt {
  c_transaction_id : Z;
  c_send : send_outcome;
  c_recv : recv_outcome;
}.

(** One attempt of the announce exchange, with the random values drawn. *)
Record announce_attempt : Type := mkAnnounceAttempt {
  a_transaction_id : Z;
  a_peer_id_random : bytes;
  a_key : Z;
  a_send : send_outcome;
  a_recv : recv_outcome;
}.

(** [sock.recvfrom(bufsize)] on a UDP socket: the first [bufsize] bytes of
    the datagram; what does not fit is lost. *)
Definition recvfrom (bufsize : Z) (datagram : bytes) : bytes :=
  take (Z.to_nat bufsize) datagram.
Global Arguments recvfrom : simpl never.

(** [struct.unpack(">LLQ", b)] *)
Definition unpack_LLQ (b : bytes) : result (Z * Z * Z) :=
  if decide (length b = 16%nat)
  then Ok (be_uint (slice 0 4 b), be_uint (slice 4 8 b), be_uint (slice 8 16 b))
  else Raise StructError.

(** [struct.unpack(">LLLLL", b)] *)
Definition unpack_LLLLL (b : bytes) : result (Z * Z * Z * Z * Z) :=
  if decide (length b = 20%nat)
  then Ok (be_uint (slice 0 4 b), be_uint (slice 4 8 b), be_uint (slice 8 12 b),
           be_uint (slice 12 16 b), be_uint (slice 16 20 b))
  else Raise StructError.

(** The datagram of [_make_connection_request]: [struct.pack(">QLL", ...)]. *)
Definition connection_req (transaction_id : Z) : bytes :=
  be_bytes 8 4497486125440 ++ be_bytes 4 0 ++ be_bytes 4 transaction_id.

Fixpoint _make_connection_request (fuel : nat) (net : nat -> connect_attempt)
    (n : nat) (count : Z) : result Z :=
  match fuel with
  | O => Raise RecursionError
  | S fuel' =>
      let x := net n in
      let action := 0 in
      let transaction_id := c_transaction_id x in
      let retry :=
        if decide (count = MAX_TRY) then Raise TimeoutError
        else _make_connection_request fuel' net (S n) (count + 1) in
      match c_send x with
      | SendTimeout => retry
      | SendGaierror => Raise Gaierror
      | SendFails => Raise SystemExit
      | Sent =>
          match c_recv x with
          | RecvTimeout => retry
          | RecvFails => Raise SystemExit
          | Reply datagram =>
              let connection_resp := recvfrom 2048 datagram in
              if decide (len connection_resp < 16)
              then Raise InvalidConnectionRespone
              else
                '(action_resp, transaction_id_resp, connection_id_resp)
                  ← unpack_LLQ connection_resp;
                if decide (action ≠ action_resp)
                then Raise InvalidConnectionRespone
                else if decide (transaction_id ≠ transaction_id_resp)
                then Raise InvalidConnectionRespone
                else Ok connection_id_resp
          end
      end
  end.

(** The module globals [Interval], [Seeder], [Leecher]; unset at first. *)
Definition swarm : Type := option (Z * Z * Z).

(** [struct.pack("20s", b)]: cut or padded with zero bytes. *)
Definition pack_20s (b : bytes) : bytes := take 20 (b ++ replicate 20 x00).

(** The datagram of [_make_announce_request],
    [struct.pack(">QLL20s20sQQQLLLlH", ...)]: [downloaded], [uploaded], [ip]
    are the constant 0, [left] is the total length, [event] the constant 2,
    [num_want] the constant -1.  A [left] that does not fit 64 bits is a
    [struct.error]. *)
Definition announce_req (connection_id transaction_id : Z)
    (info_hash peer_id : bytes) (total_length key : Z) : result bytes :=
  let port := PORT_NUMBER in
  let action := 1 in
  let downloaded := 0 in
  let left := total_length in
  let uploaded := 0 in
  let event := 2 in
  let ip := 0 in
  let num_want := -1 in
  if decide (0 ≤ left < 2 ^ 64) then
    Ok (be_bytes 8 connection_id ++ be_bytes 4 action ++ be_bytes 4 transaction_id
        ++ pack_20s info_hash ++ pack_20s peer_id
        ++ be_bytes 8 downloaded ++ be_bytes 8 left ++ be_bytes 8 uploaded
        ++ be_bytes 4 event ++ be_bytes 4 ip ++ be_bytes 4 key
        ++ be_bytes 4 num_want ++ be_bytes 2 port)
  else Raise StructError.

(** The [event] field of an announce datagram: bytes 80 to 83. *)
Definition event_field (datagram : bytes) : Z := be_uint (slice 80 84 datagram).

(** The peer entries behind the 20-byte header: [inet_ntoa] wants four
    bytes, [">H"] two. *)
Fixpoint parse_peers (n : nat) (rest : bytes) : result (list (bytes * Z)) :=
  match n with
  | O => Ok []
  | S n' =>
      match rest with
      | [] => Ok []
      | _ =>
          let ip_packed := take 4 rest in
          let port_packed := slice 4 6 rest in
          if decide (length ip_packed = 4%nat) then
            port ← unpack_H port_packed;
            peers ← parse_peers n' (drop 6 rest);
            Ok ((ip_packed, port) :: peers)
          else Raise OSError
      end
  end.

(** What an announce leaves behind: its result, the datagrams it sent, and
    the globals. *)
Record announced : Type := mkAnnounced {
  a_result : result (list (bytes * Z));
  a_sent : list bytes;
  a_swarm : swarm;
}.

Fixpoint _make_announce_request (fuel : nat) (connection_id : Z)
    (info_hash : bytes) (total_length : Z) (net : nat -> announce_attempt)
    (n : nat) (count : Z) (g : swarm) : announced :=
  match fuel with
  | O => mkAnnounced (Raise RecursionError) [] g
  | S fuel' =>
      let x := net n in
      let transaction_id := a_transaction_id x in
      let peer_id := list_byte_of_string "-TR4003-" ++ a_peer_id_random x in
      let action := 1 in
      match announce_req connection_id transaction_id info_hash peer_id
              total_length (a_key x) with
      | Raise e => mkAnnounced (Raise e) [] g
      | Ok req =>
          let retry :=
            if decide (count = MAX_TRY) then mkAnnounced (Raise TimeoutError) [] g
            else _make_announce_request fuel' connection_id info_hash
                   total_length net (S n) (count + 1) g in
          match a_send x with
          | SendTimeout => retry
          | SendGaierror => mkAnnounced (Raise Gaierror) [] g
          | SendFails => mkAnnounced (Raise SystemExit) [] g
          | Sent =>
              match a_recv x with
              | RecvTimeout =>
                  mkAnnounced (a_result retry) (req :: a_sent retry) (a_swarm retry)
              | RecvFails => mkAnnounced (Raise SystemExit) [req] g
              | Reply datagram =>
                  let announce_resp := recvfrom 4096 datagram in
                  if decide (len announce_resp < 20)
                  then mkAnnounced (Raise InvalidAnnounceRespone) [req] g
                  else
                    match unpack_LLLLL (slice 0 20 announce_resp) with
                    | Raise e => mkAnnounced (Raise e) [req] g
                    | Ok (action_resp, transaction_id_resp, interval, leechers, seeders) =>
                        let g' := Some (interval, seeders, leechers) in
                        if decide (action ≠ action_resp)
                        then mkAnnounced (Raise InvalidAnnounceRespone) [req] g'
                        else if decide (transaction_id ≠ transaction_id_resp)
                        then mkAnnounced (Raise InvalidAnnounceRespone) [req] g'
                        else mkAnnounced
                               (parse_peers (length announce_resp)
                                  (drop 20 announce_resp))
                               [req] g'
                    end
              end
          end
      end
  end.

(** How the tracker behind one URL behaves during one refresh cycle. *)
Record Tracker : Type := mkTracker {
  on_connect : nat -> connect_attempt;
  on_announce : nat -> announce_attempt;
}.

(** What [get_peers_list] has done so far: the trackers it contacted (by
    position in the URL list), the announce datagrams sent, the lists put on
    the peer queue, and the globals. *)
Record Effects : Type := mkEffects {
  contacted : list nat;
  announces : list bytes;
  peer_list : list (list (bytes * Z));
  globals : swarm;
}.

(** The loop [for url in tracker_url_list] of [get_peers_list].  Each [try]
    lists the exceptions after which the loop continues; any other
    [Exception] ends in [sys.exit(1)], and a [SystemExit] passes through. *)
Fixpoint get_peers_list (trackers : list Tracker) (idx : nat)
    (info_hash : bytes) (total_length : Z) (eff : Effects)
    : Effects * result unit :=
  match trackers with
  | [] => (eff, Ok ())
  | t :: rest =>
      let eff := mkEffects (contacted eff ++ [idx]) (announces eff)
                   (peer_list eff) (globals eff) in
      let continue eff := get_peers_list rest (S idx) info_hash total_length eff in
      match _make_connection_request recursion_limit (on_connect t) 0 1 with
      | Raise Gaierror => continue eff
      | Raise TimeoutError => continue eff
      | Raise InvalidAnnounceRespone => continue eff
      | Raise _ => (eff, Raise SystemExit)
      | Ok connection_id =>
          let a := _make_announce_request recursion_limit connection_id
                     info_hash total_length (on_announce t) 0 1 (globals eff) in
          let eff := mkEffects (contacted eff) (announces eff ++ a_sent a)
                       (peer_list eff) (a_swarm a) in
          match a_result a with
          | Ok peers =>
              continue (mkEffects (contacted eff) (announces eff)
                          (peer_list eff ++ [peers]) (globals eff))
          | Raise TimeoutError => continue eff
          | Raise InvalidAnnounceRespone => continue eff
          | Raise _ => (eff, Raise SystemExit)
          end
      end
  end.

(** [populate_peers] in [master.py]: one call of [get_peers_list] per
    refresh cycle, then [get_interval_data], which needs the globals set. *)
Fixpoint populate_peers (cycles : list (list Tracker)) (info_hash : bytes)
    (total_length : Z) (eff : Effects) : Effects * result unit :=
  match cycles with
  | [] => (eff, Ok ())
  | trackers :: cycles' =>
      match get_peers_list trackers 0 info_hash total_length
              (mkEffects [] (announces eff) (peer_list eff) (globals eff)) with
      | (eff', Raise e) => (eff', Raise e)
      | (eff', Ok _) =>
          match globals eff' with
          | None => (eff', Raise NameError)
          | Some _ => populate_peers cycles' info_hash total_length eff'
          end
      end
  end.

Definition no_effects : Effects := mkEffects [] [] [] None.

(** *** What a tracker may do *)

(** A tracker that cannot be reached for the connect exchange: the send
    times out, the name does not resolve, or no reply comes. *)
Definition unreachable (t : Tracker) : Prop :=
  c_send (on_connect t 0%nat) = SendTimeout
  ∨ c_send (on_connect t 0%nat) = SendGaierror
  ∨ (c_send (on_connect t 0%nat) = Sent ∧ c_recv (on_connect t 0%nat) = RecvTimeout).

(** A peer entry and an announce reply as a tracker writes them: a
    20-byte header and six bytes per peer. *)
Definition encode_peer (p : bytes * Z) : bytes := p.1 ++ be_bytes 2 p.2.
Definition announce_response (action transaction_id interval leechers seeders : Z)
    (peers : list (bytes * Z)) : bytes :=
  be_bytes 4 action ++ be_bytes 4 transaction_id ++ be_bytes 4 interval
    ++ be_bytes 4 leechers ++ be_bytes 4 seeders
    ++ concat (encode_peer <$> peers).
Definition peer_entry (p : bytes * Z) : Prop :=
  length p.1 = 4%nat ∧ 0 ≤ p.2 < 2 ^ 16.

End GetPeers.

(* --------------------------------------------------------------------- *)
(** ** utils/get_details.py                                              *)
(* --------------------------------------------------------------------- *)

Module GetDetails.

(** A bencoded value, as [bencodepy.decode] returns it: an [int], a
    [bytes], a [list], or a [dict] with byte-string keys (an association
    list here; a key is looked up from the front). *)
Inductive bvalue : Type :=
| BInt (z : Z)
| BBytes (b : bytes)
| BList (l : list bvalue)
| BDict (d : list (bytes * bvalue)).

(** The exceptions of the metadata code. *)
Inductive error : Type :=
| KeyError
| TypeError
| AttributeError
| UnicodeDecodeError
| OSError
| SystemExit.             (* sys.exit(1); not an [Exception] *)

Inductive outcome (A : Type) : Type :=
| Done (a : A)
| Fail (e : error).
Global Arguments Done {A} a.
Global Arguments Fail {A} e.

Global Instance outcome_ret : MRet outcome := fun _ a => Done a.
Global Instance outcome_bind : MBind outcome := fun _ _ f m =>
  match m with Done a => f a | Fail e => Fail e end.

(** [try: ... except Exception as E: sys.exit(1)] *)
Definition or_exit {A} (m : outcome A) : outcome A :=
  match m with Done a => Done a | Fail _ => Fail SystemExit end.

(** A loop that appends one value per element. *)
Fixpoint collect {A B} (f : A -> outcome B) (l : list A) : outcome (list B) :=
  match l with
  | [] => Done []
  | x :: l' => y ← f x; ys ← collect f l'; Done (y :: ys)
  end.

(** [key in d] and [d[key]] for a [dict]. *)
Fixpoint dict_get (d : list (bytes * bvalue)) (key : bytes) : option bvalue :=
  match d with
  | [] => None
  | (k, v) :: d' => if decide (k = key) then Some v else dict_get d' key
  end.
Definition getitem (d : list (bytes * bvalue)) (key : bytes) : outcome bvalue :=
  match dict_get d key with Some v => Done v | None => Fail KeyError end.

(** [v[key]] for any value and a byte-string key: only a [dict] can be
    indexed so. *)
Definition subscript (v : bvalue) (key : bytes) : outcome bvalue :=
  match v with
  | BDict d => getitem d key
  | _ => Fail TypeError
  end.

(** [for x in v]: the elements of a list, the byte values of a byte
    string, the keys of a dict; an [int] is not iterable. *)
Definition iterate (v : bvalue) : outcome (list bvalue) :=
  match v with
  | BList l => Done l
  | BBytes b => Done (BInt ∘ byte_val <$> b)
  | BDict d => Done (BBytes ∘ fst <$> d)
  | BInt _ => Fail TypeError
  end.

(** [n + v] for an [int] [n]. *)
Definition add_int (n : Z) (v : bvalue) : outcome Z :=
  match v with
  | BInt z => Done (n + z)
  | _ => Fail TypeError
  end.

Definition b_files : bytes := list_byte_of_string "files".
Definition b_length : bytes := list_byte_of_string "length".
Definition b_path : bytes := list_byte_of_string "path".
Definition b_name : bytes := list_byte_of_string "name".
Definition b_pieces : bytes := list_byte_of_string "pieces".
Definition b_piece_length : bytes := list_byte_of_string "piece length".

Definition get_piece_length (info_dict : list (bytes * bvalue)) : outcome bvalue :=
  or_exit (getitem info_dict b_piece_length).

(** The loop [for file in info_dict[b'files']: total_length += file[b'length']]. *)
Fixpoint sum_lengths (files : list bvalue) (total_length : Z) : outcome Z :=
  match files with
  | [] => Done total_length
  | file :: files' =>
      length ← subscript file b_length;
      total_length ← add_int total_length length;
      sum_lengths files' total_length
  end.

Definition get_total_length (info_dict : list (bytes * bvalue)) : outcome Z :=
  let total_length := 0 in
  or_exit
    (match dict_get info_dict b_files with
     | Some files =>
         files ← iterate files;
         sum_lengths files total_length
     | None =>
         length ← getitem info_dict b_length;
         add_int total_length length
     end).

Definition get_file_sizes (info_dict : list (bytes * bvalue))
    : outcome (list bvalue) :=
  or_exit
    (match dict_get info_dict b_files with
     | Some files =>
         files ← iterate files;
         collect (fun file => subscript file b_length) files
     | None =>
         length ← getitem info_dict b_length;
         Done [length]
     end).

(** [v[lo:hi]] for [0 <= lo <= hi]. *)
Definition slice_value (v : bvalue) (lo hi : nat) : outcome bvalue :=
  match v with
  | BBytes b => Done (BBytes (slice lo hi b))
  | BList l => Done (BList (slice lo hi l))
  | _ => Fail TypeError
  end.

(** [get_hash_list]: the [KeyError] of a missing [pieces] is not caught. *)
Definition get_hash_list (info_dict : list (bytes * bvalue)) (num_of_pieces : Z)
    : outcome (list bvalue) :=
  pieces ← getitem info_dict b_pieces;
  collect (fun i => slice_value pieces (20 * i) (20 * (i + 1)))
    (seq 0 (Z.to_nat num_of_pieces)).

(** Whether a byte string is well-formed UTF-8, as the strict decoder of
    [bytes.decode('utf-8')] wants it: no overlong form, no surrogate,
    nothing above U+10FFFF. *)
Definition continuation (b : byte) : bool :=
  (128 <=? byte_val b) && (byte_val b <=? 191).
Definition between (lo hi : Z) (b : byte) : bool :=
  (lo <=? byte_val b) && (byte_val b <=? hi).

Fixpoint utf8_valid (b : bytes) : bool :=
  match b with
  | [] => true
  | b0 :: r0 =>
      if byte_val b0 <? 128 then utf8_valid r0
      else
        match r0 with
        | [] => false
        | b1 :: r1 =>
            if between 194 223 b0 then continuation b1 && utf8_valid r1
            else
              match r1 with
              | [] => false
              | b2 :: r2 =>
                  if between 224 239 b0 then
                    (if decide (byte_val b0 = 224) then between 160 191 b1
                     else if decide (byte_val b0 = 237) then between 128 159 b1
                     else continuation b1)
                    && continuation b2 && utf8_valid r2
                  else
                    match r2 with
                    | [] => false
                    | b3 :: r3 =>
                        if between 240 244 b0 then
                          (if decide (byte_val b0 = 240) then between 144 191 b1
                           else if decide (byte_val b0 = 244)
                           then between 128 143 b1
                           else continuation b1)
                          && continuation b2 && continuation b3 && utf8_valid r3
                        else false
                    end
              end
        end
  end.

(** [s.decode('utf-8')]; a [str] is kept as its UTF-8 bytes.  A value that
    is not a byte string has no [decode]. *)
Definition decode (s : bvalue) : outcome string :=
  match s with
  | BBytes b =>
      if utf8_valid b then Done (string_of_list_byte b)
      else Fail UnicodeDecodeError
  | _ => Fail AttributeError
  end.

(** ['/'.join(l)] *)
Fixpoint join (sep : string) (l : list string) : string :=
  match l with
  | [] => EmptyString
  | [s] => s
  | s :: l' => s +:+ sep +:+ join sep l'
  end.

(** An entry of [TorrentDetails.files]. *)
Record FileEntry : Type := mkFileEntry {
  path : string;
  length : bvalue;
  offset : Z;
}.

(** The loop [for file_info in info_dict[b'files']] of [get_file_details]. *)
Fixpoint file_entries (files : list bvalue) (root : string) (offset : Z)
    : outcome (list FileEntry) :=
  match files with
  | [] => Done []
  | file_info :: files' =>
      path ← subscript file_info b_path;
      path ← iterate path;
      file_path_str ← collect decode path;
      let file_path := join "/" file_path_str in
      file_length ← subscript file_info b_length;
      let entry := mkFileEntry (root +:+ file_path) file_length offset in
      offset ← add_int offset file_length;
      files_list ← file_entries files' root offset;
      Done (entry :: files_list)
  end.

Definition get_file_details (info_dict : list (bytes * bvalue)) (root : string)
    : outcome (list FileEntry) :=
  match dict_get info_dict b_files with
  | Some files =>
      let offset := 0 in
      files ← iterate files;
      file_entries files root offset
  | None =>
      let file_length := default (BInt 0) (dict_get info_dict b_length) in
      name ← decode (default (BBytes []) (dict_get info_dict b_name));
      Done [mkFileEntry (root +:+ name) file_length 0]
  end.

(** The sum of a list of integers. *)
Definition total (l : list Z) : Z := foldr Z.add 0 l.

End GetDetails.

(* --------------------------------------------------------------------- *)
(** ** utils/download.py: save_piece_to_disk                             *)
(* --------------------------------------------------------------------- *)

Module Storage.
Import GetDetails.

(** The files under the download directory, by path.  Every operation of
    the file system is taken to succeed, and two paths name the same file
    only when they are the same string. *)
Abbreviation Disk := (gmap string bytes).







End Storage.

(* --------------------------------------------------------------------- *)
(** ** Concrete torrents, peers and trackers                              *)
(* --------------------------------------------------------------------- *)

Module Samples.
Import JsonData Download GetPeers.

(** A handshake as a peer sends it, with a reserved field and a peer id of
    its own. *)
Definition sample_info_hash : bytes := replicate 20 x2a.
Definition sample_handshake : bytes :=
  [x13] ++ VerifyMessages.pstr ++ replicate 8 x00 ++ sample_info_hash
    ++ list_byte_of_string "-XX0001-abcdefghijkl".

(** A frame: the length prefix, the id and the payload. *)
Definition frame (id : Z) (payload : bytes) : bytes :=
  be_bytes 4 (1 + len payload) ++ [byte_of_Z id] ++ payload.

(** A torrent of three pieces: the peer announces all of them in one
    bitfield byte, [11100000]. *)
Definition three_piece_bitfield : bytes := frame 5 [xe0].

(** A torrent of eight pieces, none verified, and a peer that sends its
    bitfield ([10000000]) and then nothing. *)
Definition eight_pieces : ResumeData :=
  fresh "2a" 4 8 [32] 0 "1970-01-01T00:00:00Z".
Definition bitfield_then_silence : Reader :=
  mkReader [frame 5 [x80]] PeerSilent.

(** The same torrent and a peer that sends [have 0], is silent about
    choking, and one that unchokes. *)
Definition have_then_silence : Reader :=
  mkReader [BuildMessages.have_message 0] PeerSilent.
Definition have_then_unchoke : Reader :=
  mkReader [BuildMessages.have_message 0; BuildMessages.build_unchoke] PeerSilent.

(** The same torrent: eight pieces of four bytes, piece [i] holding four
    times the letter number [i] ([AAAA], [BBBB], ...). *)
Definition eight_piece_torrent : Details.TorrentDetails :=
  Details.mkTorrentDetails 4 32 8
    ((fun letter => Hashlib.sha1 (replicate 4 letter))
       <$> [x41; x42; x43; x44; x45; x46; x47; x48])
    sample_info_hash.

(** Three peers, as they talk after the handshake.  The first announces
    pieces 0 and 1 in its bitfield ([11000000]), serves wrong bytes for
    piece 1 and closes the connection; the other two announce piece 1 with
    a [have], unchoke, and serve piece 1. *)
Definition corrupt_peer : Reader :=
  mkReader
    [frame 5 [xc0];
     BuildMessages.piece_message 1 0 (list_byte_of_string "XXXX")]
    PeerCloses.
Definition honest_peer : Reader :=
  mkReader
    [BuildMessages.have_message 1; BuildMessages.build_unchoke;
     BuildMessages.piece_message 1 0 (list_byte_of_string "BBBB")]
    PeerCloses.

(** The sessions that the download stage starts for them, all three
    handled while nothing is verified, on a disk that takes every save. *)
Definition three_sessions : World :=
  mkWorld (mkShared eight_pieces [] never_raises 0)
    (omap (queued_session eight_pieces) [corrupt_peer; honest_peer; honest_peer]).

(** Session 0 claims pieces 1 and 0 and drops piece 1 on the hash mismatch;
    session 1 claims piece 1; session 0 fails on piece 0; session 2 claims
    piece 1; sessions 1 and 2 each complete piece 1. *)
Definition racing_schedule : list nat := [0; 0; 1; 0; 2; 1; 2]%nat.

(** The first scenario of the end-to-end tests: piece length 16384, length
    40000, three pieces; the content is 40000 times the byte [A]. *)
Definition s1_last_piece : bytes := replicate (Z.to_nat 7232) x41.
Definition s1_details : Details.TorrentDetails :=
  Details.mkTorrentDetails 16384 40000 3
    [Hashlib.sha1 (replicate (Z.to_nat 16384) x41);
     Hashlib.sha1 (replicate (Z.to_nat 16384) x41);
     Hashlib.sha1 s1_last_piece]
    sample_info_hash.
(** A peer that serves the last piece as it is. *)
Definition s1_peer : Reader :=
  mkReader [BuildMessages.piece_message 2 0 s1_last_piece] PeerCloses.

Definition s1_fresh : ResumeData :=
  fresh "2a" 16384 3 [40000] 0 "1970-01-01T00:00:00Z".
Definition s1_world : World :=
  mkWorld (mkShared s1_fresh [] never_raises 0) [new_session [2]%nat s1_peer].

(** Trackers.  A healthy one answers both exchanges, echoing the transaction
    ids 7 and 9, with interval 1800, 3 leechers, 5 seeders and one peer. *)
Definition connect_reply (action transaction_id connection_id : Z) : bytes :=
  be_bytes 4 action ++ be_bytes 4 transaction_id ++ be_bytes 8 connection_id.
Definition announce_reply (action transaction_id : Z) : bytes :=
  be_bytes 4 action ++ be_bytes 4 transaction_id ++ be_bytes 4 1800
    ++ be_bytes 4 3 ++ be_bytes 4 5 ++ [x0a; x00; x00; x01] ++ be_bytes 2 6881.

Definition connects (reply : recv_outcome) : nat -> connect_attempt :=
  fun _ => mkConnectAttempt 7 Sent reply.
Definition announces_with (send : send_outcome) (reply : recv_outcome)
    : nat -> announce_attempt :=
  fun _ => mkAnnounceAttempt 9 (replicate 12 x61) 11 send reply.

Definition healthy : Tracker :=
  mkTracker (connects (Reply (connect_reply 0 7 99)))
    (announces_with Sent (Reply (announce_reply 1 9))).
(** Connect replies that are not valid: 8 bytes only; a wrong transaction
    id; a wrong action; 17 bytes. *)
Definition short_connect : Tracker :=
  mkTracker (connects (Reply (replicate 8 x00))) (on_announce healthy).
Definition wrong_txn_connect : Tracker :=
  mkTracker (connects (Reply (connect_reply 0 8 99))) (on_announce healthy).
Definition wrong_action_connect : Tracker :=
  mkTracker (connects (Reply (connect_reply 3 7 99))) (on_announce healthy).
Definition long_connect : Tracker :=
  mkTracker (connects (Reply (connect_reply 0 7 99 ++ [x00])))
    (on_announce healthy).
(** Failures that the loop survives. *)
Definition silent_connect : Tracker :=
  mkTracker (connects RecvTimeout) (on_announce healthy).
Definition unresolvable : Tracker :=
  mkTracker (fun _ => mkConnectAttempt 7 SendGaierror RecvTimeout)
    (on_announce healthy).
Definition wrong_txn_announce : Tracker :=
  mkTracker (on_connect healthy)
    (announces_with Sent (Reply (announce_reply 1 10))).
(** An announce reply with three stray bytes after the last peer entry. *)
Definition ragged_announce : Tracker :=
  mkTracker (on_connect healthy)
    (announces_with Sent (Reply (announce_reply 1 9 ++ [x0a; x00; x00]))).
(** The name no longer resolves when the announce is sent. *)
Definition unresolvable_announce : Tracker :=
  mkTracker (on_connect healthy) (announces_with SendGaierror RecvTimeout).
(** An announce reply with 680 peers: 4100 bytes. *)
Definition crowded_announce : Tracker :=
  mkTracker (on_connect healthy)
    (announces_with Sent
       (Reply (announce_response 1 9 1800 3 5
                 (replicate 680 ([x0a; x00; x00; x01], 6881))))).

(** The info dictionary of a torrent with two files and a [pieces] string
    that is ten bytes short of two hashes. *)
Definition two_files : list (bytes * GetDetails.bvalue) :=
  [ (GetDetails.b_files,
     GetDetails.BList [GetDetails.BDict [(GetDetails.b_length, GetDetails.BInt 5);
                   (GetDetails.b_path, GetDetails.BList [GetDetails.BBytes (list_byte_of_string "a");
                                   GetDetails.BBytes (list_byte_of_string "b.txt")])];
            GetDetails.BDict [(GetDetails.b_length, GetDetails.BInt 7);
                   (GetDetails.b_path, GetDetails.BList [GetDetails.BBytes (list_byte_of_string "c.bin")])]]);
    (GetDetails.b_name, GetDetails.BBytes (list_byte_of_string "demo"));
    (GetDetails.b_piece_length, GetDetails.BInt 8);
    (GetDetails.b_pieces, GetDetails.BBytes (replicate 30 x41)) ].

End Samples.

(* ===================================================================== *)
(** * Theorems                                                            *)
(* ===================================================================== *)

(* --------------------------------------------------------------------- *)
(** ** Bytes and the codec                                                *)
(* --------------------------------------------------------------------- *)

Lemma Ok_inj {A} (a b : A) : Ok a = Ok b → a = b.
Proof. congruence. Qed.

Lemma byte_val_range (b : byte) : 0 ≤ byte_val b < 256.
Proof.
  unfold byte_val. pose proof (Byte.to_N_bounded b) as H.
  split; [apply N2Z.is_nonneg|]. lia.
Qed.

Lemma byte_val_inj (a b : byte) : byte_val a = byte_val b → a = b.
Proof.
  unfold byte_val. intros H. apply N2Z.inj in H.
  pose proof (Byte.of_to_N a) as Ha. pose proof (Byte.of_to_N b) as Hb.
  rewrite H in Ha. congruence.
Qed.

Lemma be_uint_4 (b0 b1 b2 b3 : byte) :
  be_uint [b0; b1; b2; b3]
  = byte_val b0 * 2 ^ 24 + byte_val b1 * 2 ^ 16 + byte_val b2 * 2 ^ 8
    + byte_val b3.
Proof. unfold be_uint. simpl. lia. Qed.

Lemma signed_byte (b : byte) :
  (byte_val b + 128) mod 256 - 128
  = if decide (byte_val b < 128) then byte_val b else byte_val b - 256.
Proof.
  pose proof (byte_val_range b). case_decide.
  - rewrite Z.mod_small by lia. lia.
  - replace (byte_val b + 128) with (byte_val b - 128 + 1 * 256) by lia.
    rewrite Z.mod_add by lia. rewrite Z.mod_small by lia. lia.
Qed.

Example parse_keep_alive :
  BuildMessages.parse_message BuildMessages.build_keep_alive
  = Ok (Details.mkParsedMessage (Some 0) None None).
Proof. reflexivity. Qed.

Example parse_unchoke :
  BuildMessages.parse_message BuildMessages.build_unchoke
  = Ok (Details.mkParsedMessage (Some 1) (Some 1) None).
Proof. reflexivity. Qed.

(** C10: [parse_message] never raises.  For every packet it returns a
    [ParsedMessage] whose size is the big-endian value of the first four
    bytes when there are at least four and [None] otherwise, whose id is the
    fifth byte read as a signed byte when there are at least five and [None]
    otherwise, and whose payload is everything after the fifth byte when
    there are at least six bytes and [None] otherwise. *)
Theorem parse_message_total (pkt : bytes) :
  BuildMessages.parse_message pkt
  = Ok (Details.mkParsedMessage
          (if decide (4 ≤ len pkt)
           then Some (byte_val (pkt !!! 0%nat) * 2 ^ 24
                      + byte_val (pkt !!! 1%nat) * 2 ^ 16
                      + byte_val (pkt !!! 2%nat) * 2 ^ 8
                      + byte_val (pkt !!! 3%nat))
           else None)
          (if decide (5 ≤ len pkt)
           then Some (if decide (byte_val (pkt !!! 4%nat) < 128)
                      then byte_val (pkt !!! 4%nat)
                      else byte_val (pkt !!! 4%nat) - 256)
           else None)
          (if decide (6 ≤ len pkt) then Some (drop 5 pkt) else None)).
Proof.
  unfold BuildMessages.parse_message.
  destruct pkt as [|b0 [|b1 [|b2 [|b3 [|b4 [|b5 rest]]]]]];
    try reflexivity;
    repeat case_decide; unfold len in *; simpl length in *; try lia;
    unfold unpack_I, unpack_b, slice; simpl take; simpl drop;
    rewrite ?decide_True by done;
    cbn [fmap result_fmap mbind result_bind lookup_total list_lookup_total].
  all: rewrite ?be_uint_4, ?signed_byte; repeat case_decide; done || lia.
Qed.

(** A packet that passes the length check unpacks. *)
Lemma unpack_handshake_68 (b0 : byte) (tl : bytes) :
  length (b0 :: tl) = 68%nat →
  VerifyMessages.unpack_handshake (b0 :: tl)
  = Ok (byte_val b0, slice 1 20 (b0 :: tl), slice 28 48 (b0 :: tl),
        slice 48 68 (b0 :: tl)).
Proof. intros H. unfold VerifyMessages.unpack_handshake. by rewrite decide_True. Qed.

Lemma is_handshake_true (pkt h : bytes) :
  VerifyMessages.is_handshake pkt h = Ok true
  ↔ length pkt = 68%nat ∧ pkt !! 0%nat = Some x13
    ∧ slice 1 20 pkt = VerifyMessages.pstr ∧ slice 28 48 pkt = h.
Proof.
  unfold VerifyMessages.is_handshake.
  destruct (decide (len pkt ≠ 68)) as [Hne|Heq].
  - split; [done|]. intros (Hl & _). unfold len in Hne. lia.
  - assert (length pkt = 68%nat) as Hl by (unfold len in Heq; lia).
    destruct pkt as [|b0 tl]; [done|].
    rewrite unpack_handshake_68 by done. cbn [mbind result_bind].
    change ((b0 :: tl) !! 0%nat) with (Some b0).
    repeat case_bool_decide; cbn [orb]; split;
      try done; try (intros (? & ? & ? & ?); simplify_eq; done).
    intros _. repeat split; try done.
    f_equal. apply byte_val_inj. by rewrite H.
Qed.

Lemma is_handshake_total (pkt h : bytes) :
  VerifyMessages.is_handshake pkt h = Ok true
  ∨ VerifyMessages.is_handshake pkt h = Ok false.
Proof.
  unfold VerifyMessages.is_handshake.
  case_decide; [by right|].
  destruct pkt as [|b0 tl]; [done|].
  rewrite unpack_handshake_68 by (unfold len in *; lia).
  cbn [mbind result_bind]. destruct (_ || _); auto.
Qed.

(** C4: [is_handshake] never raises; it answers [True] exactly for the
    68-byte packets whose first byte is 19, whose bytes 1 to 19 spell
    [BitTorrent protocol] and whose bytes 28 to 47 are the expected hash;
    putting other bytes in the reserved field and in the peer id of a
    68-byte packet does not change the answer. *)
Theorem is_handshake_spec (pkt h reserved peer_id : bytes) :
  length reserved = 8%nat → length peer_id = 20%nat →
  (VerifyMessages.is_handshake pkt h = Ok true
   ↔ length pkt = 68%nat ∧ pkt !! 0%nat = Some x13
     ∧ slice 1 20 pkt = VerifyMessages.pstr ∧ slice 28 48 pkt = h)
  ∧ (VerifyMessages.is_handshake pkt h = Ok true
     ∨ VerifyMessages.is_handshake pkt h = Ok false)
  ∧ (length pkt = 68%nat →
     VerifyMessages.is_handshake
       (take 20 pkt ++ reserved ++ slice 28 48 pkt ++ peer_id) h
     = VerifyMessages.is_handshake pkt h).
Proof.
  intros Hres Hpid. split; [apply is_handshake_true|].
  split; [apply is_handshake_total|]. intros Hl.
  set (pkt' := take 20 pkt ++ reserved ++ slice 28 48 pkt ++ peer_id).
  assert (length pkt' = 68%nat) as Hl'.
  { unfold pkt', slice. rewrite !length_app, !length_take, length_drop. lia. }
  assert (take 20 pkt' = take 20 pkt) as H20.
  { unfold pkt'. rewrite take_app_le by (rewrite length_take; lia).
    rewrite take_take. f_equal. }
  assert (slice 28 48 pkt' = slice 28 48 pkt) as Hih.
  { unfold pkt', slice at 1.
    rewrite drop_app_ge by (rewrite length_take; lia).
    rewrite length_take, drop_app_ge by lia.
    replace (28 - 20 `min` length pkt - length reserved)%nat with 0%nat by lia.
    rewrite drop_0, take_app_le by (unfold slice; rewrite length_take, length_drop; lia).
    unfold slice. by rewrite take_take. }
  assert (∀ p : bytes, slice 1 20 p = drop 1 (take 20 p)) as Hs.
  { intros p. unfold slice. by rewrite take_drop_commute. }
  assert (∀ p : bytes, p !! 0%nat = take 20 p !! 0%nat) as H0.
  { intros p. by rewrite lookup_take by lia. }
  destruct (is_handshake_total pkt h) as [Ht|Hf].
  - rewrite Ht. apply is_handshake_true. apply is_handshake_true in Ht.
    destruct Ht as (_ & Hb & Hp & Hh).
    rewrite Hih, Hs, H0, H20, <- H0, <- Hs. done.
  - rewrite Hf. destruct (is_handshake_total pkt' h) as [Ht'|Hf']; [|done].
    apply is_handshake_true in Ht'. destruct Ht' as (_ & Hb & Hp & Hh).
    rewrite Hih, Hs, H0, H20, <- H0, <- Hs in *.
    assert (VerifyMessages.is_handshake pkt h = Ok true) as Ht
      by (by apply is_handshake_true).
    congruence.
Qed.

Lemma is_handshake_spec_witness :
  VerifyMessages.is_handshake
    (take 20 Samples.sample_handshake ++ replicate 8 xff
       ++ slice 28 48 Samples.sample_handshake ++ replicate 20 x01) Samples.sample_info_hash
  = Ok true.
Proof.
  pose proof (is_handshake_spec Samples.sample_handshake Samples.sample_info_hash
                (replicate 8 xff) (replicate 20 x01) eq_refl eq_refl)
    as (Hiff & _ & Hsame).
  rewrite (Hsame eq_refl). apply Hiff. repeat split; reflexivity.
Defined.

Example sha1_abc :
  Hashlib.sha1 (list_byte_of_string "abc")
  = map byte_of_Z [169;153;62;54;71;6;129;106;186;62;37;113;120;80;194;108;156;208;216;157].
Proof. vm_compute. reflexivity. Qed.

Example sha1_empty :
  Hashlib.sha1 []
  = map byte_of_Z [218;57;163;238;94;107;75;13;50;85;191;239;149;96;24;144;175;216;7;9].
Proof. vm_compute. reflexivity. Qed.

Example sha1_two_blocks :
  Hashlib.sha1 (list_byte_of_string "abcdbcdecdefdefgefghfghighijhijkijkljklmklmnlmnomnopnopq")
  = map byte_of_Z [132;152;62;68;28;59;210;110;186;174;74;161;249;81;41;229;229;70;112;241].
Proof. vm_compute. reflexivity. Qed.

(* --------------------------------------------------------------------- *)
(** ** Resume store                                                       *)
(* --------------------------------------------------------------------- *)

Section resume_round_trip.
Import JsonData.

Lemma json_encode_list (l : list pyval) :
  json_encode (PList l) = JArr <$> mapM json_encode l.
Proof. reflexivity. Qed.

Lemma encode_ints (l : list Z) :
  json_encode (PList (PInt <$> l)) = Some (JArr (JInt <$> l)).
Proof.
  rewrite json_encode_list.
  assert (mapM json_encode (PInt <$> l) = Some (JInt <$> l)) as ->; [|done].
  apply mapM_Some_2. induction l as [|z l IH]; simpl; by constructor.
Qed.

Lemma encode_bools (l : list bool) :
  json_encode (PList (PBool <$> l)) = Some (JArr (JBool <$> l)).
Proof.
  rewrite json_encode_list.
  assert (mapM json_encode (PBool <$> l) = Some (JBool <$> l)) as ->; [|done].
  apply mapM_Some_2. induction l as [|z l IH]; simpl; by constructor.
Qed.

Lemma decode_ints (l : list Z) :
  as_list as_int (map json_decode (JInt <$> l)) = Ok l.
Proof. induction l as [|z l IH]; [done|]. cbn. cbn in IH. by rewrite IH. Qed.

Lemma decode_bools (l : list bool) :
  as_list as_bool (map json_decode (JBool <$> l)) = Ok l.
Proof. induction l as [|z l IH]; [done|]. cbn. cbn in IH. by rewrite IH. Qed.

Lemma asdict_without_transients (self : ResumeData) :
  delete "claimed_pieces"%string (delete "lock"%string (asdict self))
  = list_to_map
    [ ("info_hash"%string, PStr (info_hash self));
      ("piece_length"%string, PInt (piece_length self));
      ("total_pieces"%string, PInt (total_pieces self));
      ("downloaded"%string, PInt (downloaded self));
      ("file_sizes"%string, PList (PInt <$> file_sizes self));
      ("mtime"%string, PInt (mtime self));
      ("verified_pieces"%string, PList (PBool <$> verified_pieces self));
      ("last_active"%string, PStr (last_active self)) ].
Proof.
  unfold asdict. cbn [list_to_map foldr fst snd uncurry].
  rewrite !(delete_insert_ne _ "lock"%string) by done.
  rewrite delete_insert_eq, (delete_insert_ne _ "lock"%string), delete_empty by done.
  rewrite !(delete_insert_ne _ "claimed_pieces"%string) by done.
  rewrite delete_insert_eq, !delete_empty. done.
Qed.

Lemma to_json_document (self : ResumeData) :
  to_json self = Ok (document self).
Proof.
  unfold to_json, json_dump. rewrite asdict_without_transients.
  cbn [list_to_map foldr fst snd uncurry].
  destruct (decide _) as [_|Hn].
  - f_equal. unfold document. cbn [list_to_map foldr fst snd uncurry].
    repeat (erewrite omap_insert_Some;
            [|first [apply encode_ints | apply encode_bools | reflexivity]]).
    by rewrite omap_empty.
  - destruct Hn.
    repeat (apply map_Forall_insert_2;
            [first [rewrite encode_ints | rewrite encode_bools | idtac]; by eexists|]).
    apply map_Forall_empty.
Qed.

Lemma from_json_document (self : ResumeData) :
  from_json (document self)
  = Ok (mkResumeData (info_hash self) (piece_length self) (total_pieces self)
          (downloaded self) (file_sizes self) (mtime self)
          (verified_pieces self) (last_active self) ∅).
Proof.
  unfold from_json, json_load, cls, document.
  cbn [list_to_map foldr fst snd uncurry].
  rewrite !fmap_insert, fmap_empty.
  destruct (decide _) as [_|Hn].
  - unfold field.
    repeat (rewrite lookup_insert_eq || (rewrite lookup_insert_ne by done)).
    cbn. rewrite decode_ints. cbn. rewrite decode_bools. done.
  - destruct Hn. rewrite !dom_insert_L, dom_empty_L. unfold init_fields.
    set_solver.
Qed.

(** C7: writing a [ResumeData] with [to_json] and reading the file back with
    [from_json] succeeds, and gives a record with the same [verified_pieces],
    the same [downloaded] and an empty [claimed_pieces], whatever was claimed
    when the file was written; the file has no [claimed_pieces] entry. *)
Theorem resume_round_trip (self : ResumeData) :
  ∃ file loaded,
    to_json self = Ok file
    ∧ file !! "claimed_pieces"%string = None
    ∧ from_json file = Ok loaded
    ∧ verified_pieces loaded = verified_pieces self
    ∧ downloaded loaded = downloaded self
    ∧ claimed_pieces loaded = ∅.
Proof.
  eexists _, _. split; [apply to_json_document|].
  split; [reflexivity|]. split; [apply from_json_document|]. done.
Qed.

(** Without the two [pop] calls the dump would fail on the lock. *)
Example dump_needs_pop (self : ResumeData) :
  json_dump (asdict self) = Raise TypeError.
Proof.
  unfold json_dump. rewrite decide_False; [done|].
  intros H. specialize (H "lock"%string PLock eq_refl). by destruct H.
Qed.

End resume_round_trip.

(* --------------------------------------------------------------------- *)
(** ** Bitfields                                                          *)
(* --------------------------------------------------------------------- *)

Section handlers.
Import Handlers Samples.

(** C3: with three pieces, none verified, and a bitfield whose first three
    bits are set, [bitfield_handler] returns the empty list: the first index
    it looks at in the byte is 7, which is past the last piece, and the
    [break] leaves the byte. *)
Theorem bitfield_handler_partial_byte :
  ∃ parsed payload,
    BuildMessages.parse_message three_piece_bitfield = Ok parsed
    ∧ Details.payload parsed = Some payload
    ∧ Forall (fun i => bit_at payload i = 1) [0; 1; 2]%nat
    ∧ bitfield_handler parsed [false; false; false] = Ok [].
Proof.
  eexists _, _. split; [reflexivity|]. split; [reflexivity|].
  split; [|reflexivity]. repeat constructor.
Qed.

(** *** What [bitfield_handler] returns in general *)

Lemma index_of_bit (k bit i : nat) :
  (bit < 8)%nat → i = (k * 8 + (7 - bit))%nat →
  (i / 8)%nat = k ∧ (7 - Z.of_nat (i mod 8)) = Z.of_nat bit.
Proof.
  intros Hb ->.
  assert ((k * 8 + (7 - bit)) `div` 8 = k)%nat as Hd.
  { symmetry. apply (Nat.div_unique _ 8 k (7 - bit)); lia. }
  assert ((k * 8 + (7 - bit)) `mod` 8 = 7 - bit)%nat as Hm.
  { symmetry. apply (Nat.mod_unique _ 8 k (7 - bit)); lia. }
  rewrite Hd, Hm. split; [done|lia].
Qed.

Lemma bitfield_bits_spec (byte_index : nat) (byte : byte) (total_pieces : nat)
    (verified : list bool) (bits result : list nat) :
  (total_pieces ≤ length verified)%nat →
  (∀ bit, bit ∈ bits → (byte_index * 8 + (7 - bit) < total_pieces)%nat) →
  ∃ l, bitfield_bits byte_index byte total_pieces verified bits result = Ok l
       ∧ ∀ i, i ∈ l ↔
              i ∈ result
              ∨ ∃ bit, bit ∈ bits ∧ i = (byte_index * 8 + (7 - bit))%nat
                       ∧ Z.land (Z.shiftr (byte_val byte) (Z.of_nat bit)) 1 ≠ 0
                       ∧ verified !! i = Some false.
Proof.
  intros Htot. revert result.
  induction bits as [|bit bits IH]; intros result Hin; simpl.
  { exists result. split; [done|]. intros i. split; [by left|].
    intros [?|(? & []%elem_of_nil & _)]. done. }
  assert (byte_index * 8 + (7 - bit) < total_pieces)%nat as Hbit
    by (apply Hin; by left).
  rewrite decide_False by lia.
  assert (∀ b, b ∈ bits → (byte_index * 8 + (7 - b) < total_pieces)%nat) as Hin'
    by (intros b Hb; apply Hin; by right).
  case_decide as Hset.
  - destruct (IH result Hin') as (l & -> & Hl). exists l. split; [done|].
    intros i. rewrite Hl. split.
    + intros [?|(b & Hb & ?)]; [by left|]. right. exists b.
      split; [by right|done].
    + intros [?|(b & [->|Hb]%elem_of_cons & ? & Hne & ?)]; [by left|done|].
      right. by exists b.
  - destruct (lookup_lt_is_Some_2 verified (byte_index * 8 + (7 - bit)))
      as [v Hv]; [lia|].
    rewrite Hv.
    destruct (IH (if negb v then result ++ [(byte_index * 8 + (7 - bit))%nat]
                  else result) Hin') as (l & -> & Hl).
    exists l. split; [done|]. intros i. rewrite Hl. destruct v; simpl.
    + split.
      * intros [?|(b & Hb & ?)]; [by left|]. right. exists b.
        split; [by right|done].
      * intros [?|(b & [->|Hb]%elem_of_cons & -> & ? & Hf)]; [by left| |].
        -- congruence.
        -- right. by exists b.
    + rewrite elem_of_app, list_elem_of_singleton. split.
      * intros [[? | ->] | (b & Hb & ?)]; [by left| |].
        -- right. exists bit. split; [by left|done].
        -- right. exists b. split; [by right|done].
      * intros [?|(b & [->|Hb]%elem_of_cons & -> & ? & ?)]; [by left;left| |].
        -- by left; right.
        -- right. by exists b.
Qed.

Lemma bitfield_bytes_spec (byte_index : nat) (payload : bytes)
    (total_pieces : nat) (verified : list bool) (result : list nat) :
  (total_pieces ≤ length verified)%nat →
  ∃ l, bitfield_bytes byte_index payload total_pieces verified result = Ok l
       ∧ ∀ i, i ∈ l ↔
              i ∈ result
              ∨ ∃ k byte bit,
                  payload !! k = Some byte ∧ (bit < 8)%nat
                  ∧ ((byte_index + k) * 8 + 7 < total_pieces)%nat
                  ∧ i = ((byte_index + k) * 8 + (7 - bit))%nat
                  ∧ Z.land (Z.shiftr (byte_val byte) (Z.of_nat bit)) 1 ≠ 0
                  ∧ verified !! i = Some false.
Proof.
  intros Htot. revert byte_index result.
  induction payload as [|byte payload IH]; intros byte_index result.
  { exists result. split; [done|]. intros i. split; [by left|].
    intros [?|(k & ? & ? & Hk & _)]; [done|]. by rewrite lookup_nil in Hk. }
  cbn [bitfield_bytes].
  assert (∃ l1, bitfield_bits byte_index byte total_pieces verified (seq 0 8) result
                = Ok l1
                ∧ ∀ i, i ∈ l1 ↔
                       i ∈ result
                       ∨ ∃ bit, (bit < 8)%nat
                                ∧ (byte_index * 8 + 7 < total_pieces)%nat
                                ∧ i = (byte_index * 8 + (7 - bit))%nat
                                ∧ Z.land (Z.shiftr (byte_val byte) (Z.of_nat bit)) 1 ≠ 0
                                ∧ verified !! i = Some false)
    as (l1 & -> & Hl1).
  { destruct (decide (byte_index * 8 + 7 < total_pieces)%nat) as [Hfull|Hpart].
    - destruct (bitfield_bits_spec byte_index byte total_pieces verified
                  (seq 0 8) result Htot) as (l1 & Hl1 & Hspec).
      { intros bit Hb%elem_of_seq. lia. }
      exists l1. split; [done|]. intros i. rewrite Hspec.
      split; (intros [?|(bit & Hb & ?)]; [by left|right; exists bit]).
      + apply elem_of_seq in Hb. split_and!; [lia|done|tauto..].
      + split; [apply elem_of_seq; lia|tauto].
    - exists result. split.
      + change (seq 0 8) with (0%nat :: seq 1 7). cbn [bitfield_bits].
        rewrite decide_True by lia. done.
      + intros i. split; [by left|]. intros [?|(bit & ? & ? & _)]; [done|lia]. }
  cbn [mbind result_bind].
  destruct (IH (S byte_index) l1) as (l & -> & Hl). exists l. split; [done|].
  intros i. rewrite Hl, Hl1. split.
  - intros [[?|(bit & ? & ? & ? & ? & ?)]|(k & b & bit & Hk & ? & ? & ? & ? & ?)].
    + by left.
    + right. exists 0%nat, byte, bit. rewrite Nat.add_0_r. done.
    + right. exists (S k), b, bit.
      replace (byte_index + S k)%nat with (S byte_index + k)%nat by lia. done.
  - intros [?|(k & b & bit & Hk & ? & ? & ? & ? & ?)]; [by left; left|].
    destruct k as [|k].
    + injection Hk as <-. rewrite Nat.add_0_r in *. left. right. by exists bit.
    + right. exists k, b, bit.
      replace (S byte_index + k)%nat with (byte_index + S k)%nat by lia. done.
Qed.

Lemma land_1_cases (z : Z) : Z.land z 1 = 0 ∨ Z.land z 1 = 1.
Proof.
  assert (Z.land z 1 = z mod 2) as -> by exact (Z.land_ones z 1 ltac:(lia)).
  pose proof (Z.mod_pos_bound z 2). lia.
Qed.

(** [bitfield_handler] never raises on a message with a payload, and it
    returns the unverified pieces that the peer has among those of the whole
    bytes: an index [i] is reported exactly when its byte is in the payload,
    the last index of that byte ([8 * (i / 8) + 7]) is a piece index, bit
    [i] is set and piece [i] is not verified. *)
Lemma bitfield_handler_spec (parsed : Details.ParsedMessage) (payload : bytes)
    (verified : list bool) :
  Details.payload parsed = Some payload →
  ∃ l, bitfield_handler parsed verified = Ok l
       ∧ ∀ i, i ∈ l ↔
              (i / 8 < length payload)%nat
              ∧ (i / 8 * 8 + 7 < length verified)%nat
              ∧ bit_at payload i = 1
              ∧ verified !! i = Some false.
Proof.
  intros Hp. unfold bitfield_handler. rewrite Hp.
  destruct (bitfield_bytes_spec 0 payload (length verified) verified [])
    as (l & -> & Hl); [done|].
  exists l. split; [done|]. intros i. rewrite Hl. unfold bit_at. split.
  - intros [[]%elem_of_nil|(k & b & bit & Hk & Hb & Hfull & Hi & Hset & Hv)].
    simpl in Hi, Hfull.
    destruct (index_of_bit k bit i Hb Hi) as [Hd Hm]. rewrite Hd, Hm.
    rewrite (list_lookup_total_correct _ _ _ Hk).
    split_and!; [by eapply lookup_lt_Some|done| |done].
    destruct (land_1_cases (Z.shiftr (byte_val b) (Z.of_nat bit))); [done|done].
  - intros (Hk & Hfull & Hset & Hv). right.
    destruct (lookup_lt_is_Some_2 payload (i / 8) Hk) as [b Hb].
    rewrite (list_lookup_total_correct _ _ _ Hb) in Hset.
    exists (i / 8)%nat, b, (7 - i mod 8)%nat.
    assert (i `mod` 8 < 8)%nat by (apply Nat.mod_upper_bound; lia).
    pose proof (Nat.div_mod_eq i 8).
    replace (Z.of_nat (7 - i `mod` 8)) with (7 - Z.of_nat (i `mod` 8)) by lia.
    split_and!; [done|lia|lia|lia|by rewrite Hset|done].
Qed.

(** With eight pieces the same byte is read in full, highest index first. *)
Example bitfield_handler_full_byte :
  bitfield_handler (Details.mkParsedMessage (Some 2) (Some 5) (Some [xe0]))
    (replicate 8 false)
  = Ok [2; 1; 0]%nat.
Proof. reflexivity. Qed.

End handlers.

(* --------------------------------------------------------------------- *)
(** ** The handle stage                                                   *)
(* --------------------------------------------------------------------- *)

Section handle_stage.
Import JsonData Download Samples.

Lemma unchoke_seen_app_l (seen more : list bytes) :
  unchoke_seen seen → unchoke_seen (seen ++ more).
Proof.
  intros (msg & parsed & Hin & Hp & Hu). exists msg, parsed.
  split; [|done]. apply elem_of_app. by left.
Qed.

Lemma wait_for_unchoke_true (e : stream_end) (inc seen0 seen rest : list bytes) :
  wait_for_unchoke e inc seen0 = (Ok true, seen, rest) → unchoke_seen seen.
Proof.
  revert seen0. induction inc as [|msg inc IH]; intros seen0; simpl.
  - destruct e; intros [=].
  - destruct (BuildMessages.parse_message msg) as [parsed|x] eqn:Hp; [|intros [=]].
    destruct (VerifyMessages.is_unchoke parsed) eqn:Hu.
    + intros [= <- <-]. exists msg, parsed. split; [|done].
      apply elem_of_app. right. by apply list_elem_of_singleton.
    + apply IH.
Qed.

(** On the [have] path a connection is passed on only after an unchoke
    message has been read. *)
Lemma have_path_waits (rd : ResumeData) (msg : bytes) (rest : list bytes)
    (e : stream_end) (parsed : Details.ParsedMessage) :
  BuildMessages.parse_message msg = Ok parsed →
  VerifyMessages.is_have parsed = true →
  is_Some (enqueued (handle_peer rd (mkReader (msg :: rest) e))) →
  unchoke_seen (seen (handle_peer rd (mkReader (msg :: rest) e))).
Proof.
  intros Hp Hh. unfold handle_peer. cbn [incoming ending]. rewrite Hp, Hh.
  destruct (Handlers.have_handler _ _) as [[|p ps]|x];
    try (intros [? Hx]; simpl in Hx; discriminate).
  destruct (wait_for_unchoke e rest [msg]) as [[[[]|y] sn] rs] eqn:Hw;
    intros [? Hx]; simpl in Hx; try discriminate; simpl.
  all: exact (wait_for_unchoke_true _ _ _ _ _ Hw).
Qed.

(** On the [bitfield] path the connection is passed on as soon as the
    bitfield has been read: nothing else is read before. *)
Lemma bitfield_path_reads_one (rd : ResumeData) (msg : bytes)
    (rest : list bytes) (e : stream_end) (parsed : Details.ParsedMessage) :
  BuildMessages.parse_message msg = Ok parsed →
  VerifyMessages.is_have parsed = false →
  VerifyMessages.is_bitfeild parsed = true →
  is_Some (enqueued (handle_peer rd (mkReader (msg :: rest) e))) →
  seen (handle_peer rd (mkReader (msg :: rest) e)) = [msg].
Proof.
  intros Hp Hh Hb. unfold handle_peer. cbn [incoming ending].
  rewrite Hp, Hh, Hb.
  by destruct (Handlers.bitfield_handler _ _) as [[|p ps]|x].
Qed.

(** C6: a peer that sends a bitfield and then nothing is handed to the
    download stage although no unchoke message was read; what the handle
    stage wrote to it is the [interested] message. *)
Theorem bitfield_path_skips_unchoke :
  enqueued (handle_peer eight_pieces bitfield_then_silence)
  = Some ([0%nat], mkReader [] PeerSilent)
  ∧ written (handle_peer eight_pieces bitfield_then_silence)
    = [BuildMessages.build_interested]
  ∧ ¬ unchoke_seen (seen (handle_peer eight_pieces bitfield_then_silence)).
Proof.
  split; [reflexivity|]. split; [reflexivity|].
  intros (msg & parsed & Hin & Hp & Hu).
  change (seen (handle_peer eight_pieces bitfield_then_silence))
    with [frame 5 [x80]] in Hin.
  apply list_elem_of_singleton in Hin. subst msg.
  vm_compute in Hp. injection Hp as <-. discriminate Hu.
Qed.

(** The same peer announcing its piece with [have]: nothing is enqueued
    until it unchokes. *)
Example have_path_silence :
  enqueued (handle_peer eight_pieces have_then_silence) = None.
Proof. reflexivity. Qed.

Example have_path_unchoke :
  enqueued (handle_peer eight_pieces have_then_unchoke)
  = Some ([0%nat], mkReader [] PeerSilent).
Proof. reflexivity. Qed.

End handle_stage.

(* --------------------------------------------------------------------- *)
(** ** The tracker client                                                 *)
(* --------------------------------------------------------------------- *)

Section tracker.
Import GetPeers Samples.

Lemma length_be_bytes (n : nat) (z : Z) : length (be_bytes n z) = n.
Proof. induction n as [|n IH]; simpl; [done|]. by rewrite IH. Qed.

Lemma length_pack_20s (b : bytes) : length (pack_20s b) = 20%nat.
Proof.
  unfold pack_20s. rewrite length_take, length_app, length_replicate. lia.
Qed.

Lemma drop_add_app {A} (n m : nat) (a b : list A) :
  length a = n → drop (n + m) (a ++ b) = drop m b.
Proof.
  intros <-. rewrite drop_app_ge by lia. f_equal. lia.
Qed.

(** The datagram that is built always carries [event = 2]. *)
Lemma announce_req_event (connection_id transaction_id : Z)
    (info_hash peer_id : bytes) (total_length key : Z) (req : bytes) :
  announce_req connection_id transaction_id info_hash peer_id total_length key
  = Ok req →
  event_field req = 2.
Proof.
  unfold announce_req. cbv zeta. case_decide; [|done]. intros Heq.
  apply Ok_inj in Heq. subst req.
  unfold event_field, slice.
  replace 80%nat with (8 + (4 + (4 + (20 + (20 + (8 + (8 + (8 + 0))))))))%nat
    by done.
  rewrite (drop_add_app 8) by apply length_be_bytes.
  rewrite (drop_add_app 4) by apply length_be_bytes.
  rewrite (drop_add_app 4) by apply length_be_bytes.
  rewrite (drop_add_app 20) by apply length_pack_20s.
  rewrite (drop_add_app 20) by apply length_pack_20s.
  rewrite (drop_add_app 8) by apply length_be_bytes.
  rewrite (drop_add_app 8) by apply length_be_bytes.
  rewrite (drop_add_app 8) by apply length_be_bytes.
  reflexivity.
Qed.

Lemma announce_request_events (fuel : nat) (connection_id : Z)
    (info_hash : bytes) (total_length : Z) (net : nat → announce_attempt)
    (n : nat) (count : Z) (g : swarm) :
  Forall (fun a => event_field a = 2)
    (a_sent (_make_announce_request fuel connection_id info_hash total_length
               net n count g)).
Proof.
  revert n count. induction fuel as [|fuel IH]; intros n count; simpl; [done|].
  destruct (announce_req _ _ _ _ _ _) as [req|x] eqn:Hreq; [|done].
  apply announce_req_event in Hreq.
  assert (Forall (fun a => event_field a = 2)
            (a_sent (if decide (count = MAX_TRY)
                     then mkAnnounced (Raise TimeoutError) [] g
                     else _make_announce_request fuel connection_id info_hash
                            total_length net (S n) (count + 1) g))) as Hretry.
  { case_decide; [done|apply IH]. }
  destruct (a_send (net n)); try done.
  destruct (a_recv (net n)) as [resp| |]; simpl.
  - destruct (decide (len _ < 20)); [simpl; by repeat constructor|].
    destruct (unpack_LLLLL _) as [[[[[? ?] ?] ?] ?]|?];
      [|simpl; by repeat constructor].
    destruct (decide (1 ≠ _)); [simpl; by repeat constructor|].
    destruct (decide (a_transaction_id _ ≠ _)); simpl; by repeat constructor.
  - by constructor.
  - by repeat constructor.
Qed.

Local Opaque recursion_limit.

Lemma get_peers_list_events (trackers : list Tracker) (idx : nat)
    (info_hash : bytes) (total_length : Z) (eff : Effects) :
  Forall (fun a => event_field a = 2) (announces eff) →
  Forall (fun a => event_field a = 2)
    (announces (get_peers_list trackers idx info_hash total_length eff).1).
Proof.
  revert idx eff. induction trackers as [|t rest IH]; intros idx eff Heff;
    simpl; [done|].
  destruct (_make_connection_request _ _ _ _) as [cid|[]]; simpl;
    try done; try (by apply IH).
  pose proof (announce_request_events recursion_limit cid info_hash
                total_length (on_announce t) 0 1 (globals eff)) as Hsent.
  destruct (a_result _) as [peers|[]]; simpl;
    try (apply IH; simpl); by apply Forall_app.
Qed.

Lemma populate_peers_events (cycles : list (list Tracker)) (info_hash : bytes)
    (total_length : Z) (eff : Effects) :
  Forall (fun a => event_field a = 2) (announces eff) →
  Forall (fun a => event_field a = 2)
    (announces (populate_peers cycles info_hash total_length eff).1).
Proof.
  revert eff. induction cycles as [|trackers cycles IH]; intros eff Heff;
    simpl; [done|].
  pose proof (get_peers_list_events trackers 0 info_hash total_length
                (mkEffects [] (announces eff) (peer_list eff) (globals eff))
                Heff) as Hg.
  destruct (get_peers_list _ _ _ _ _) as [eff' [[]|x]]; simpl in *; [|done].
  destruct (globals eff'); [by apply IH|done].
Qed.

Local Transparent recursion_limit.

(** C9, as the code has it: every announce datagram that the refresh loop
    sends, in the first cycle and in any later one, carries [event = 2]
    (started); no other value of the field is ever sent. *)
Theorem announce_event_always_started (cycles : list (list Tracker))
    (info_hash : bytes) (total_length : Z) :
  Forall (fun a => event_field a = 2)
    (announces (populate_peers cycles info_hash total_length no_effects).1).
Proof. by apply populate_peers_events. Qed.

(** C9 as stated fails: with a healthy tracker and two refresh cycles, two
    announces are sent and the second one does not carry [event = 0]. *)
Lemma second_announce_not_none :
  ∃ a1 a2,
    announces (populate_peers [[healthy]; [healthy]] sample_info_hash 40000
                 no_effects).1 = [a1; a2]
    ∧ event_field a1 = 2 ∧ event_field a2 ≠ 0.
Proof. eexists _, _. split; [vm_compute; reflexivity|]. by vm_compute. Qed.

(** C8: a connect reply that is too short, or that carries a wrong
    transaction id or a wrong action, or that is longer than 16 bytes, ends
    [get_peers_list] in [sys.exit(1)] with the next tracker never contacted;
    so do a DNS failure during the announce and an announce reply whose peer
    list is cut short. *)
Theorem invalid_connect_reply_exits :
  Forall (fun t =>
            (get_peers_list [t; healthy] 0 sample_info_hash 40000 no_effects).2
            = Raise SystemExit
            ∧ contacted
                (get_peers_list [t; healthy] 0 sample_info_hash 40000
                   no_effects).1 = [0%nat]
            ∧ peer_list
                (get_peers_list [t; healthy] 0 sample_info_hash 40000
                   no_effects).1 = [])
    [short_connect; wrong_txn_connect; wrong_action_connect; long_connect;
     unresolvable_announce; ragged_announce].
Proof. repeat constructor. Qed.

(** The failures that are caught: a connect timeout, a DNS failure at
    connect, an invalid announce reply.  The loop reaches the healthy
    tracker, whose peers are published. *)
Example caught_failures_continue :
  ∃ eff,
    get_peers_list [silent_connect; unresolvable; wrong_txn_announce; healthy]
      0 sample_info_hash 40000 no_effects = (eff, Ok ())
    ∧ contacted eff = [0; 1; 2; 3]%nat
    ∧ peer_list eff = [[([x0a; x00; x00; x01], 6881)]]
    ∧ globals eff = Some (1800, 5, 3).
Proof. eexists. split; [vm_compute; reflexivity|]. done. Qed.

End tracker.

(* --------------------------------------------------------------------- *)
(** ** The piece ledger                                                   *)
(* --------------------------------------------------------------------- *)

Section ledger.
Import JsonData Download Samples.

(** *** The guarded blocks, one by one *)

Lemma discard_claim_verified (i : nat) (rd : ResumeData) :
  verified_pieces (discard_claim i rd) = verified_pieces rd
  ∧ downloaded (discard_claim i rd) = downloaded rd
  ∧ claimed_pieces (discard_claim i rd) = claimed_pieces rd ∖ {[i]}.
Proof. done. Qed.

Lemma release_claims_spec (l : list nat) (rd : ResumeData) :
  verified_pieces (release_claims l rd) = verified_pieces rd
  ∧ downloaded (release_claims l rd) = downloaded rd
  ∧ claimed_pieces (release_claims l rd) ⊆ claimed_pieces rd
  ∧ ∀ i, i ∈ l → i ∉ claimed_pieces (release_claims l rd).
Proof.
  revert rd. induction l as [|i l IH]; intros rd; simpl.
  - repeat split; set_solver.
  - destruct (IH (discard_claim i rd)) as (Hv & Hd & Hc & Hr).
    rewrite Hv, Hd. repeat split; try done.
    + simpl in Hc. set_solver.
    + intros j [->|Hj]%elem_of_cons; [|by apply Hr].
      intros Hin. apply Hc in Hin. simpl in Hin. set_solver.
Qed.

Lemma claim_batch_spec (avail : list nat) (rd : ResumeData) (claimed : list nat) :
  let '(rd', claimed', e) := claim_batch avail rd claimed in
  verified_pieces rd' = verified_pieces rd
  ∧ downloaded rd' = downloaded rd
  ∧ claimed_pieces rd ⊆ claimed_pieces rd'
  ∧ (∀ i, i ∈ claimed_pieces rd' → i ∉ claimed_pieces rd →
          verified_pieces rd !! i = Some false ∧ i ∈ claimed')
  ∧ (∀ i, i ∈ claimed' → i ∈ claimed ∨ (i ∈ claimed_pieces rd' ∧ i ∉ claimed_pieces rd))
  ∧ (∀ i, i ∈ claimed → i ∈ claimed').
Proof.
  revert rd claimed. induction avail as [|p avail IH]; intros rd claimed; simpl.
  { split_and!; set_solver. }
  case_decide; [split_and!; set_solver|].
  destruct (verified_pieces rd !! p) as [v|] eqn:Hv; [|split_and!; set_solver].
  destruct (negb v && bool_decide (p ∉ claimed_pieces rd)) eqn:Hc.
  - apply andb_prop in Hc as [Hn Hp]. apply negb_true_iff in Hn. subst v.
    apply bool_decide_eq_true in Hp.
    specialize (IH (set_claimed rd ({[p]} ∪ claimed_pieces rd)) (claimed ++ [p])).
    destruct (claim_batch avail _ _) as [[rd' claimed'] e]. simpl in IH.
    destruct IH as (Hv' & Hd' & Hsub & Hnew & Hloc & Hkeep).
    split_and!; try done.
    + set_solver.
    + intros i Hi Hni. destruct (decide (i = p)) as [->|Hne].
      * split; [done|]. apply Hkeep. set_solver.
      * apply Hnew; [done|]. set_solver.
    + intros i Hi. destruct (Hloc i Hi) as [Hin|[Hin Hnin]].
      * apply elem_of_app in Hin as [Hin|Hin]; [by left|].
        apply list_elem_of_singleton in Hin as ->. right. split; [|done].
        apply Hsub. set_solver.
      * right. split; [done|]. set_solver.
    + intros i Hi. apply Hkeep. set_solver.
  - apply IH.
Qed.

Lemma popcount_cons (b : bool) (l : list bool) :
  popcount (b :: l) = (if b then 1 else 0) + popcount l.
Proof.
  unfold popcount, len. destruct b.
  - rewrite filter_cons_True by done. simpl length. lia.
  - rewrite filter_cons_False by done. lia.
Qed.

Lemma popcount_insert (l : list bool) (i : nat) :
  l !! i = Some false → popcount (<[i := true]> l) = popcount l + 1.
Proof.
  revert i. induction l as [|b l IH]; intros [|i]; simpl; try done.
  - intros [= ->]. rewrite !popcount_cons. lia.
  - intros Hi. rewrite !popcount_cons, IH by done. lia.
Qed.

Lemma popcount_insert_again (l : list bool) (i : nat) :
  l !! i = Some true → popcount (<[i := true]> l) = popcount l.
Proof. intros Hi. by rewrite list_insert_id. Qed.

(** A commit of a piece that was not verified keeps the counter exact. *)
Lemma commit_piece_count (i : nat) (rd rd' : ResumeData) :
  commit_piece i rd = Ok rd' →
  verified_pieces rd !! i = Some false →
  count_exact rd → count_exact rd'.
Proof.
  unfold commit_piece, count_exact. case_decide; [|done].
  intros [= <-] Hi Hc. simpl. rewrite popcount_insert by done. lia.
Qed.

(** A commit of a piece that is verified already breaks it. *)
Lemma commit_piece_twice (i : nat) (rd rd' : ResumeData) :
  commit_piece i rd = Ok rd' →
  verified_pieces rd !! i = Some true →
  count_exact rd → ¬ count_exact rd'.
Proof.
  unfold commit_piece, count_exact. case_decide; [|done].
  intros [= <-] Hi Hc. simpl. rewrite popcount_insert_again by done. lia.
Qed.

Lemma commit_piece_claims (i : nat) (rd rd' : ResumeData) :
  commit_piece i rd = Ok rd' →
  claims_unverified rd → claims_unverified rd'.
Proof.
  unfold commit_piece, claims_unverified. case_decide; [|done].
  intros [= <-] Hc j Hj. simpl in *.
  apply elem_of_difference in Hj as [Hj Hne].
  rewrite list_lookup_insert_ne by set_solver. by apply Hc.
Qed.

(** *** The first half of the invariant holds in every interleaving *)

Lemma claims_unverified_weaken (rd rd' : ResumeData) :
  verified_pieces rd' = verified_pieces rd →
  claimed_pieces rd' ⊆ claimed_pieces rd →
  claims_unverified rd → claims_unverified rd'.
Proof. unfold claims_unverified. intros -> Hs H i Hi. apply H. set_solver. Qed.

Lemma on_error_claims (sh : Shared) (s : Session) (sent' : list bytes) :
  claims_unverified (resume_data sh) →
  claims_unverified (resume_data (on_error sh s sent').1).
Proof.
  intros H. simpl.
  destruct (release_claims_spec (claimed s) (resume_data sh)) as (Hv & _ & Hc & _).
  by eapply claims_unverified_weaken.
Qed.

Lemma session_step_claims (td : Details.TorrentDetails) (sh : Shared)
    (s : Session) :
  claims_unverified (resume_data sh) →
  claims_unverified (resume_data (session_step td sh s).1).
Proof.
  intros H. unfold session_step. destruct (at_phase s) as [|[|i todo]| |]; try done.
  - pose proof (claim_batch_spec (pieces_available_from_peer s) (resume_data sh) [])
      as Hspec.
    destruct (claim_batch _ _ _) as [[rd' claimed'] e].
    destruct Hspec as (Hv & _ & _ & Hnew & _).
    assert (claims_unverified rd') as H'.
    { intros j Hj. rewrite Hv.
      destruct (decide (j ∈ claimed_pieces (resume_data sh))) as [Hold|Hnw].
      - by apply H.
      - destruct (Hnew j Hj Hnw) as [-> _]. done. }
    destruct e; [by apply on_error_claims|done].
  - destruct (fetch_piece td i (reader s)) as [[pd rest|x|] sent'].
    + destruct (Details.hash_of_pieces td !! i) as [h|]; [|by apply on_error_claims].
      destruct (negb _).
      * simpl. eapply claims_unverified_weaken; [..|exact H]; [done|set_solver].
      * destruct (save_raises sh (save_calls sh)); [by apply on_error_claims|].
        destruct (commit_piece i _) as [rd'|x] eqn:Hc.
        -- simpl. by eapply commit_piece_claims.
        -- by apply on_error_claims.
    + by apply on_error_claims.
    + done.
Qed.

Lemma world_step_claims (td : Details.TorrentDetails) (w : World) (k : nat) :
  claims_unverified (resume_data (shared w)) →
  claims_unverified (resume_data (shared (world_step td w k))).
Proof.
  intros H. unfold world_step. destruct (sessions w !! k) as [s|]; [|done].
  pose proof (session_step_claims td (shared w) s H) as H'.
  by destruct (session_step td (shared w) s).
Qed.

(** No claimed piece is verified, whatever the sessions and the schedule. *)
Lemma run_claims (td : Details.TorrentDetails) (w : World) (schedule : list nat) :
  claims_unverified (resume_data (shared w)) →
  claims_unverified (resume_data (shared (run td w schedule))).
Proof.
  revert w. induction schedule as [|k schedule IH]; intros w H; [done|].
  simpl. apply IH. by apply world_step_claims.
Qed.

Lemma fresh_invariant (ih : string) (pl n : Z) (fs : list Z) (mt : Z) (la : string) :
  claims_unverified (fresh ih pl n fs mt la) ∧ count_exact (fresh ih pl n fs mt la).
Proof.
  split.
  - intros i Hi. simpl in Hi. set_solver.
  - unfold count_exact, fresh. simpl.
    induction (Z.to_nat n) as [|m IH]; [done|].
    simpl replicate. rewrite popcount_cons. lia.
Qed.

(** *** Both halves hold while one session runs at a time *)

Lemma claim_batch_owned (avail : list nat) (rd : ResumeData) (claimed : list nat) :
  NoDup claimed → (∀ i, i ∈ claimed → i ∈ claimed_pieces rd) →
  let '(rd', claimed', e) := claim_batch avail rd claimed in
  NoDup claimed' ∧ ∀ i, i ∈ claimed' → i ∈ claimed_pieces rd'.
Proof.
  revert rd claimed. induction avail as [|p avail IH]; intros rd claimed Hnd Hin;
    simpl; [done|].
  case_decide; [done|].
  destruct (verified_pieces rd !! p) as [v|]; [|done].
  destruct (negb v && bool_decide (p ∉ claimed_pieces rd)) eqn:Hc; [|by apply IH].
  apply andb_prop in Hc as [_ Hp]. apply bool_decide_eq_true in Hp.
  apply IH.
  - apply NoDup_app. split_and!; [done| |apply NoDup_singleton].
    intros i Hi ->%list_elem_of_singleton. apply Hp. by apply Hin.
  - intros i [Hi| ->%list_elem_of_singleton]%elem_of_app; simpl; [|set_solver].
    apply Hin in Hi. set_solver.
Qed.

Lemma on_error_count (sh : Shared) (s : Session) (sent' : list bytes) :
  count_exact (resume_data sh) →
  count_exact (resume_data (on_error sh s sent').1).
Proof.
  unfold count_exact. simpl.
  destruct (release_claims_spec (claimed s) (resume_data sh)) as (-> & -> & _).
  done.
Qed.

Lemma owns_batch_tail (rd rd' : ResumeData) (s : Session) (i : nat)
    (todo : list nat) (r : Reader) (sent' : list bytes) :
  NoDup (i :: todo) → (∀ k, k ∈ i :: todo → k ∈ claimed_pieces rd) →
  claimed_pieces rd' = claimed_pieces rd ∖ {[i]} →
  owns_batch rd'
    (mkSession (pieces_available_from_peer s) r (claimed s) (after_piece todo)
       sent').
Proof.
  intros [Hni Hnd]%NoDup_cons Hin Hc. unfold owns_batch. simpl.
  destruct todo as [|k todo]; [done|]. simpl. split; [done|].
  intros m Hm. rewrite Hc. apply elem_of_difference. split.
  - apply Hin. by right.
  - intros ->%elem_of_singleton. done.
Qed.

(** A step of the only running session keeps the whole invariant. *)
Lemma session_step_alone (td : Details.TorrentDetails) (sh : Shared)
    (s : Session) :
  claims_unverified (resume_data sh) → count_exact (resume_data sh) →
  owns_batch (resume_data sh) s →
  count_exact (resume_data (session_step td sh s).1)
  ∧ owns_batch (resume_data (session_step td sh s).1) (session_step td sh s).2.
Proof.
  intros Hcl Hct Hown. unfold session_step, owns_batch in *.
  destruct (at_phase s) as [|[|i todo]| |] eqn:Hph;
    try (simpl; rewrite ?Hph; done).
  - pose proof (claim_batch_spec (pieces_available_from_peer s) (resume_data sh) [])
      as Hspec.
    pose proof (claim_batch_owned (pieces_available_from_peer s) (resume_data sh) []
                  NoDup_nil_2) as Hbatch.
    destruct (claim_batch _ _ _) as [[rd' claimed'] e].
    destruct Hspec as (Hv & Hd & _).
    destruct Hbatch as [Hnd Hin]; [set_solver|].
    assert (count_exact rd') as Hct' by (unfold count_exact; by rewrite Hv, Hd).
    destruct e.
    + split; [by apply on_error_count|done].
    + split; [done|]. simpl. by destruct claimed'.
  - destruct Hown as [Hnd Hin].
    destruct (fetch_piece td i (reader s)) as [[pd rest|x|] sent'].
    + destruct (Details.hash_of_pieces td !! i) as [h|];
        [|split; [by apply on_error_count|done]].
      destruct (negb _).
      * split; [done|]. by eapply owns_batch_tail.
      * destruct (save_raises sh (save_calls sh));
          [split; [by apply on_error_count|done]|].
        destruct (commit_piece i _) as [rd'|x] eqn:Hc;
          [|split; [by apply on_error_count|done]].
        split.
        -- eapply commit_piece_count; [exact Hc| |done].
           unfold commit_piece in Hc. case_decide; [|done].
           destruct (lookup_lt_is_Some_2 _ _ H) as [[] Hb]; [|done].
           exfalso. eapply Hcl; [|exact Hb]. apply Hin. by left.
        -- eapply owns_batch_tail; [done..|].
           unfold commit_piece in Hc. case_decide; [|done]. by injection Hc as <-.
    + split; [by apply on_error_count|done].
    + done.
Qed.

Lemma world_step_single (td : Details.TorrentDetails) (sh : Shared)
    (s : Session) (k : nat) :
  world_step td (mkWorld sh [s]) k
  = match k with
    | O => mkWorld (session_step td sh s).1 [(session_step td sh s).2]
    | S _ => mkWorld sh [s]
    end.
Proof.
  destruct k; unfold world_step; simpl; [|done].
  by destruct (session_step td sh s).
Qed.

(** With a single session, every state reached from a ledger that satisfies
    the invariant satisfies it: no claimed piece is verified and
    [downloaded] is the number of verified pieces. *)
Lemma run_alone (td : Details.TorrentDetails) (sh : Shared) (s : Session)
    (schedule : list nat) :
  claims_unverified (resume_data sh) → count_exact (resume_data sh) →
  owns_batch (resume_data sh) s →
  let w := run td (mkWorld sh [s]) schedule in
  claims_unverified (resume_data (shared w)) ∧ count_exact (resume_data (shared w)).
Proof.
  intros Hcl Hct Hown. cbv zeta.
  assert (∃ s', sessions (run td (mkWorld sh [s]) schedule) = [s']
                ∧ count_exact (resume_data (shared (run td (mkWorld sh [s]) schedule)))
                ∧ claims_unverified (resume_data (shared (run td (mkWorld sh [s]) schedule)))
                ∧ owns_batch (resume_data (shared (run td (mkWorld sh [s]) schedule))) s')
    as (s' & _ & ? & ? & _); [|done].
  revert sh s Hcl Hct Hown.
  induction schedule as [|k schedule IH]; intros sh s Hcl Hct Hown.
  { by exists s. }
  simpl. rewrite world_step_single. destruct k as [|k]; [|by apply IH].
  pose proof (session_step_alone td sh s Hcl Hct Hown) as [Hct' Hown'].
  pose proof (session_step_claims td sh s Hcl) as Hcl'.
  by apply IH.
Qed.

(** *** The counter in an interleaving of three sessions *)

(** C1: on the torrent of eight pieces, the handle stage starts three
    sessions, for the pieces [1; 0] (from the bitfield [11000000]), [1] and
    [1] (from a [have]).  Starting from a fresh ledger, the schedule
    [racing_schedule] ends with [downloaded = 2] while one piece is
    verified.  Session 0 gives up its claim on piece 1 after the hash
    mismatch, session 1 claims that piece, and the [except] block of
    session 0 then discards every index of its batch, the claim of session 1
    included; session 2 claims the piece a second time and both commits
    count. *)
Theorem ledger_double_count :
  let rd0 := resume_data (shared three_sessions) in
  let rd := resume_data
              (shared (run eight_piece_torrent three_sessions racing_schedule)) in
  (pieces_available_from_peer <$> sessions three_sessions)
  = [[1; 0]; [1]; [1]]%nat
  ∧ claims_unverified rd0 ∧ count_exact rd0
  ∧ verified_pieces rd
    = [false; true; false; false; false; false; false; false]
  ∧ downloaded rd = 2
  ∧ popcount (verified_pieces rd) = 1
  ∧ claims_unverified rd ∧ ¬ count_exact rd.
Proof.
  cbv zeta.
  assert (verified_pieces
            (resume_data
               (shared (run eight_piece_torrent three_sessions racing_schedule)))
          = [false; true; false; false; false; false; false; false]) as Hv
    by (vm_compute; reflexivity).
  assert (downloaded
            (resume_data
               (shared (run eight_piece_torrent three_sessions racing_schedule)))
          = 2) as Hd by (vm_compute; reflexivity).
  split_and!.
  - vm_compute. reflexivity.
  - apply fresh_invariant.
  - apply fresh_invariant.
  - exact Hv.
  - exact Hd.
  - rewrite Hv. reflexivity.
  - apply run_claims. apply fresh_invariant.
  - unfold count_exact. rewrite Hv, Hd. discriminate.
Qed.

(** The three sessions are what [handle_worker] makes of the peers'
    first messages: the bitfield path enqueues at once, the [have] path
    after the unchoke. *)
Example three_sessions_enqueued :
  (fun r => fst <$> enqueued (handle_peer eight_pieces r))
    <$> [corrupt_peer; honest_peer; honest_peer]
  = [Some [1; 0]; Some [1]; Some [1]]%nat
  ∧ length (sessions three_sessions) = 3%nat.
Proof. split; vm_compute; reflexivity. Qed.

(** After the third step of that schedule piece 1 is claimed by session 1
    and still listed in the batch of session 0. *)
Example claim_held_by_two :
  let w := run eight_piece_torrent three_sessions [0; 0; 1]%nat in
  elements (claimed_pieces (resume_data (shared w))) = [1; 0]%nat
  ∧ (claimed <$> sessions w) = [[1; 0]; [1]; []]%nat
  ∧ (at_phase <$> sessions w) = [Fetching [0]; Fetching [1]; Claiming]%nat.
Proof. cbv zeta. split_and!; vm_compute; reflexivity. Qed.

End ledger.

(* --------------------------------------------------------------------- *)
(** ** Fetching pieces                                                    *)
(* --------------------------------------------------------------------- *)

Section fetching.
Import JsonData Download Samples.

(** *** What is requested and what is hashed, for any piece *)

Lemma slice_assign_length (piece_data : bytes) (begin : nat) (r_block : bytes) :
  (begin ≤ length piece_data)%nat →
  (length piece_data ≤ length (slice_assign piece_data begin r_block))%nat.
Proof.
  intros H. unfold slice_assign.
  rewrite !length_app, length_take, length_drop. lia.
Qed.

Lemma recv_block_length (e : stream_end) (piece_index begin : Z)
    (piece_data : bytes) (inc : list bytes) (piece_data' : bytes)
    (rest : list bytes) :
  recv_block e piece_index begin piece_data inc = Fetched piece_data' rest →
  (Z.to_nat begin ≤ length piece_data)%nat →
  (length piece_data ≤ length piece_data')%nat.
Proof.
  intros Hr Hb. induction inc as [|msg inc IH]; simpl in Hr.
  - by destruct e.
  - destruct (BuildMessages.parse_message msg) as [parsed|?]; [|done].
    destruct (VerifyMessages.is_piece parsed); [|by apply IH].
    destruct (unpack_II _) as [[r_index r_begin]|?]; [|done].
    destruct (_ && _); [|by apply IH].
    injection Hr as <- _. by apply slice_assign_length.
Qed.

Lemma fetch_blocks_fetched (e : stream_end) (piece_length : Z)
    (piece_index : nat) (block_nums : list nat) (piece_data : bytes)
    (inc sent0 : list bytes) (piece_data' : bytes) (rest sent' : list bytes) :
  fetch_blocks e piece_length piece_index block_nums piece_data inc sent0
  = (Fetched piece_data' rest, sent') →
  Forall (fun n => Z.of_nat n * BLOCK_SIZE ≤ piece_length) block_nums →
  piece_length ≤ len piece_data →
  piece_length ≤ len piece_data'
  ∧ sent' = sent0 ++ (request_for piece_length piece_index <$> block_nums).
Proof.
  revert piece_data inc sent0.
  induction block_nums as [|n nums IH]; intros pd inc sent0 Hf Hall Hlen.
  - simpl in Hf. injection Hf as <- _ <-. by rewrite app_nil_r.
  - cbn [fetch_blocks] in Hf. apply Forall_cons in Hall as [Hn Hall].
    unfold BuildMessages.build_request in Hf.
    case_decide; [|done].
    destruct (recv_block _ _ _ _ _) as [pd1 rest1|?|] eqn:Hr; try done.
    apply recv_block_length in Hr; [|unfold len in Hlen; lia].
    apply IH in Hf as [Hl ->]; [|done|unfold len in *; lia].
    split; [done|]. by rewrite <- app_assoc.
Qed.

(** Whatever the piece, the requests cover [piece_length] bytes and the
    buffer that is hashed has at least [piece_length] bytes. *)
Lemma fetch_piece_whole_length (td : Details.TorrentDetails) (piece_index : nat)
    (r : Reader) (piece_data : bytes) (rest sent' : list bytes) :
  fetch_piece td piece_index r = (Fetched piece_data rest, sent') →
  Details.piece_length td ≤ len piece_data
  ∧ sent' = (request_for (Details.piece_length td) piece_index
               <$> seq 0 (Z.to_nat ((Details.piece_length td + BLOCK_SIZE - 1)
                                      `div` BLOCK_SIZE))).
Proof.
  unfold fetch_piece. case_decide; [done|]. intros Hf.
  apply fetch_blocks_fetched in Hf; [done| |].
  - apply Forall_forall. intros n Hn%elem_of_seq.
    assert (BLOCK_SIZE = 16384) as HB by done. rewrite HB in *.
    pose proof (Z.mul_div_le (Details.piece_length td + 16384 - 1) 16384).
    assert (0 ≤ (Details.piece_length td + 16384 - 1) `div` 16384)
      by (apply Z.div_pos; lia).
    nia.
  - unfold len. rewrite length_replicate. lia.
Qed.

(** C5: in the first end-to-end scenario (piece length 16384, length 40000)
    the last piece has 7232 bytes.  The session asks for one block of 16384
    bytes at offset 0 of piece 2, the buffer it checks is the 7232 bytes
    received followed by 9152 zero bytes, and the check against the hash of
    the 7232 bytes fails: the piece is dropped, nothing is saved. *)
Theorem last_piece_fetched_at_full_length :
  Details.total_length s1_details
    - (Details.num_of_pieces s1_details - 1) * Details.piece_length s1_details
  = 7232
  ∧ len s1_last_piece = 7232
  ∧ Details.hash_of_pieces s1_details !! 2%nat = Some (Hashlib.sha1 s1_last_piece)
  ∧ BuildMessages.build_request 2 0 16384
    = Ok (BuildMessages.request_message 2 0 16384)
  ∧ fetch_piece s1_details 2 s1_peer
    = (Fetched (s1_last_piece ++ replicate (Z.to_nat 9152) x00) [],
       [BuildMessages.request_message 2 0 16384])
  ∧ len (s1_last_piece ++ replicate (Z.to_nat 9152) x00) = 16384
  ∧ Handlers.verify_piece_hash
      (s1_last_piece ++ replicate (Z.to_nat 9152) x00)
      (Hashlib.sha1 s1_last_piece) = false
  ∧ (let w := run s1_details s1_world [0; 0]%nat in
     verified_pieces (resume_data (shared w)) = [false; false; false]
     ∧ saved (shared w) = []
     ∧ (sent <$> sessions w) = [[BuildMessages.request_message 2 0 16384]]).
Proof.
  cbv zeta. split_and!; vm_compute; reflexivity.
Qed.

(** *** The hash check before a commit *)

Lemma on_error_ledger (sh : Shared) (s : Session) (sent' : list bytes) :
  verified_pieces (resume_data (on_error sh s sent').1)
  = verified_pieces (resume_data sh)
  ∧ downloaded (resume_data (on_error sh s sent').1) = downloaded (resume_data sh)
  ∧ saved (on_error sh s sent').1 = saved sh.
Proof.
  simpl. destruct (release_claims_spec (claimed s) (resume_data sh))
    as (Hv & Hd & _). done.
Qed.

Lemma verify_piece_hash_true (piece_data piece_hash : bytes) :
  Handlers.verify_piece_hash piece_data piece_hash = true
  ↔ Hashlib.sha1 piece_data = piece_hash.
Proof. unfold Handlers.verify_piece_hash. apply bool_decide_eq_true. Qed.

(** A step of a session that turns a bit of [verified_pieces] on is a step
    that fetched that piece, found its digest equal to the expected one and
    saved it. *)
Lemma verified_only_after_check (td : Details.TorrentDetails) (sh : Shared)
    (s : Session) (j : nat) :
  verified_pieces (resume_data sh) !! j ≠ Some true →
  verified_pieces (resume_data (session_step td sh s).1) !! j = Some true →
  ∃ todo piece_data rest sent',
    at_phase s = Fetching (j :: todo)
    ∧ fetch_piece td j (reader s) = (Fetched piece_data rest, sent')
    ∧ Details.hash_of_pieces td !! j = Some (Hashlib.sha1 piece_data)
    ∧ saved (session_step td sh s).1 = saved sh ++ [(j, piece_data)].
Proof.
  intros Hold. unfold session_step.
  destruct (at_phase s) as [|[|i todo]| |] eqn:Hph; try done.
  - pose proof (claim_batch_spec (pieces_available_from_peer s) (resume_data sh) [])
      as Hspec.
    destruct (claim_batch _ _ _) as [[rd' claimed'] e].
    destruct Hspec as (Hv & _).
    destruct e; simpl.
    + destruct (release_claims_spec claimed' rd') as (Hv' & _).
      rewrite Hv', Hv. done.
    + rewrite Hv. done.
  - destruct (fetch_piece td i (reader s)) as [[pd rest|x|] sent'] eqn:Hf.
    + destruct (Details.hash_of_pieces td !! i) as [h|] eqn:Hh.
      2: { destruct (on_error_ledger sh
                       (mkSession (pieces_available_from_peer s)
                          (mkReader rest (ending (reader s))) (claimed s)
                          (after_piece todo) (sent s ++ sent')) [])
             as (Hv & _). rewrite Hv. done. }
      destruct (Handlers.verify_piece_hash pd h) eqn:Hver; simpl.
      * apply verify_piece_hash_true in Hver. subst h.
        destruct (save_raises sh (save_calls sh)); simpl.
        { destruct (release_claims_spec (claimed s) (resume_data sh))
            as (Hv & _). rewrite Hv. done. }
        unfold commit_piece. case_decide; simpl.
        -- intros Hnew. destruct (decide (i = j)) as [->|Hne].
           ++ by exists todo, pd, rest, sent'.
           ++ rewrite list_lookup_insert_ne in Hnew by done. done.
        -- destruct (release_claims_spec (claimed s) (resume_data sh))
             as (Hv & _). rewrite Hv. done.
      * done.
    + destruct (on_error_ledger sh s sent') as (Hv & _). rewrite Hv. done.
    + done.
Qed.

(** What the step does when the digest differs from the expected one. *)
Lemma mismatch_step (td : Details.TorrentDetails) (sh : Shared) (s : Session)
    (j : nat) (todo : list nat) (piece_data : bytes) (rest sent' : list bytes)
    (piece_hash : bytes) :
  at_phase s = Fetching (j :: todo) →
  fetch_piece td j (reader s) = (Fetched piece_data rest, sent') →
  Details.hash_of_pieces td !! j = Some piece_hash →
  Hashlib.sha1 piece_data ≠ piece_hash →
  session_step td sh s
  = (set_resume_data sh (discard_claim j (resume_data sh)),
     mkSession (pieces_available_from_peer s)
       (mkReader rest (ending (reader s))) (claimed s) (after_piece todo)
       (sent s ++ sent')).
Proof.
  intros Hph Hf Hh Hne. unfold session_step. rewrite Hph, Hf, Hh.
  assert (Handlers.verify_piece_hash piece_data piece_hash = false) as ->; [|done].
  apply not_true_is_false. by rewrite verify_piece_hash_true.
Qed.

(** An unverified, unclaimed piece is claimed by the next session whose peer
    has it. *)
Lemma claim_batch_single (j : nat) (rd : ResumeData) :
  verified_pieces rd !! j = Some false →
  j ∉ claimed_pieces rd →
  claim_batch [j] rd [] = (set_claimed rd ({[j]} ∪ claimed_pieces rd), [j], None).
Proof.
  intros Hv Hc. simpl.
  rewrite Hv. simpl. by rewrite bool_decide_eq_true_2.
Qed.

(** C2: a step of a session turns [verified_pieces[j]] on only if the piece
    it fetched has the expected SHA-1 digest, and these are the bytes it
    saved.  When the digest differs from the expected one, the step removes
    [j] from the claimed set and leaves [verified_pieces], [downloaded] and
    the disk as they were; the session goes on, and if [j] was not verified
    a session whose peer has [j] claims it. *)
Theorem integrity_gate (td : Details.TorrentDetails) (sh : Shared)
    (s : Session) (j : nat) :
  (verified_pieces (resume_data sh) !! j ≠ Some true →
   verified_pieces (resume_data (session_step td sh s).1) !! j = Some true →
   ∃ todo piece_data rest sent',
     at_phase s = Fetching (j :: todo)
     ∧ fetch_piece td j (reader s) = (Fetched piece_data rest, sent')
     ∧ Details.hash_of_pieces td !! j = Some (Hashlib.sha1 piece_data)
     ∧ saved (session_step td sh s).1 = saved sh ++ [(j, piece_data)])
  ∧ (∀ todo piece_data rest sent' piece_hash,
       at_phase s = Fetching (j :: todo) →
       fetch_piece td j (reader s) = (Fetched piece_data rest, sent') →
       Details.hash_of_pieces td !! j = Some piece_hash →
       Hashlib.sha1 piece_data ≠ piece_hash →
       let rd' := resume_data (session_step td sh s).1 in
       (j ∉ claimed_pieces rd')
       ∧ verified_pieces rd' = verified_pieces (resume_data sh)
       ∧ downloaded rd' = downloaded (resume_data sh)
       ∧ saved (session_step td sh s).1 = saved sh
       ∧ at_phase (session_step td sh s).2 = after_piece todo
       ∧ (verified_pieces (resume_data sh) !! j = Some false →
          claim_batch [j] rd' []
          = (set_claimed rd' ({[j]} ∪ claimed_pieces rd'), [j], None))).
Proof.
  split; [apply verified_only_after_check|].
  intros todo piece_data rest sent' piece_hash Hph Hf Hh Hne.
  rewrite (mismatch_step td sh s j todo piece_data rest sent' piece_hash)
    by done.
  cbn [fst snd set_resume_data resume_data saved at_phase].
  split_and!; try done.
  - simpl. set_solver.
  - intros Hv. apply claim_batch_single; [done|]. simpl. set_solver.
Qed.

(** The theorem at work: session 0 of [three_sessions] has claimed pieces 1
    and 0 and receives wrong bytes for piece 1. *)
Lemma integrity_gate_witness :
  ∃ sh s s1 s2,
    run eight_piece_torrent three_sessions [0%nat] = mkWorld sh [s; s1; s2]
    ∧ (1%nat ∉ claimed_pieces
                 (resume_data (session_step eight_piece_torrent sh s).1))
    ∧ verified_pieces (resume_data (session_step eight_piece_torrent sh s).1)
      = replicate 8 false
    ∧ downloaded (resume_data (session_step eight_piece_torrent sh s).1) = 0
    ∧ saved (session_step eight_piece_torrent sh s).1 = []
    ∧ at_phase (session_step eight_piece_torrent sh s).2 = Fetching [0%nat].
Proof.
  eexists _, _, _, _. split; [vm_compute; reflexivity|].
  match goal with
  | |- context [session_step eight_piece_torrent ?sh ?s] =>
      destruct (integrity_gate eight_piece_torrent sh s 1) as [_ Hgate];
      destruct (Hgate [0%nat] (list_byte_of_string "XXXX") []
                  [BuildMessages.request_message 1 0 4]
                  (Hashlib.sha1 (list_byte_of_string "BBBB")))
        as (Hc & Hv & Hd & Hs & Hp & _);
        [reflexivity | vm_compute; reflexivity | vm_compute; reflexivity
        | vm_compute; discriminate |]
  end.
  split_and!; [exact Hc | exact Hv | exact Hd | exact Hs | exact Hp].
Defined.

(** The two cases on the torrent of eight pieces: wrong bytes for piece 1
    leave the ledger untouched and the piece free; the right bytes are
    saved and counted. *)
Example integrity_gate_mismatch :
  let w := run eight_piece_torrent three_sessions [0; 0]%nat in
  verified_pieces (resume_data (shared w)) = replicate 8 false
  ∧ downloaded (resume_data (shared w)) = 0
  ∧ elements (claimed_pieces (resume_data (shared w))) = [0%nat]
  ∧ saved (shared w) = [].
Proof. cbv zeta. split_and!; vm_compute; reflexivity. Qed.

Example integrity_gate_match :
  let w := run eight_piece_torrent three_sessions [1; 1]%nat in
  verified_pieces (resume_data (shared w))
  = [false; true; false; false; false; false; false; false]
  ∧ downloaded (resume_data (shared w)) = 1
  ∧ elements (claimed_pieces (resume_data (shared w))) = []
  ∧ saved (shared w) = [(1%nat, list_byte_of_string "BBBB")].
Proof. cbv zeta. split_and!; vm_compute; reflexivity. Qed.

(** A save that raises takes the [except] path: nothing is verified or
    counted, and the batch is released. *)
Example save_raises_releases :
  let w := run eight_piece_torrent
             (mkWorld (mkShared eight_pieces [] (fun _ => true) 0)
                (sessions three_sessions)) [1; 1]%nat in
  verified_pieces (resume_data (shared w)) = replicate 8 false
  ∧ downloaded (resume_data (shared w)) = 0
  ∧ elements (claimed_pieces (resume_data (shared w))) = []
  ∧ saved (shared w) = []
  ∧ (at_phase <$> sessions w) = [Claiming; Closed; Claiming].
Proof. cbv zeta. split_and!; vm_compute; reflexivity. Qed.

End fetching.

(* --------------------------------------------------------------------- *)
(** ** Further properties: the wire codec                                 *)
(* --------------------------------------------------------------------- *)

Section codec_more.
Import BuildMessages VerifyMessages.

Lemma byte_val_of_Z (z : Z) : byte_val (byte_of_Z z) = z mod 256.
Proof.
  unfold byte_val, byte_of_Z.
  pose proof (Z.mod_pos_bound z 256 ltac:(lia)) as Hr.
  destruct (Byte.of_N (Z.to_N (z mod 256))) as [b|] eqn:Hb; simpl.
  - apply Byte.to_of_N in Hb. rewrite Hb. lia.
  - apply Byte.of_N_None_iff in Hb. lia.
Qed.

Lemma be_uint_snoc (bs : bytes) (b : byte) :
  be_uint (bs ++ [b]) = be_uint bs * 256 + byte_val b.
Proof. unfold be_uint. by rewrite fold_left_app. Qed.


Lemma be_uint_app (a b : bytes) :
  be_uint (a ++ b) = be_uint a * 256 ^ Z.of_nat (length b) + be_uint b.
Proof.
  induction b as [|x b IH] using rev_ind.
  - rewrite app_nil_r. simpl. unfold be_uint at 3. simpl. lia.
  - rewrite app_assoc, !be_uint_snoc, IH, length_app. simpl length.
    rewrite Nat2Z.inj_add, Z.pow_add_r by lia. lia.
Qed.

Lemma be_uint_be_bytes (n : nat) (z : Z) :
  be_uint (be_bytes n z) = z mod 2 ^ (8 * Z.of_nat n).
Proof.
  induction n as [|n IH].
  - simpl. by rewrite Z.mod_1_r.
  - cbn [be_bytes]. change (?x :: ?l) with ([x] ++ l).
    rewrite be_uint_app, IH, length_be_bytes.
    unfold be_uint at 1. simpl fold_left. rewrite byte_val_of_Z.
    rewrite Z.shiftr_div_pow2 by lia.
    replace (8 * Z.of_nat (S n)) with (8 * Z.of_nat n + 8) by lia.
    rewrite Z.pow_add_r by lia.
    rewrite (Z.rem_mul_r z (2 ^ (8 * Z.of_nat n)) (2 ^ 8)) by lia.
    replace (256 ^ Z.of_nat n) with (2 ^ (8 * Z.of_nat n)).
    2: { rewrite Z.pow_mul_r by lia. done. }
    change (2 ^ 8) with 256. lia.
Qed.

(** A value that fits its field is read back unchanged. *)
Lemma be_uint_be_bytes_fit (n : nat) (z : Z) :
  0 ≤ z < 2 ^ (8 * Z.of_nat n) → be_uint (be_bytes n z) = z.
Proof. intros H. rewrite be_uint_be_bytes. by apply Z.mod_small. Qed.

Lemma be_uint_be_bytes_4 (z : Z) :
  0 ≤ z < 2 ^ 32 → be_uint (be_bytes 4 z) = z.
Proof. intros H. by apply be_uint_be_bytes_fit. Qed.

Lemma be_uint_be_bytes_2 (z : Z) :
  0 ≤ z < 2 ^ 16 → be_uint (be_bytes 2 z) = z.
Proof. intros H. by apply be_uint_be_bytes_fit. Qed.

Lemma length_pack_s (n : nat) (b : bytes) : length (pack_s n b) = n.
Proof.
  unfold pack_s. rewrite length_take, length_app, length_replicate. lia.
Qed.

Lemma pack_s_fit (n : nat) (b : bytes) : pack_s n b = b ↔ length b = n.
Proof.
  split.
  - intros H. rewrite <- H at 1. apply length_pack_s.
  - intros H. unfold pack_s. by apply take_app_length'.
Qed.

(** X1: the handshake that the client builds has 68 bytes, and [is_handshake]
    accepts it for the torrent's own info hash exactly when that hash has 20
    bytes; the 12 random bytes of the peer id play no part. *)
Theorem own_handshake_accepted (details : Details.TorrentDetails)
    (peer_id_random : bytes) :
  length (build_bitTorrent_handshake details peer_id_random) = 68%nat
  ∧ (is_handshake (build_bitTorrent_handshake details peer_id_random)
       (Details.info_hash details) = Ok true
     ↔ length (Details.info_hash details) = 20%nat).
Proof.
  unfold build_bitTorrent_handshake. cbv zeta.
  set (ih := pack_s 20 (Details.info_hash details)).
  set (pid := pack_s 20 (_ ++ peer_id_random)).
  assert (length pid = 20%nat) as Hpid by apply length_pack_s.
  assert (length ih = 20%nat) as Hih by apply length_pack_s.
  change (pack_s 19 (list_byte_of_string "BitTorrent protocol")) with pstr.
  change (byte_of_Z 19) with x13.
  assert (length pstr = 19%nat) as Hp by done.
  split.
  { rewrite !length_app, Hp, Hih, Hpid. done. }
  rewrite is_handshake_true.
  assert (slice 1 20 ([x13] ++ pstr ++ replicate 8 x00 ++ ih ++ pid) = pstr) as ->.
  { unfold slice. rewrite (drop_app_length' [x13]) by done.
    by rewrite take_app_length'. }
  assert (slice 28 48 ([x13] ++ pstr ++ replicate 8 x00 ++ ih ++ pid) = ih) as ->.
  { unfold slice.
    replace 28%nat with (1 + (19 + (8 + 0)))%nat by done.
    rewrite (drop_add_app 1) by done. rewrite (drop_add_app 19) by done.
    rewrite (drop_add_app 8) by done. rewrite drop_0.
    by rewrite take_app_length'. }
  split.
  - intros (_ & _ & _ & H). by apply pack_s_fit.
  - intros H. split_and!; try done.
    + rewrite !length_app, Hp, Hih, Hpid. done.
    + by apply pack_s_fit.
Qed.

(** What [parse_message] makes of a frame: four length bytes, an id byte and
    a payload. *)
Lemma parse_message_frame (len_bytes : bytes) (id : byte) (payload : bytes) :
  length len_bytes = 4%nat →
  parse_message (len_bytes ++ id :: payload)
  = Ok (Details.mkParsedMessage (Some (be_uint len_bytes))
          (Some ((byte_val id + 128) mod 256 - 128))
          (match payload with [] => None | _ => Some payload end)).
Proof.
  intros Hl.
  destruct len_bytes as [|b0 [|b1 [|b2 [|b3 [|? ?]]]]]; try done.
  unfold parse_message. destruct payload as [|p0 payload].
  - reflexivity.
  - repeat case_decide; unfold len in *; simpl length in *; try lia.
    reflexivity.
Qed.

Lemma build_piece_read_back (piece_index begin : Z) (block : bytes) :
  0 ≤ piece_index < 2 ^ 32 → 0 ≤ begin < 2 ^ 32 → 9 + len block < 2 ^ 32 →
  ∃ payload,
    parse_message (piece_message piece_index begin block)
    = Ok (Details.mkParsedMessage (Some (9 + len block)) (Some 7) (Some payload))
    ∧ is_piece (Details.mkParsedMessage (Some (9 + len block)) (Some 7)
                  (Some payload))
      = bool_decide (block ≠ [])
    ∧ unpack_II (slice 0 8 payload) = Ok (piece_index, begin)
    ∧ drop 8 payload = block.
Proof.
  intros Hi Hb Hl. exists (be_bytes 4 piece_index ++ be_bytes 4 begin ++ block).
  assert (piece_message piece_index begin block
          = be_bytes 4 (9 + len block)
              ++ x07 :: (be_bytes 4 piece_index ++ be_bytes 4 begin ++ block))
    as -> by reflexivity.
  split_and!.
  - rewrite parse_message_frame by apply length_be_bytes.
    rewrite be_uint_be_bytes_4 by (unfold len in *; lia).
    reflexivity.
  - unfold is_piece, opt_eqb. cbn [Details.id Details.size Details.payload].
    rewrite bool_decide_eq_true_2 by done.
    rewrite (bool_decide_eq_true_2 (Some _ ≠ None)) by done.
    rewrite andb_true_r. cbn [andb].
    apply bool_decide_ext. unfold len.
    destruct block; simpl length; split; intros H; try done; lia.
  - assert (slice 0 8 ((be_bytes 4 piece_index ++ be_bytes 4 begin) ++ block)
            = be_bytes 4 piece_index ++ be_bytes 4 begin) as Hs.
    { unfold slice. rewrite drop_0.
      apply take_app_length'. by rewrite length_app, !length_be_bytes. }
    rewrite app_assoc, Hs. unfold unpack_II.
    rewrite decide_True by (by rewrite length_app, !length_be_bytes).
    unfold slice. rewrite drop_0.
    rewrite take_app_length' by (by rewrite length_be_bytes).
    rewrite drop_app_length' by (by rewrite length_be_bytes).
    rewrite take_ge by (by rewrite length_be_bytes).
    by rewrite !be_uint_be_bytes_4.
  - rewrite app_assoc. apply drop_app_length'.
    by rewrite length_app, !length_be_bytes.
Qed.

(** X2: with an index and an offset below [2^32] and a block such that
    [9 + len(block) < 2^32], [build_piece] packs without [struct.error]
    and the message is read back by the receiving side: [parse_message]
    gives id 7 and the length that was packed, [is_piece] holds exactly
    when the block is not empty, and the payload splits into the index,
    the offset and the block. *)
Theorem piece_round_trip (piece_index begin : Z) (block : bytes) :
  0 ≤ piece_index < 2 ^ 32 → 0 ≤ begin < 2 ^ 32 → 9 + len block < 2 ^ 32 →
  ∃ msg payload,
    build_piece piece_index begin block = Ok msg
    ∧ parse_message msg
      = Ok (Details.mkParsedMessage (Some (9 + len block)) (Some 7)
              (Some payload))
    ∧ is_piece (Details.mkParsedMessage (Some (9 + len block)) (Some 7)
                  (Some payload))
      = bool_decide (block ≠ [])
    ∧ unpack_II (slice 0 8 payload) = Ok (piece_index, begin)
    ∧ drop 8 payload = block.
Proof.
  intros Hi Hb Hl.
  destruct (build_piece_read_back piece_index begin block Hi Hb Hl)
    as (payload & Hparse & Hpiece & Hhead & Hblock).
  exists (piece_message piece_index begin block), payload.
  split_and!; try done.
  unfold build_piece. cbv zeta. by rewrite decide_True.
Qed.

Lemma piece_round_trip_witness :
  ∃ msg payload,
    build_piece 2 16384 (list_byte_of_string "abc") = Ok msg
    ∧ parse_message msg
      = Ok (Details.mkParsedMessage (Some 12) (Some 7) (Some payload))
    ∧ unpack_II (slice 0 8 payload) = Ok (2, 16384)
    ∧ drop 8 payload = list_byte_of_string "abc".
Proof.
  destruct (piece_round_trip 2 16384 (list_byte_of_string "abc"))
    as (msg & payload & Hm & Hp & _ & Hu & Hd); [done..|].
  exists msg, payload. split_and!; [exact Hm|exact Hp|exact Hu|exact Hd].
Defined.

End codec_more.

(* --------------------------------------------------------------------- *)
(** ** Further properties: fetching a piece                               *)
(* --------------------------------------------------------------------- *)

Section fetching_more.
Import BuildMessages VerifyMessages JsonData Download.

Lemma recv_block_skips (e : stream_end) (piece_index begin : Z)
    (piece_data : bytes) (others : list bytes) (block : bytes)
    (rest : list bytes) :
  0 ≤ piece_index < 2 ^ 32 → 0 ≤ begin < 2 ^ 32 → 9 + len block < 2 ^ 32 →
  block ≠ [] →
  Forall not_a_piece others →
  recv_block e piece_index begin piece_data
    (others ++ piece_message piece_index begin block :: rest)
  = Fetched (slice_assign piece_data (Z.to_nat begin) block) rest.
Proof.
  intros Hi Hb Hl Hne Hothers.
  induction Hothers as [|m others (parsed & Hp & Hnp) _ IH]; simpl.
  - destruct (build_piece_read_back piece_index begin block Hi Hb Hl)
      as (payload & -> & Hpiece & Hu & Hd).
    rewrite Hpiece, bool_decide_eq_true_2 by done.
    cbn [Details.payload]. change (default [] (Some payload)) with payload.
    rewrite Hu, Hd.
    by rewrite !bool_decide_eq_true_2.
  - by rewrite Hp, Hnp.
Qed.

Lemma recv_block_direct (e : stream_end) (piece_index begin : Z)
    (piece_data block : bytes) (rest : list bytes) :
  0 ≤ piece_index < 2 ^ 32 → 0 ≤ begin < 2 ^ 32 → 9 + len block < 2 ^ 32 →
  block ≠ [] →
  recv_block e piece_index begin piece_data
    (piece_message piece_index begin block :: rest)
  = Fetched (slice_assign piece_data (Z.to_nat begin) block) rest.
Proof.
  intros Hi Hb Hl Hne.
  by apply (recv_block_skips e piece_index begin piece_data [] block rest).
Qed.

Lemma slice_assign_next (content : bytes) (k B : nat) :
  (k * B < length content)%nat →
  slice_assign
    (take (k * B) content ++ replicate (length content - k * B) x00)
    (k * B) (take B (drop (k * B) content))
  = take (k * B + B) content
      ++ replicate (length content - (k * B + B)) x00.
Proof.
  intros Hk. unfold slice_assign.
  rewrite take_app_length' by (rewrite length_take; lia).
  rewrite app_assoc, take_take_drop. f_equal.
  rewrite drop_add_app by (rewrite length_take; lia).
  rewrite drop_replicate, length_take, length_drop. f_equal. lia.
Qed.

Lemma fetch_blocks_served (e : stream_end) (piece_length : Z) (piece_index : nat)
    (content : bytes) (rest : list bytes) (m k : nat) (sent0 : list bytes) :
  len content = piece_length → piece_length < 2 ^ 32 →
  Z.of_nat piece_index < 2 ^ 32 →
  (m = 0 ∨ (k + m - 1) * Z.to_nat BLOCK_SIZE < length content)%nat →
  fetch_blocks e piece_length piece_index (seq k m)
    (take (k * Z.to_nat BLOCK_SIZE) content
       ++ replicate (length content - k * Z.to_nat BLOCK_SIZE) x00)
    ((serve piece_index content <$> seq k m) ++ rest) sent0
  = (Fetched
       (take ((k + m) * Z.to_nat BLOCK_SIZE) content
          ++ replicate (length content - (k + m) * Z.to_nat BLOCK_SIZE) x00)
       rest,
     sent0 ++ (request_for piece_length piece_index <$> seq k m)).
Proof.
  intros Hlen Hpl Hidx. revert k sent0.
  assert (Z.of_nat (Z.to_nat BLOCK_SIZE) = 16384) as HB by done.
  assert (BLOCK_SIZE = 16384) as HB' by done.
  change (2 ^ 32) with 4294967296 in *. unfold len in Hlen.
  induction m as [|m IH]; intros k sent0 Hm.
  - simpl. by rewrite Nat.add_0_r, app_nil_r.
  - destruct Hm as [|Hm]; [done|].
    cbn [seq]. rewrite !fmap_cons, <- app_comm_cons. cbn [fetch_blocks].
    unfold build_request. rewrite decide_True by lia.
    unfold serve at 1.
    rewrite recv_block_direct.
    + replace (Z.to_nat (Z.of_nat k * BLOCK_SIZE))
        with (k * Z.to_nat BLOCK_SIZE)%nat by lia.
      unfold block_of. rewrite slice_assign_next by lia.
      replace (k * Z.to_nat BLOCK_SIZE + Z.to_nat BLOCK_SIZE)%nat
        with (S k * Z.to_nat BLOCK_SIZE)%nat by lia.
      rewrite IH by lia.
      replace (S k + m)%nat with (k + S m)%nat by lia.
      f_equal. rewrite <- app_assoc. done.
    + lia.
    + lia.
    + unfold block_of, len. rewrite length_take, length_drop. lia.
    + unfold block_of. intros Hnil. apply (f_equal length) in Hnil.
      rewrite length_take, length_drop in Hnil. cbn [length] in Hnil. lia.
Qed.

Lemma fetch_piece_served (td : Details.TorrentDetails) (piece_index : nat)
    (content : bytes) (rest : list bytes) (e : stream_end) :
  len content = Details.piece_length td →
  0 < Details.piece_length td < 2 ^ 32 →
  Z.of_nat piece_index < 2 ^ 32 →
  let blocks :=
    seq 0 (Z.to_nat ((Details.piece_length td + BLOCK_SIZE - 1) `div` BLOCK_SIZE)) in
  fetch_piece td piece_index
    (mkReader ((serve piece_index content <$> blocks) ++ rest) e)
  = (Fetched content rest,
     request_for (Details.piece_length td) piece_index <$> blocks).
Proof.
  intros Hlen Hpl Hidx blocks. unfold fetch_piece.
  rewrite decide_False by lia. cbn [incoming ending].
  assert (Z.of_nat (Z.to_nat BLOCK_SIZE) = 16384) as HB by done.
  assert (BLOCK_SIZE = 16384) as HB' by done.
  pose proof (Z.mul_div_le (Details.piece_length td + 16384 - 1) 16384 ltac:(lia)).
  pose proof (Z.mul_succ_div_gt (Details.piece_length td + 16384 - 1) 16384 ltac:(lia)).
  assert (0 ≤ (Details.piece_length td + 16384 - 1) `div` 16384)
    by (apply Z.div_pos; lia).
  pose proof (fetch_blocks_served e (Details.piece_length td) piece_index content
                rest (Z.to_nat ((Details.piece_length td + BLOCK_SIZE - 1)
                                  `div` BLOCK_SIZE)) 0 [] Hlen (proj2 Hpl) Hidx)
    as Hf.
  unfold len in Hlen. rewrite HB' in *.
  simpl take in Hf. rewrite Nat.sub_0_r in Hf. simpl app in Hf.
  replace (Z.to_nat (Details.piece_length td)) with (length content) by lia.
  unfold blocks. rewrite HB'. rewrite Hf by (right; lia).
  f_equal. rewrite take_ge by lia.
  replace (length content - _)%nat with 0%nat by lia.
  by rewrite app_nil_r.
Qed.

(** X3: a piece whose bytes a peer serves block by block, in order, is
    reassembled exactly: the session sends one request per block of
    [BLOCK_SIZE] bytes (the last one shorter) and consumes these messages.
    When the digest of the bytes is the expected one, [save_piece_to_disk]
    is called, and what follows depends on that call.  If it returns, the
    piece is recorded as saved, marked verified and counted, and its claim
    is dropped.  If it raises, the [except] block runs: nothing is marked
    or counted, the claims of the batch are released and the session
    ends. *)
Theorem served_piece_committed (td : Details.TorrentDetails) (sh : Shared)
    (s : Session) (piece_index : nat) (todo : list nat) (content : bytes)
    (rest : list bytes) :
  let blocks :=
    seq 0 (Z.to_nat ((Details.piece_length td + BLOCK_SIZE - 1) `div` BLOCK_SIZE)) in
  at_phase s = Fetching (piece_index :: todo) →
  incoming (reader s) = (serve piece_index content <$> blocks) ++ rest →
  len content = Details.piece_length td →
  0 < Details.piece_length td < 2 ^ 32 →
  Z.of_nat piece_index < 2 ^ 32 →
  Details.hash_of_pieces td !! piece_index = Some (Hashlib.sha1 content) →
  (piece_index < length (verified_pieces (resume_data sh)))%nat →
  let sh' := (session_step td sh s).1 in
  let s' := (session_step td sh s).2 in
  sent s' = sent s ++ (request_for (Details.piece_length td) piece_index <$> blocks)
  ∧ incoming (reader s') = rest
  ∧ save_calls sh' = S (save_calls sh)
  ∧ (save_raises sh (save_calls sh) = false →
     verified_pieces (resume_data sh')
     = <[piece_index := true]> (verified_pieces (resume_data sh))
     ∧ downloaded (resume_data sh') = downloaded (resume_data sh) + 1
     ∧ claimed_pieces (resume_data sh')
       = claimed_pieces (resume_data sh) ∖ {[piece_index]}
     ∧ saved sh' = saved sh ++ [(piece_index, content)]
     ∧ at_phase s' = after_piece todo)
  ∧ (save_raises sh (save_calls sh) = true →
     verified_pieces (resume_data sh') = verified_pieces (resume_data sh)
     ∧ downloaded (resume_data sh') = downloaded (resume_data sh)
     ∧ saved sh' = saved sh
     ∧ (∀ i, i ∈ claimed s → i ∉ claimed_pieces (resume_data sh'))
     ∧ at_phase s' = Closed).
Proof.
  intros blocks Hph Hinc Hlen Hpl Hidx Hhash Hi. cbv zeta.
  unfold session_step. rewrite Hph.
  replace (reader s) with (mkReader (incoming (reader s)) (ending (reader s)))
    by (by destruct (reader s)).
  rewrite Hinc.
  rewrite (fetch_piece_served td piece_index content rest _ Hlen Hpl Hidx).
  rewrite Hhash.
  assert (Handlers.verify_piece_hash content (Hashlib.sha1 content) = true) as ->
    by (by apply verify_piece_hash_true).
  cbn [negb]. destruct (save_raises sh (save_calls sh)).
  - cbn [on_error fst snd sent reader incoming save_calls set_resume_data
           resume_data saved at_phase claimed].
    rewrite app_nil_r.
    destruct (release_claims_spec (claimed s) (resume_data sh))
      as (Hv & Hd & _ & Hrel).
    split_and!; try done.
  - unfold commit_piece. cbn [resume_data].
    rewrite decide_True by done.
    cbn [fst snd sent reader incoming save_calls set_resume_data resume_data
           saved at_phase].
    split_and!; done.
Qed.

Lemma served_piece_committed_witness :
  ∃ sh s s0 s2,
    run Samples.eight_piece_torrent Samples.three_sessions [1%nat]
    = mkWorld sh [s0; s; s2]
    ∧ verified_pieces
        (resume_data (session_step Samples.eight_piece_torrent sh s).1)
      = [false; true; false; false; false; false; false; false]
    ∧ saved (session_step Samples.eight_piece_torrent sh s).1
      = [(1%nat, list_byte_of_string "BBBB")].
Proof.
  eexists _, _, _, _. split; [vm_compute; reflexivity|].
  match goal with
  | |- context [session_step Samples.eight_piece_torrent ?sh ?s] =>
      destruct (served_piece_committed Samples.eight_piece_torrent sh s 1 []
                  (list_byte_of_string "BBBB") [])
        as (_ & _ & _ & Hok & _);
        [reflexivity | reflexivity | reflexivity | done | done
        | vm_compute; reflexivity | simpl; lia |];
      destruct Hok as (Hv & _ & _ & Hs & _); [reflexivity|]
  end.
  split; [exact Hv|exact Hs].
Defined.

End fetching_more.

(* --------------------------------------------------------------------- *)
(** ** Further properties: reading from the peer                          *)
(* --------------------------------------------------------------------- *)

Section reading_more.
Import BuildMessages VerifyMessages JsonData Download.

Lemma recvall_loop_spec (fuel : nat) (sock : list bytes) (n : nat) (data : bytes) :
  Forall (fun chunk => chunk ≠ []) sock →
  (length data ≤ n)%nat → (n - length data ≤ fuel)%nat →
  (n ≤ length (data ++ concat sock) →
   ∃ sock', recvall_loop fuel sock n data
            = Received (take n (data ++ concat sock)) sock'
            ∧ concat sock' = drop n (data ++ concat sock))%nat
  ∧ (length (data ++ concat sock) < n →
     recvall_loop fuel sock n data = ConnectionError)%nat.
Proof.
  revert sock data. induction fuel as [|fuel IH]; intros sock data Hne Hd Hf.
  - assert (length data = n) as Hn by lia. simpl.
    rewrite decide_False by lia. split.
    + intros _. exists sock. rewrite take_app_length', drop_app_length' by done.
      done.
    + rewrite length_app. lia.
  - cbn [recvall_loop]. case_decide as Hlt.
    2: { assert (length data = n) as Hn by lia. split.
         - intros _. exists sock.
           by rewrite take_app_length', drop_app_length' by done.
         - rewrite length_app. lia. }
    destruct sock as [|chunk sock]; simpl sock_recv.
    { split; [|done]. rewrite app_nil_r. lia. }
    apply Forall_cons in Hne as [Hc Hne].
    case_decide as Hk.
    + destruct chunk as [|c chunk]; [done|].
      destruct (IH sock (data ++ c :: chunk) Hne) as [Hok Hshort].
      { rewrite length_app. lia. }
      { rewrite length_app. simpl length in *. lia. }
      assert ((data ++ c :: chunk) ++ concat sock
              = data ++ concat ((c :: chunk) :: sock)) as Heq
        by (simpl; by rewrite <- app_assoc).
      rewrite Heq in Hok, Hshort. split; [exact Hok|exact Hshort].
    + assert (take (n - length data) chunk ≠ []) as Hpart.
      { intros H. apply (f_equal length) in H. rewrite length_take in H.
        simpl in H. lia. }
      destruct (take (n - length data) chunk) as [|p part] eqn:Hp; [done|].
      assert (length (p :: part) = n - length data)%nat as Hlp.
      { rewrite <- Hp, length_take. lia. }
      destruct (IH (drop (n - length data) chunk :: sock) (data ++ p :: part))
        as [Hok _].
      { constructor; [|done]. intros H. apply (f_equal length) in H.
        rewrite length_drop in H. simpl in H. lia. }
      { rewrite length_app. lia. }
      { rewrite length_app. lia. }
      assert ((data ++ p :: part) ++ concat (drop (n - length data) chunk :: sock)
              = data ++ concat (chunk :: sock)) as Heq.
      { simpl concat. rewrite <- Hp, <- !app_assoc. f_equal.
        by rewrite (app_assoc (take _ _)), take_drop. }
      rewrite Heq in Hok. split; [exact Hok|].
      simpl concat. rewrite !length_app. lia.
Qed.

(** X4: [recvall] returns exactly the first [n] bytes that the socket
    delivers, however they are cut into chunks, and leaves the rest unread;
    when fewer than [n] bytes arrive before the peer closes, it raises
    [ConnectionError]. *)
Theorem recvall_exact (sock : list bytes) (n : nat) :
  Forall (fun chunk => chunk ≠ []) sock →
  (n ≤ length (concat sock) →
   ∃ sock', recvall sock n = Received (take n (concat sock)) sock'
            ∧ concat sock' = drop n (concat sock))%nat
  ∧ (length (concat sock) < n → recvall sock n = ConnectionError)%nat.
Proof.
  intros Hne. unfold recvall.
  apply (recvall_loop_spec n sock n [] Hne); simpl; lia.
Qed.

Lemma recvall_exact_witness :
  ∃ sock',
    recvall [list_byte_of_string "ab"; list_byte_of_string "cdef"] 3
    = Received (list_byte_of_string "abc") sock'
    ∧ concat sock' = list_byte_of_string "def".
Proof.
  destruct (recvall_exact [list_byte_of_string "ab"; list_byte_of_string "cdef"] 3)
    as [Hok _]; [by repeat constructor|].
  destruct Hok as (sock' & Hr & Hc); [simpl; lia|].
  exists sock'. split; [exact Hr|exact Hc].
Defined.



(** A message built for the wire, followed by anything, is read back whole. *)
Lemma recv_whole_message_frame (body rest : bytes) :
  len body < 2 ^ 32 →
  recv_whole_message ((be_bytes 4 (len body) ++ body) ++ rest) false
  = Ok (be_bytes 4 (len body) ++ body, rest).
Proof.
  intros Hl. unfold recv_whole_message, readexactly.
  rewrite decide_True by (rewrite !length_app, length_be_bytes; lia).
  cbn [mbind result_bind]. rewrite <- app_assoc.
  rewrite take_app_length', drop_app_length' by (by rewrite length_be_bytes).
  unfold unpack_I. rewrite decide_True by (by rewrite length_be_bytes).
  cbn [mbind result_bind].
  rewrite be_uint_be_bytes_4 by (unfold len in *; lia).
  unfold len. rewrite Nat2Z.id.
  rewrite decide_True by (rewrite length_app; lia).
  cbn [mbind result_bind].
  by rewrite take_app_length', drop_app_length'.
Qed.

Lemma parse_message_ok (msg : bytes) :
  ∃ parsed, parse_message msg = Ok parsed.
Proof.
  unfold parse_message, unpack_I, unpack_b, slice.
  destruct msg as [|b0 [|b1 [|b2 [|b3 [|b4 rest]]]]];
    try (eexists; reflexivity).
  repeat case_decide; unfold len in *; simpl length in *; try lia;
    eexists; reflexivity.
Qed.




End reading_more.

(* --------------------------------------------------------------------- *)
(** ** Further properties: the handle stage and the ledger                *)
(* --------------------------------------------------------------------- *)

Section ledger_more.
Import BuildMessages VerifyMessages JsonData Download.

Lemma wait_for_unchoke_none (e : stream_end) (inc seen0 : list bytes) :
  Forall (fun m => unchoke_msg m = false) inc →
  wait_for_unchoke e inc seen0
  = (match e with
     | PeerSilent => Ok false
     | PeerCloses => Raise IncompleteReadError
     end, seen0 ++ inc, []).
Proof.
  intros Hall. revert seen0.
  induction Hall as [|m inc Hm _ IH]; intros seen0; simpl.
  - rewrite app_nil_r. by destruct e.
  - unfold unchoke_msg in Hm. destruct (parse_message_ok m) as [p Hp].
    rewrite Hp in *. rewrite Hm, IH. by rewrite <- app_assoc.
Qed.

Lemma wait_for_unchoke_first (e : stream_end) (pre : list bytes) (m : bytes)
    (post seen0 : list bytes) :
  Forall (fun m => unchoke_msg m = false) pre → unchoke_msg m = true →
  wait_for_unchoke e (pre ++ m :: post) seen0
  = (Ok true, seen0 ++ pre ++ [m], post).
Proof.
  intros Hall Hm. revert seen0.
  induction Hall as [|x pre Hx _ IH]; intros seen0; simpl.
  - unfold unchoke_msg in Hm. destruct (parse_message m) as [p|]; [|done].
    by rewrite Hm.
  - unfold unchoke_msg in Hx. destruct (parse_message_ok x) as [p Hp].
    rewrite Hp in *. rewrite Hx, IH. by rewrite <- app_assoc.
Qed.

(** X7: [wait_for_unchoke] reads messages up to the first [unchoke] and
    answers [True], leaving what follows unread; [choke] and any other
    message are passed over.  Without an [unchoke] it reads everything and
    answers [False] when the peer falls silent, or lets
    [IncompleteReadError] through when the peer closes. *)
Theorem wait_for_unchoke_spec (e : stream_end) (pre : list bytes) (m : bytes)
    (post seen0 : list bytes) :
  Forall (fun m => unchoke_msg m = false) pre →
  (unchoke_msg m = true →
   wait_for_unchoke e (pre ++ m :: post) seen0
   = (Ok true, seen0 ++ pre ++ [m], post))
  ∧ wait_for_unchoke e pre seen0
    = (match e with
       | PeerSilent => Ok false
       | PeerCloses => Raise IncompleteReadError
       end, seen0 ++ pre, []).
Proof.
  intros Hall. split.
  - intros Hm. by apply wait_for_unchoke_first.
  - by apply wait_for_unchoke_none.
Qed.

Lemma wait_for_unchoke_spec_witness :
  wait_for_unchoke PeerSilent
    ([build_choke; build_keep_alive] ++ build_unchoke :: [have_message 1]) []
  = (Ok true, [build_choke; build_keep_alive; build_unchoke], [have_message 1]).
Proof.
  destruct (wait_for_unchoke_spec PeerSilent [build_choke; build_keep_alive]
              build_unchoke [have_message 1] []) as [H _].
  - by repeat constructor.
  - exact (H eq_refl).
Defined.

(** X8: the handle stage hands a connection to the download stage only
    with a non-empty list of pieces, each of them a piece index of the
    torrent that is not verified. *)
Theorem handle_peer_needed (rd : ResumeData) (r : Reader)
    (pieces : list nat) (r' : Reader) :
  enqueued (handle_peer rd r) = Some (pieces, r') →
  pieces ≠ [] ∧ Forall (fun i => verified_pieces rd !! i = Some false) pieces.
Proof.
  unfold handle_peer. destruct (incoming r) as [|msg rest]; [done|].
  destruct (parse_message msg) as [parsed|]; [|done].
  destruct (is_have parsed).
  - unfold Handlers.have_handler.
    destruct (Details.payload parsed) as [payload|]; [|done].
    destruct (unpack_I payload) as [idx|]; [|done]. cbn [mbind result_bind].
    destruct (verified_pieces rd !! Z.to_nat idx) as [[]|] eqn:Hv; try done.
    cbn [negb].
    destruct (wait_for_unchoke _ _ _) as [[[[]|] sn] rs]; try done.
    cbn [enqueued]. intros [= <- <-]. split; [done|]. by repeat constructor.
  - destruct (is_bitfeild parsed); [|done].
    destruct (Details.payload parsed) as [payload|] eqn:Hp.
    2: { unfold Handlers.bitfield_handler. by rewrite Hp. }
    destruct (bitfield_handler_spec parsed payload (verified_pieces rd) Hp)
      as (l & -> & Hl).
    destruct l as [|p l]; [done|]. cbn [enqueued]. intros [= <- <-].
    split; [done|]. apply Forall_forall. intros i Hi.
    by apply Hl in Hi as (_ & _ & _ & Hv).
Qed.

Lemma handle_peer_needed_witness :
  enqueued (handle_peer Samples.eight_pieces Samples.have_then_unchoke)
  = Some ([0%nat], mkReader [] PeerSilent)
  ∧ verified_pieces Samples.eight_pieces !! 0%nat = Some false.
Proof.
  split; [reflexivity|].
  destruct (handle_peer_needed Samples.eight_pieces Samples.have_then_unchoke
              [0%nat] (mkReader [] PeerSilent) eq_refl) as [_ H].
  by apply Forall_cons in H as [H _].
Defined.

(** *** Claiming *)

Lemma claim_batch_bounds (avail : list nat) (rd : ResumeData) (claimed : list nat) :
  let '(rd', claimed', e) := claim_batch avail rd claimed in
  (len claimed ≤ MAX_CLAIM_PER_PEER → len claimed' ≤ MAX_CLAIM_PER_PEER)
  ∧ (∀ i, i ∈ claimed' → i ∈ claimed ∨ i ∈ avail)
  ∧ (Forall (fun i => i < length (verified_pieces rd))%nat avail → e = None).
Proof.
  revert rd claimed. induction avail as [|p avail IH]; intros rd claimed; simpl.
  { split_and!; [done|by left|done]. }
  case_decide as Hmax; [split_and!; [done|by left|done]|].
  destruct (verified_pieces rd !! p) as [v|] eqn:Hv.
  2: { split_and!; [done|by left|].
       intros [Hp _]%Forall_cons. apply lookup_ge_None in Hv. lia. }
  destruct (negb v && bool_decide (p ∉ claimed_pieces rd)).
  - specialize (IH (set_claimed rd ({[p]} ∪ claimed_pieces rd)) (claimed ++ [p])).
    destruct (claim_batch avail _ _) as [[rd' claimed'] e].
    destruct IH as (Hb & Hin & He). split_and!.
    + intros _. apply Hb. unfold len in *. rewrite length_app. simpl. lia.
    + intros i Hi. destruct (Hin i Hi) as [[? | ->%list_elem_of_singleton]%elem_of_app | ?];
        [by left|right; by left|right; by right].
    + intros [_ Ha]%Forall_cons. by apply He.
  - specialize (IH rd claimed).
    destruct (claim_batch avail rd claimed) as [[rd' claimed'] e].
    destruct IH as (Hb & Hin & He). split_and!; [done| |].
    + intros i Hi. destruct (Hin i Hi); [by left|right; by right].
    + intros [_ Ha]%Forall_cons. by apply He.
Qed.

(** X9: a batch claimed for a peer has at most [MAX_CLAIM_PER_PEER] pieces,
    all different, all among the pieces the peer offers, and each of them
    was neither verified nor claimed before; afterwards the claimed set is
    the old one plus the batch, and nothing else of the ledger has changed.
    When every offered index is a piece index no exception is raised. *)
Theorem claim_batch_batch (avail : list nat) (rd : ResumeData) :
  let '(rd', claimed', e) := claim_batch avail rd [] in
  len claimed' ≤ MAX_CLAIM_PER_PEER
  ∧ NoDup claimed'
  ∧ (∀ i, i ∈ claimed' →
          i ∈ avail ∧ verified_pieces rd !! i = Some false
          ∧ i ∉ claimed_pieces rd)
  ∧ claimed_pieces rd' = claimed_pieces rd ∪ list_to_set claimed'
  ∧ verified_pieces rd' = verified_pieces rd
  ∧ downloaded rd' = downloaded rd
  ∧ (Forall (fun i => i < length (verified_pieces rd))%nat avail → e = None).
Proof.
  pose proof (claim_batch_bounds avail rd []) as Hb.
  pose proof (claim_batch_spec avail rd []) as Hs.
  pose proof (claim_batch_owned avail rd [] (NoDup_nil_2)) as Ho.
  destruct (claim_batch avail rd []) as [[rd' claimed'] e].
  destruct Hb as (Hmax & Hav & He).
  destruct Hs as (Hv & Hd & Hsub & Hnew & Hloc & _).
  destruct Ho as [Hnd Hin]; [set_solver|].
  split_and!; try done.
  - apply Hmax. by unfold MAX_CLAIM_PER_PEER, len.
  - intros i Hi. destruct (Hav i Hi) as [[]%elem_of_nil|Ha].
    destruct (Hloc i Hi) as [[]%elem_of_nil|[Hi' Hni]].
    destruct (Hnew i Hi' Hni) as [Hf _]. done.
  - apply set_eq. intros i. rewrite elem_of_union, elem_of_list_to_set. split.
    + intros Hi. destruct (decide (i ∈ claimed_pieces rd)); [by left|].
      right. by apply Hnew.
    + intros [Hi|Hi]; [by apply Hsub|by apply Hin].
Qed.

(** *** What every schedule of sessions keeps *)

Lemma session_step_monotone (td : Details.TorrentDetails) (sh : Shared)
    (s : Session) :
  let rd := resume_data sh in
  let rd' := resume_data (session_step td sh s).1 in
  length (verified_pieces rd') = length (verified_pieces rd)
  ∧ (∀ i, verified_pieces rd !! i = Some true →
          verified_pieces rd' !! i = Some true)
  ∧ downloaded rd ≤ downloaded rd'
  ∧ ∃ more, saved (session_step td sh s).1 = saved sh ++ more.
Proof.
  cbv zeta. unfold session_step.
  assert (∀ sh0 s0 sent', length (verified_pieces (resume_data (on_error sh0 s0 sent').1))
                          = length (verified_pieces (resume_data sh0))
                          ∧ (∀ i, verified_pieces (resume_data sh0) !! i = Some true →
                                  verified_pieces (resume_data (on_error sh0 s0 sent').1) !! i
                                  = Some true)
                          ∧ downloaded (resume_data sh0)
                            ≤ downloaded (resume_data (on_error sh0 s0 sent').1)
                          ∧ saved (on_error sh0 s0 sent').1 = saved sh0) as Herr.
  { intros sh0 s0 sent'. destruct (on_error_ledger sh0 s0 sent') as (-> & -> & ->).
    split_and!; [done|done|lia|done]. }
  destruct (at_phase s) as [|[|i todo]| |];
    try (simpl; split_and!; [done|done|lia|by exists []; rewrite app_nil_r]).
  - pose proof (claim_batch_spec (pieces_available_from_peer s) (resume_data sh) [])
      as Hspec.
    destruct (claim_batch _ _ _) as [[rd' claimed'] e].
    destruct Hspec as (Hv & Hd & _).
    destruct e.
    + match goal with |- context [on_error ?a ?b ?c] =>
        destruct (Herr a b c) as (H1 & H2 & H3 & H4) end.
      simpl in H1, H2, H3, H4 |- *. rewrite Hv, Hd in *.
      split_and!; [done|done|done|by exists []; rewrite app_nil_r].
    + simpl. rewrite Hv, Hd.
      split_and!; [done|done|lia|by exists []; rewrite app_nil_r].
  - destruct (fetch_piece td i (reader s)) as [[pd rest|x|] sent'].
    + destruct (Details.hash_of_pieces td !! i) as [h|].
      2: { match goal with |- context [on_error ?a ?b ?c] =>
             destruct (Herr a b c) as (H1 & H2 & H3 & H4) end.
           split_and!; [done|done|done|exists []; by rewrite app_nil_r]. }
      destruct (negb _).
      * simpl. split_and!; [done|done|lia|by exists []; rewrite app_nil_r].
      * destruct (save_raises sh (save_calls sh)).
        { match goal with |- context [on_error ?a ?b ?c] =>
            destruct (Herr a b c) as (H1 & H2 & H3 & H4) end.
          simpl in H1, H2, H3, H4 |- *.
          split_and!; [done|done|done|exists []; by rewrite app_nil_r]. }
        unfold commit_piece. cbn [resume_data]. case_decide.
        -- simpl. split_and!.
           ++ by rewrite length_insert.
           ++ intros j Hj. destruct (decide (i = j)) as [->|Hne].
              ** by apply list_lookup_insert_eq.
              ** by rewrite list_lookup_insert_ne.
           ++ lia.
           ++ by eexists.
        -- match goal with |- context [on_error ?a ?b ?c] =>
             destruct (Herr a b c) as (H1 & H2 & H3 & H4) end.
           simpl in H1, H2, H3, H4 |- *.
           split_and!; [done|done|done|by eexists].
    + match goal with |- context [on_error ?a ?b ?c] =>
        destruct (Herr a b c) as (H1 & H2 & H3 & H4) end.
      split_and!; [done|done|done|exists []; by rewrite app_nil_r].
    + simpl. split_and!; [done|done|lia|by exists []; rewrite app_nil_r].
Qed.

Lemma run_monotone (td : Details.TorrentDetails) (w : World) (schedule : list nat) :
  let rd := resume_data (shared w) in
  let rd' := resume_data (shared (run td w schedule)) in
  length (verified_pieces rd') = length (verified_pieces rd)
  ∧ (∀ i, verified_pieces rd !! i = Some true →
          verified_pieces rd' !! i = Some true)
  ∧ downloaded rd ≤ downloaded rd'
  ∧ ∃ more, saved (shared (run td w schedule)) = saved (shared w) ++ more.
Proof.
  cbv zeta. revert w. induction schedule as [|k schedule IH]; intros w.
  { simpl. split_and!; [done|done|lia|by exists []; rewrite app_nil_r]. }
  simpl. destruct (IH (world_step td w k)) as (Hl & Hv & Hd & more & Hs).
  assert (length (verified_pieces (resume_data (shared (world_step td w k))))
          = length (verified_pieces (resume_data (shared w)))
          ∧ (∀ i, verified_pieces (resume_data (shared w)) !! i = Some true →
                  verified_pieces (resume_data (shared (world_step td w k))) !! i
                  = Some true)
          ∧ downloaded (resume_data (shared w))
            ≤ downloaded (resume_data (shared (world_step td w k)))
          ∧ ∃ more, saved (shared (world_step td w k)) = saved (shared w) ++ more)
    as (Hl1 & Hv1 & Hd1 & more1 & Hs1).
  { unfold world_step. destruct (sessions w !! k) as [s|].
    - pose proof (session_step_monotone td (shared w) s) as H.
      by destruct (session_step td (shared w) s).
    - split_and!; [done|done|lia|by exists []; rewrite app_nil_r]. }
  split_and!.
  - by rewrite Hl.
  - intros i Hi. by apply Hv, Hv1.
  - lia.
  - exists (more1 ++ more). by rewrite Hs, Hs1, app_assoc.
Qed.

(** X10: whatever the sessions and their interleaving, a verified piece
    stays verified, [verified_pieces] keeps its length, [downloaded] never
    decreases, the saved pieces are only appended to, and no claimed piece
    is verified. *)
Theorem ledger_grows (td : Details.TorrentDetails) (w : World)
    (schedule : list nat) :
  claims_unverified (resume_data (shared w)) →
  let rd := resume_data (shared w) in
  let rd' := resume_data (shared (run td w schedule)) in
  claims_unverified rd'
  ∧ length (verified_pieces rd') = length (verified_pieces rd)
  ∧ (∀ i, verified_pieces rd !! i = Some true →
          verified_pieces rd' !! i = Some true)
  ∧ downloaded rd ≤ downloaded rd'
  ∧ ∃ more, saved (shared (run td w schedule)) = saved (shared w) ++ more.
Proof.
  intros H. cbv zeta. split; [by apply run_claims|]. apply run_monotone.
Qed.

Lemma ledger_grows_witness :
  claims_unverified
    (resume_data (shared (run Samples.eight_piece_torrent Samples.three_sessions
                            Samples.racing_schedule))).
Proof.
  destruct (ledger_grows Samples.eight_piece_torrent Samples.three_sessions
              Samples.racing_schedule) as [H _]; [|exact H].
  intros i Hi. simpl in Hi. set_solver.
Defined.

(** X11: with a single session, every state reached from a ledger where no
    claimed piece is verified and [downloaded] counts the verified pieces
    is such a ledger again, whether the saves to disk return or raise. *)
Theorem single_session_invariant (td : Details.TorrentDetails)
    (sh : Shared) (pieces : list nat) (r : Reader) (schedule : list nat) :
  claims_unverified (resume_data sh) → count_exact (resume_data sh) →
  let w := run td (mkWorld sh [new_session pieces r]) schedule in
  claims_unverified (resume_data (shared w))
  ∧ count_exact (resume_data (shared w)).
Proof.
  intros Hcl Hct. by apply (run_alone td sh (new_session pieces r)).
Qed.

Lemma single_session_invariant_witness :
  count_exact
    (resume_data
       (shared (run Samples.eight_piece_torrent
                  (mkWorld (mkShared Samples.eight_pieces [] never_raises 0)
                     [new_session [1%nat]
                        (mkReader
                           [piece_message 1 0 (list_byte_of_string "BBBB")]
                           PeerCloses)])
                  [0; 0; 0]%nat))).
Proof.
  destruct (single_session_invariant Samples.eight_piece_torrent
              (mkShared Samples.eight_pieces [] never_raises 0) [1%nat]
              (mkReader [piece_message 1 0 (list_byte_of_string "BBBB")]
                 PeerCloses)
              [0; 0; 0]%nat) as [_ H].
  - intros i Hi. simpl in Hi. set_solver.
  - reflexivity.
  - exact H.
Defined.

(** *** What a session leaves behind *)

Lemma release_claims_exact (l : list nat) (rd : ResumeData) :
  claimed_pieces (release_claims l rd) = claimed_pieces rd ∖ list_to_set l.
Proof.
  revert rd. induction l as [|i l IH]; intros rd; simpl.
  - set_solver.
  - rewrite IH. simpl. set_solver.
Qed.

Lemma claim_batch_fresh (avail : list nat) (rd : ResumeData) :
  let '(rd', claimed', e) := claim_batch avail rd [] in
  NoDup claimed'
  ∧ (∀ i, i ∈ claimed' → i ∉ claimed_pieces rd)
  ∧ claimed_pieces rd' = claimed_pieces rd ∪ list_to_set claimed'.
Proof.
  pose proof (claim_batch_spec avail rd []) as Hs.
  pose proof (claim_batch_owned avail rd [] (NoDup_nil_2)) as Ho.
  destruct (claim_batch avail rd []) as [[rd' claimed'] e].
  destruct Hs as (_ & _ & Hsub & Hnew & Hloc & _).
  destruct Ho as [Hnd Hin]; [set_solver|].
  split_and!; [done| |].
  - intros i Hi. by destruct (Hloc i Hi) as [[]%elem_of_nil|[_ Hni]].
  - apply set_eq. intros i. rewrite elem_of_union, elem_of_list_to_set. split.
    + intros Hi. destruct (decide (i ∈ claimed_pieces rd)); [by left|].
      right. by apply Hnew.
    + intros [Hi|Hi]; [by apply Hsub|by apply Hin].
Qed.

(** The claims of a lone session: [others] is the claimed set that it found
    at its start.  Between two batches and after the end the claimed set is
    [others] again; inside a batch it is [others] and the pieces still to
    fetch, which are among the batch, and the batch is disjoint from
    [others]. *)
Lemma session_step_holds (td : Details.TorrentDetails) (sh : Shared)
    (s : Session) (others : gset nat) :
  holds_claims others (resume_data sh) s →
  holds_claims others (resume_data (session_step td sh s).1)
    (session_step td sh s).2.
Proof.
  unfold holds_claims, session_step.
  assert (∀ (rd : ResumeData) (batch todo : list nat),
            claimed_pieces rd = others ∪ list_to_set todo →
            (∀ i, i ∈ todo → i ∈ batch) → (∀ i, i ∈ batch → i ∉ others) →
            claimed_pieces (release_claims batch rd) = others) as Hrelease.
  { intros rd batch todo Hc Hsub Hdisj. rewrite release_claims_exact, Hc.
    apply set_eq. intros i.
    rewrite elem_of_difference, elem_of_union, !elem_of_list_to_set.
    split.
    - intros [[Hi|Hi] Hnb]; [done|]. exfalso. by apply Hnb, Hsub.
    - intros Hi. split; [by left|]. intros Hb. by apply (Hdisj i). }
  assert (∀ (c : gset nat) (i : nat) (todo : list nat),
            c = others ∪ list_to_set (i :: todo) → NoDup (i :: todo) →
            (∀ k, k ∈ i :: todo → k ∉ others) →
            c ∖ {[i]} = others ∪ list_to_set todo) as Hdrop.
  { intros c i todo -> [Hni _]%NoDup_cons Hdisj.
    apply set_eq. intros k.
    rewrite elem_of_difference, !elem_of_union, list_to_set_cons, elem_of_union,
      elem_of_singleton, !elem_of_list_to_set.
    split.
    - tauto.
    - intros [Hk|Hk]; (split; [tauto|]); intros ->; [|done].
      apply (Hdisj i); [by left|done]. }
  assert (∀ (rd : ResumeData) (batch todo : list nat) (r : Reader)
            (sent' : list bytes),
            claimed_pieces rd = others ∪ list_to_set todo →
            NoDup todo → (∀ i, i ∈ todo → i ∈ batch) →
            (∀ i, i ∈ batch → i ∉ others) →
            match after_piece todo with
            | Fetching todo' =>
                NoDup todo' ∧ claimed_pieces rd = others ∪ list_to_set todo'
                ∧ (∀ i, i ∈ todo' → i ∈ batch) ∧ (∀ i, i ∈ batch → i ∉ others)
            | Stalled => True
            | _ => claimed_pieces rd = others
            end) as Hnext.
  { intros rd batch [|k todo] r sent' Hc Hnd Hsub Hdisj; simpl; [|done].
    rewrite Hc. set_solver. }
  destruct (at_phase s) as [|[|i todo]| |] eqn:Hph.
  - intros Hc.
    pose proof (claim_batch_fresh (pieces_available_from_peer s) (resume_data sh))
      as Hfresh.
    destruct (claim_batch _ _ _) as [[rd' claimed'] e].
    destruct Hfresh as (Hnd & Hnew & Hc'). rewrite Hc in Hc', Hnew.
    destruct e.
    + simpl. by apply (Hrelease rd' claimed' claimed').
    + simpl. destruct claimed' as [|k batch].
      * rewrite Hc'. set_solver.
      * done.
  - simpl. by rewrite Hph.
  - intros (Hnd & Hc & Hsub & Hdisj).
    assert (∀ k, k ∈ i :: todo → k ∉ others) as Hdisj'
      by (intros k Hk; by apply Hdisj, Hsub).
    assert (∀ k, k ∈ todo → k ∈ claimed s) as Hsub'
      by (intros k Hk; apply Hsub; by right).
    assert (NoDup todo) as Hnd' by (by apply NoDup_cons in Hnd as [_ ?]).
    destruct (fetch_piece td i (reader s)) as [[pd rest|x|] sent'].
    + destruct (Details.hash_of_pieces td !! i) as [h|];
        [|simpl; by apply (Hrelease _ _ (i :: todo))].
      destruct (negb _).
      * cbn [fst snd set_resume_data resume_data at_phase claimed].
        apply (Hnext _ _ _ (reader s) []); [|done..].
        simpl. by apply Hdrop.
      * destruct (save_raises sh (save_calls sh));
          [simpl; by apply (Hrelease _ _ (i :: todo))|].
        unfold commit_piece. cbn [resume_data]. case_decide.
        -- cbn [fst snd set_resume_data resume_data at_phase claimed].
           apply (Hnext _ _ _ (reader s) []); [|done..].
           simpl. by apply Hdrop.
        -- simpl. by apply (Hrelease _ _ (i :: todo)).
    + simpl. by apply (Hrelease _ _ (i :: todo)).
    + simpl. done.
  - simpl. by rewrite Hph.
  - simpl. by rewrite Hph.
Qed.

Lemma run_holds (td : Details.TorrentDetails) (sh : Shared) (s : Session)
    (others : gset nat) (schedule : list nat) :
  holds_claims others (resume_data sh) s →
  ∃ s', sessions (run td (mkWorld sh [s]) schedule) = [s']
        ∧ holds_claims others
            (resume_data (shared (run td (mkWorld sh [s]) schedule))) s'.
Proof.
  revert sh s. induction schedule as [|k schedule IH]; intros sh s Hh.
  { by exists s. }
  simpl. rewrite world_step_single. destruct k as [|k]; [|by apply IH].
  apply IH. by apply session_step_holds.
Qed.

(** X12: a session that runs alone leaves no claim behind.  Whatever the
    peer sends and whether the saves return or raise, once the session has
    ended (its batches all handled, or an exception) the claimed set is the
    one it found when it started; and as long as it runs, the claimed set
    is that one and pieces of its current batch. *)
Theorem closing_releases (td : Details.TorrentDetails) (sh : Shared)
    (pieces : list nat) (r : Reader) (schedule : list nat) :
  let w := run td (mkWorld sh [new_session pieces r]) schedule in
  ∃ s, sessions w = [s]
       ∧ (at_phase s = Closed →
          claimed_pieces (resume_data (shared w)) = claimed_pieces (resume_data sh))
       ∧ (at_phase s ≠ Stalled →
          ∀ i, i ∈ claimed_pieces (resume_data (shared w)) →
               i ∈ claimed_pieces (resume_data sh) ∨ i ∈ claimed s).
Proof.
  cbv zeta.
  destruct (run_holds td sh (new_session pieces r)
              (claimed_pieces (resume_data sh)) schedule) as (s & Hs & Hh);
    [done|].
  exists s. split; [done|]. unfold holds_claims in Hh. split.
  - intros Hph. by rewrite Hph in Hh.
  - intros Hph i Hi. destruct (at_phase s) as [| todo | |]; try done.
    + left. by rewrite <- Hh.
    + destruct Hh as (_ & Hc & Hsub & _). rewrite Hc in Hi.
      apply elem_of_union in Hi as [Hi|Hi]; [by left|].
      right. apply Hsub. by apply elem_of_list_to_set in Hi.
    + left. by rewrite <- Hh.
Qed.

(** The corrupt peer alone: its session claims pieces 1 and 0, drops piece
    1 on the mismatch, fails on piece 0 and ends with nothing claimed. *)
Example lone_session_ends_clean :
  let w := run Samples.eight_piece_torrent
             (mkWorld (mkShared Samples.eight_pieces [] never_raises 0)
                [new_session [1; 0]%nat
                   (mkReader [piece_message 1 0 (list_byte_of_string "XXXX")]
                      PeerCloses)])
             [0; 0; 0]%nat in
  (at_phase <$> sessions w) = [Closed]
  ∧ elements (claimed_pieces (resume_data (shared w))) = [].
Proof. cbv zeta. split; vm_compute; reflexivity. Qed.

End ledger_more.

(* --------------------------------------------------------------------- *)
(** ** Further properties: the tracker client                             *)
(* --------------------------------------------------------------------- *)

Section tracker_more.
Import GetPeers.

Lemma length_recvfrom (bufsize : Z) (datagram : bytes) :
  length (recvfrom bufsize datagram) = (Z.to_nat bufsize `min` length datagram)%nat.
Proof. unfold recvfrom. apply length_take. Qed.

Lemma recvfrom_fits (bufsize : Z) (datagram : bytes) :
  (length datagram ≤ Z.to_nat bufsize)%nat → recvfrom bufsize datagram = datagram.
Proof. unfold recvfrom. apply take_ge. Qed.

(** X13: with [count = MAX_TRY], as [get_peers_list] calls it,
    [_make_connection_request] makes a single attempt, and it returns a
    connection id exactly when the datagram went out and the reply has 16
    bytes, action 0 and the transaction id that was sent; the id is the
    last eight bytes of the reply. *)
Theorem connect_request_spec (fuel : nat) (net : nat → connect_attempt)
    (n : nat) (connection_id : Z) :
  _make_connection_request (S fuel) net n 1
  = _make_connection_request 1 net n 1
  ∧ (_make_connection_request (S fuel) net n 1 = Ok connection_id
     ↔ ∃ reply,
         c_send (net n) = Sent ∧ c_recv (net n) = Reply reply
         ∧ length reply = 16%nat
         ∧ be_uint (slice 0 4 reply) = 0
         ∧ be_uint (slice 4 8 reply) = c_transaction_id (net n)
         ∧ be_uint (slice 8 16 reply) = connection_id).
Proof.
  cbn [_make_connection_request]. rewrite !decide_True by done.
  split; [done|].
  destruct (c_send (net n)); try (split; [done|by intros (? & ? & _)]).
  destruct (c_recv (net n)) as [reply| |];
    try (split; [done|by intros (? & _ & ? & _)]).
  cbv zeta. unfold unpack_LLQ. split.
  - case_decide as Hlen; [done|].
    case_decide as H16; [|unfold len in Hlen; done].
    rewrite length_recvfrom in H16.
    rewrite recvfrom_fits by lia.
    cbn [mbind result_bind]. case_decide as Ha; [done|].
    case_decide as Ht; [done|]. intros [= <-].
    exists reply. split_and!; try done. lia.
  - intros (r & _ & [= <-] & H16 & Ha & Ht & Hc).
    rewrite recvfrom_fits by lia.
    rewrite decide_False by (unfold len; lia).
    rewrite decide_True by done. cbn [mbind result_bind].
    rewrite decide_False by (intros H; by rewrite Ha in H).
    rewrite decide_False by (intros H; by rewrite Ht in H).
    by rewrite Hc.
Qed.

Local Opaque recursion_limit.

Lemma unreachable_connect (t : Tracker) :
  unreachable t →
  _make_connection_request recursion_limit (on_connect t) 0 1 = Raise TimeoutError
  ∨ _make_connection_request recursion_limit (on_connect t) 0 1 = Raise Gaierror.
Proof.
  assert (recursion_limit = S (Nat.pred recursion_limit)) as -> by done.
  cbn [_make_connection_request]. rewrite !decide_True by done.
  intros [->|[->|[-> ->]]]; auto.
Qed.

Lemma get_peers_list_unreachable (trackers : list Tracker) (idx : nat)
    (info_hash : bytes) (total_length : Z) (eff : Effects) :
  Forall unreachable trackers →
  get_peers_list trackers idx info_hash total_length eff
  = (mkEffects (contacted eff ++ seq idx (length trackers)) (announces eff)
       (peer_list eff) (globals eff), Ok ()).
Proof.
  intros Hall. revert idx eff.
  induction Hall as [|t trackers Ht _ IH]; intros idx eff.
  - simpl. rewrite app_nil_r. by destruct eff.
  - cbn [get_peers_list].
    destruct (unreachable_connect t Ht) as [-> | ->];
      rewrite IH; cbn [contacted announces peer_list globals length seq];
      by rewrite <- app_assoc.
Qed.

(** X14: when none of the trackers can be reached for the connect
    exchange, [get_peers_list] tries every one of them in order and returns
    normally: no announce is sent, no peer list is published and the swarm
    statistics are left as they were. *)
Theorem unreachable_trackers_skipped (trackers : list Tracker)
    (info_hash : bytes) (total_length : Z) (eff : Effects) :
  Forall unreachable trackers →
  get_peers_list trackers 0 info_hash total_length eff
  = (mkEffects (contacted eff ++ seq 0 (length trackers)) (announces eff)
       (peer_list eff) (globals eff), Ok ()).
Proof. apply get_peers_list_unreachable. Qed.

Lemma unreachable_trackers_skipped_witness :
  get_peers_list [Samples.silent_connect; Samples.unresolvable] 0
    Samples.sample_info_hash 40000 no_effects
  = (mkEffects [0; 1]%nat [] [] None, Ok ()).
Proof.
  apply (unreachable_trackers_skipped
           [Samples.silent_connect; Samples.unresolvable]).
  apply Forall_cons; split; [right; right; by split|].
  apply Forall_cons; split; [right; by left|].
  apply Forall_nil_2.
Defined.

(** X15: when no tracker can be reached during the first refresh cycle,
    [populate_peers] ends with [NameError]: [get_interval_data] reads the
    globals that only a received announce reply assigns. *)
Theorem first_cycle_needs_a_reply (trackers : list Tracker)
    (cycles : list (list Tracker)) (info_hash : bytes) (total_length : Z) :
  Forall unreachable trackers →
  (populate_peers (trackers :: cycles) info_hash total_length no_effects).2
  = Raise NameError.
Proof.
  intros Hall. cbn [populate_peers].
  by rewrite (get_peers_list_unreachable trackers 0 info_hash total_length _ Hall).
Qed.

Lemma first_cycle_needs_a_reply_witness :
  (populate_peers [[Samples.silent_connect]; [Samples.healthy]]
     Samples.sample_info_hash 40000 no_effects).2
  = Raise NameError.
Proof.
  apply first_cycle_needs_a_reply.
  apply Forall_cons; split; [right; right; by split|].
  apply Forall_nil_2.
Defined.

Lemma get_peers_list_contacted (trackers : list Tracker) (idx : nat)
    (info_hash : bytes) (total_length : Z) (eff : Effects) :
  let out := get_peers_list trackers idx info_hash total_length eff in
  (∃ k, (k ≤ length trackers)%nat
        ∧ contacted out.1 = contacted eff ++ seq idx k
        ∧ (out.2 = Ok () → k = length trackers))
  ∧ ∃ lists, peer_list out.1 = peer_list eff ++ lists
             ∧ (length lists ≤ length (contacted out.1) - length (contacted eff))%nat.
Proof.
  cbv zeta. revert idx eff.
  induction trackers as [|t trackers IH]; intros idx eff.
  { simpl. split.
    - exists 0%nat. by rewrite app_nil_r.
    - exists []. rewrite app_nil_r. split; [done|simpl; lia]. }
  cbn [get_peers_list].
  assert (∀ eff',
            contacted eff' = contacted eff ++ [idx] →
            (∃ lists0, peer_list eff' = peer_list eff ++ lists0
                       ∧ (length lists0 ≤ 1)%nat) →
            let out := get_peers_list trackers (S idx) info_hash total_length eff' in
            (∃ k, (k ≤ length (t :: trackers))%nat
                  ∧ contacted out.1 = contacted eff ++ seq idx k
                  ∧ (out.2 = Ok () → k = length (t :: trackers)))
            ∧ ∃ lists, peer_list out.1 = peer_list eff ++ lists
                       ∧ (length lists
                          ≤ length (contacted out.1) - length (contacted eff))%nat)
    as Hcont.
  { intros eff' Hc (lists0 & Hp & Hl0). cbv zeta.
    destruct (IH (S idx) eff') as [(k & Hk & Hck & Hok) (lists & Hpl & Hll)].
    split.
    - exists (S k). split_and!; [simpl; lia| |intros H; simpl; f_equal; by apply Hok].
      rewrite Hck, Hc, <- app_assoc. done.
    - exists (lists0 ++ lists). split; [by rewrite Hpl, Hp, app_assoc|].
      rewrite Hck, Hc in *. rewrite !length_app in *. simpl length in *. lia. }
  assert (∀ eff' : Effects,
            contacted eff' = contacted eff ++ [idx] →
            peer_list eff' = peer_list eff →
            (∃ k, (k ≤ length (t :: trackers))%nat
                  ∧ contacted eff' = contacted eff ++ seq idx k
                  ∧ (Raise SystemExit = Ok () :> result () → k = length (t :: trackers)))
            ∧ ∃ lists, peer_list eff' = peer_list eff ++ lists
                       ∧ (length lists
                          ≤ length (contacted eff') - length (contacted eff))%nat)
    as Hexit.
  { intros eff' Hc Hp. split.
    - exists 1%nat. split_and!; [simpl; lia|done|done].
    - exists []. rewrite app_nil_r. split; [done|simpl; lia]. }
  destruct (_make_connection_request _ _ _ _) as [cid|[]];
    try (by apply Hexit);
    try (apply Hcont; [done|exists []; rewrite app_nil_r; split; [done|simpl; lia]]).
  destruct (a_result _) as [peers|[]]; cbn [contacted announces peer_list globals];
    try (by apply Hexit);
    try (apply Hcont; [done|exists []; rewrite app_nil_r; split; [done|simpl; lia]]).
  apply Hcont; [done|]. exists [peers]. split; [done|simpl; lia].
Qed.

(** X16: [get_peers_list] contacts the trackers in the order of the URL
    list; when it returns normally it has contacted every one of them, also
    after one has answered, and it has published at most one peer list per
    tracker contacted. *)
Theorem trackers_contacted_in_order (trackers : list Tracker)
    (info_hash : bytes) (total_length : Z) :
  let out := get_peers_list trackers 0 info_hash total_length no_effects in
  (∃ k, (k ≤ length trackers)%nat ∧ contacted out.1 = seq 0 k
        ∧ (out.2 = Ok () → k = length trackers))
  ∧ (length (peer_list out.1) ≤ length (contacted out.1))%nat.
Proof.
  cbv zeta.
  destruct (get_peers_list_contacted trackers 0 info_hash total_length no_effects)
    as [(k & Hk & Hc & Hok) (lists & Hp & Hl)].
  split.
  - exists k. done.
  - rewrite Hp. simpl in *. lia.
Qed.

Local Transparent recursion_limit.

End tracker_more.

(* --------------------------------------------------------------------- *)
(** ** Further properties: the announce reply                            *)
(* --------------------------------------------------------------------- *)

Section announce_more.
Import GetPeers.

Lemma parse_peers_encoded (n : nat) (peers : list (bytes * Z)) :
  Forall peer_entry peers →
  (length peers ≤ n)%nat →
  parse_peers n (concat (encode_peer <$> peers)) = Ok peers.
Proof.
  intros Hall. revert n.
  induction Hall as [|[ip port] peers [Hip Hport] _ IH]; intros n Hn.
  - by destruct n.
  - destruct n as [|n]; [simpl in Hn; lia|].
    simpl in Hip, Hport.
    cbn [fmap list_fmap concat]. unfold encode_peer at 1. cbn [fst snd].
    destruct ip as [|a [|b [|c [|d [|]]]]]; try done.
    cbn [parse_peers app be_bytes].
    unfold slice. cbn [drop take Nat.sub length].
    rewrite decide_True by done.
    unfold unpack_H. rewrite decide_True by done.
    cbn [mbind result_bind].
    change (be_uint _) with (be_uint (be_bytes 2 port)).
    rewrite be_uint_be_bytes_2 by done.
    rewrite IH by (simpl in Hn; lia). done.
Qed.

Lemma length_encoded_peers (peers : list (bytes * Z)) :
  Forall peer_entry peers →
  length (concat (encode_peer <$> peers)) = (6 * length peers)%nat.
Proof.
  induction 1 as [|p peers [Hip _] _ IH]; [done|].
  cbn [fmap list_fmap concat length]. rewrite length_app.
  change (list_fmap _ _ encode_peer peers) with (encode_peer <$> peers).
  unfold encode_peer at 1. rewrite length_app, length_be_bytes, Hip, IH. lia.
Qed.

(** The first [6 k + j] bytes of a peer list are its first [k] entries and
    [j] bytes of what follows. *)
Lemma take_encoded_peers (peers : list (bytes * Z)) (k j : nat) :
  Forall peer_entry peers →
  take (6 * k + j) (concat (encode_peer <$> peers))
  = concat (encode_peer <$> take k peers)
    ++ take j (concat (encode_peer <$> drop k peers)).
Proof.
  intros Hall. revert k.
  induction Hall as [|p peers [Hip _] _ IH]; intros k.
  { destruct k; simpl; by rewrite ?take_nil. }
  destruct k as [|k]; [done|].
  cbn [fmap list_fmap concat take drop].
  change (list_fmap _ _ encode_peer ?l) with (encode_peer <$> l).
  assert (length (encode_peer p) = 6%nat) as Hp.
  { unfold encode_peer. by rewrite length_app, length_be_bytes, Hip. }
  rewrite take_app_ge by lia. rewrite Hp.
  replace (6 * S k + j - 6)%nat with (6 * k + j)%nat by lia.
  by rewrite IH, app_assoc.
Qed.

(** A peer list that ends in fewer than four stray bytes makes
    [inet_ntoa] raise. *)
Lemma parse_peers_stub (n : nat) (peers : list (bytes * Z)) (stub : bytes) :
  Forall peer_entry peers →
  (length peers < n)%nat →
  (0 < length stub < 4)%nat →
  parse_peers n (concat (encode_peer <$> peers) ++ stub) = Raise OSError.
Proof.
  intros Hall. revert n.
  induction Hall as [|[ip port] peers [Hip Hport] _ IH]; intros n Hn Hstub.
  - destruct n as [|n]; [simpl in Hn; lia|].
    cbn [fmap list_fmap concat app parse_peers].
    destruct stub as [|s0 stub]; [simpl in Hstub; lia|].
    rewrite decide_False; [done|].
    rewrite length_take. cbn [length] in *. lia.
  - destruct n as [|n]; [simpl in Hn; lia|].
    simpl in Hip, Hport.
    cbn [fmap list_fmap concat]. unfold encode_peer at 1. cbn [fst snd].
    destruct ip as [|a [|b [|c [|d [|]]]]]; try done.
    cbn [parse_peers app be_bytes].
    unfold slice. cbn [drop take Nat.sub length].
    rewrite decide_True by done.
    unfold unpack_H. rewrite decide_True by done.
    cbn [mbind result_bind].
    change (list_fmap _ _ encode_peer peers) with (encode_peer <$> peers).
    rewrite IH by (simpl in Hn; lia || done). done.
Qed.

(** What [recvfrom(4096)] keeps of an announce reply. *)
Lemma announce_response_received
    (action transaction_id interval leechers seeders : Z)
    (peers : list (bytes * Z)) :
  Forall peer_entry peers →
  let header := be_bytes 4 action ++ be_bytes 4 transaction_id
                  ++ be_bytes 4 interval ++ be_bytes 4 leechers
                  ++ be_bytes 4 seeders in
  let r := recvfrom 4096
             (announce_response action transaction_id interval leechers seeders
                peers) in
  slice 0 20 r = header
  ∧ (20 ≤ length r)%nat
  ∧ (20 + 6 * len peers ≤ 4096 →
     drop 20 r = concat (encode_peer <$> peers) ∧ (length peers ≤ length r)%nat)
  ∧ (4096 < 20 + 6 * len peers →
     ∃ some stub,
       drop 20 r = concat (encode_peer <$> some) ++ stub
       ∧ Forall peer_entry some ∧ (length some < length r)%nat
       ∧ (0 < length stub < 4)%nat).
Proof.
  intros Hall. cbv zeta.
  set (header := be_bytes 4 action ++ be_bytes 4 transaction_id
                   ++ be_bytes 4 interval ++ be_bytes 4 leechers
                   ++ be_bytes 4 seeders).
  assert (length header = 20%nat) as Hh
    by (unfold header; by rewrite !length_app, !length_be_bytes).
  assert (announce_response action transaction_id interval leechers seeders peers
          = header ++ concat (encode_peer <$> peers)) as ->.
  { unfold announce_response, header. by rewrite <- !app_assoc. }
  assert (recvfrom 4096 (header ++ concat (encode_peer <$> peers))
          = header ++ take (Z.to_nat 4076) (concat (encode_peer <$> peers))) as ->.
  { unfold recvfrom. rewrite take_app_ge by lia. by rewrite Hh. }
  pose proof (length_encoded_peers peers Hall) as Hbody.
  split_and!.
  - unfold slice. rewrite drop_0, Nat.sub_0_r.
    rewrite take_app_length'; done.
  - rewrite length_app. lia.
  - intros Hfit. unfold len in Hfit.
    rewrite take_ge by lia. rewrite drop_app_length' by done.
    split; [done|]. rewrite length_app. lia.
  - intros Hcut. unfold len in Hcut.
    rewrite drop_app_length' by done.
    replace (Z.to_nat 4076) with (6 * Z.to_nat 679 + 2)%nat by lia.
    rewrite take_encoded_peers by done.
    destruct (drop (Z.to_nat 679) peers) as [|p later] eqn:Hdrop.
    { apply (f_equal length) in Hdrop. rewrite length_drop in Hdrop.
      simpl in Hdrop. lia. }
    assert (peer_entry p) as [Hip _].
    { apply (Forall_forall peer_entry peers); [done|].
      apply (list_elem_of_lookup_2 _ (Z.to_nat 679)).
      rewrite <- (Nat.add_0_r (Z.to_nat 679)), <- lookup_drop. by rewrite Hdrop. }
    exists (take (Z.to_nat 679) peers), (take 2 (p.1)).
    split_and!.
    + f_equal. cbn [fmap list_fmap concat]. unfold encode_peer at 1.
      rewrite <- app_assoc. by rewrite take_app_le by lia.
    + by apply Forall_take.
    + rewrite !length_app.
      rewrite (length_encoded_peers (take _ peers)) by (by apply Forall_take).
      rewrite length_take. lia.
    + rewrite length_take. lia.
    + rewrite length_take. lia.
Qed.

(** X17: an announce reply with action 1, the transaction id of the
    request and well-formed 6-byte peer entries makes
    [_make_announce_request] store (interval, seeders, leechers) in the
    globals after one datagram sent.  When the reply fits the 4096 bytes
    that [recvfrom] takes (up to 679 peers), the peers are returned in the
    reply's order, each with its four address bytes and its port; a longer
    reply is cut after two bytes of an entry and [inet_ntoa] raises
    [OSError]. *)
Theorem announce_reply_read_back (fuel : nat) (connection_id : Z)
    (info_hash : bytes) (total_length : Z) (net : nat → announce_attempt)
    (n : nat) (count : Z) (g : swarm) (interval leechers seeders : Z)
    (peers : list (bytes * Z)) :
  let a := _make_announce_request (S fuel) connection_id info_hash total_length
             net n count g in
  0 ≤ total_length < 2 ^ 64 →
  a_send (net n) = Sent →
  a_recv (net n)
  = Reply (announce_response 1 (a_transaction_id (net n)) interval leechers
             seeders peers) →
  0 ≤ a_transaction_id (net n) < 2 ^ 32 →
  0 ≤ interval < 2 ^ 32 → 0 ≤ leechers < 2 ^ 32 → 0 ≤ seeders < 2 ^ 32 →
  Forall peer_entry peers →
  a_swarm a = Some (interval, seeders, leechers)
  ∧ length (a_sent a) = 1%nat
  ∧ a_result a = if decide (20 + 6 * len peers ≤ 4096) then Ok peers
                 else Raise OSError.
Proof.
  cbv zeta. intros Htl Hsend Hrecv Htxn Hi Hl Hs Hall.
  cbn [_make_announce_request]. unfold announce_req.
  rewrite decide_True by done. rewrite Hsend, Hrecv. cbv zeta.
  destruct (announce_response_received 1 (a_transaction_id (net n)) interval
              leechers seeders peers Hall) as (Hhead & Hlen & Hfit & Hcut).
  rewrite decide_False by (unfold len; lia).
  rewrite Hhead. unfold unpack_LLLLL.
  rewrite decide_True by (by rewrite !length_app, !length_be_bytes).
  assert (∀ a b c d e : Z,
            let h := be_bytes 4 a ++ be_bytes 4 b ++ be_bytes 4 c ++ be_bytes 4 d
                       ++ be_bytes 4 e in
            slice 0 4 h = be_bytes 4 a ∧ slice 4 8 h = be_bytes 4 b
            ∧ slice 8 12 h = be_bytes 4 c ∧ slice 12 16 h = be_bytes 4 d
            ∧ slice 16 20 h = be_bytes 4 e) as Hsl by (by intros).
  destruct (Hsl 1 (a_transaction_id (net n)) interval leechers seeders)
    as (-> & -> & -> & -> & ->).
  rewrite !be_uint_be_bytes_4 by (done || (change (2 ^ 32) with 4294967296; lia)).
  rewrite decide_False by (by intros H).
  rewrite decide_False by (by intros H).
  cbn [a_result a_swarm a_sent]. split_and!; [done|done|].
  case_decide as Hsize.
  - destruct (Hfit Hsize) as [-> Hfuel]. by apply parse_peers_encoded.
  - destruct Hcut as (some & stub & -> & Hsome & Hfuel & Hstub); [lia|].
    by apply parse_peers_stub.
Qed.

Lemma announce_reply_read_back_witness :
  let a := _make_announce_request 1 99 Samples.sample_info_hash 40000
             (on_announce Samples.healthy) 0 1 None in
  a_swarm a = Some (1800, 5, 3)
  ∧ length (a_sent a) = 1%nat
  ∧ a_result a = if decide (20 + 6 * len [([x0a; x00; x00; x01], 6881)] ≤ 4096)
                 then Ok [([x0a; x00; x00; x01], 6881)]
                 else Raise OSError.
Proof.
  apply (announce_reply_read_back 0 99 Samples.sample_info_hash 40000
           (on_announce Samples.healthy) 0 1 None 1800 3 5
           [([x0a; x00; x00; x01], 6881)]).
  - lia.
  - reflexivity.
  - reflexivity.
  - simpl. lia.
  - lia.
  - lia.
  - lia.
  - apply Forall_cons; split; [split; [reflexivity|simpl; lia]|apply Forall_nil_2].
Defined.

(** A reply with 680 peers has 4100 bytes: the announce fails on the cut
    entry and [get_peers_list] ends in [sys.exit(1)] without publishing a
    peer. *)
Example crowded_announce_exits :
  a_result (_make_announce_request 1 99 Samples.sample_info_hash 40000
              (on_announce Samples.crowded_announce) 0 1 None)
  = Raise OSError
  ∧ get_peers_list [Samples.crowded_announce; Samples.healthy] 0
      Samples.sample_info_hash 40000 no_effects
    = (mkEffects [0%nat]
         (a_sent (_make_announce_request 1 99 Samples.sample_info_hash 40000
                    (on_announce Samples.healthy) 0 1 None))
         [] (Some (1800, 5, 3)),
       Raise SystemExit).
Proof. split; vm_compute; reflexivity. Qed.

End announce_more.

(* --------------------------------------------------------------------- *)
(** ** Further properties: bitfield messages                             *)
(* --------------------------------------------------------------------- *)

Section bitfields_more.
Import BuildMessages VerifyMessages Handlers JsonData.

Lemma land_shiftr_1 (x m : Z) :
  0 ≤ m → Z.land (Z.shiftr x m) 1 = Z.b2z (Z.testbit x m).
Proof.
  intros Hm. rewrite Z.testbit_odd, <- Z.bit0_odd, Z.bit0_mod.
  exact (Z.land_ones (Z.shiftr x m) 1 ltac:(lia)).
Qed.

Lemma bit_at_testbit (payload : bytes) (i : nat) :
  bit_at payload i
  = Z.b2z (Z.testbit (byte_val (payload !!! (i / 8)%nat)) (7 - Z.of_nat (i mod 8))).
Proof.
  unfold bit_at. apply land_shiftr_1.
  pose proof (Nat.mod_upper_bound i 8). lia.
Qed.

Lemma bit_at_1 (payload : bytes) (i : nat) :
  bit_at payload i = 1
  ↔ Z.testbit (byte_val (payload !!! (i / 8)%nat)) (7 - Z.of_nat (i mod 8)) = true.
Proof. rewrite bit_at_testbit. by destruct (Z.testbit _ _). Qed.

Lemma testbit_byte_of_Z (z m : Z) :
  0 ≤ m < 8 → Z.testbit (byte_val (byte_of_Z z)) m = Z.testbit z m.
Proof.
  intros Hm. rewrite byte_val_of_Z. change 256 with (2 ^ 8).
  apply Z.mod_pow2_bits_low; lia.
Qed.

Lemma same_byte_index (i j : nat) :
  (i / 8 = j / 8)%nat → (i mod 8 = j mod 8)%nat → i = j.
Proof.
  intros Hd Hm. rewrite (Nat.div_mod_eq i 8), (Nat.div_mod_eq j 8). lia.
Qed.

Lemma set_bit_spec (bs : bytes) (i : nat) :
  (i / 8 < length bs)%nat →
  ∃ bs', set_bit bs i = Ok bs' ∧ length bs' = length bs
         ∧ ∀ j, bit_at bs' j = 1 ↔ bit_at bs j = 1 ∨ j = i.
Proof.
  intros Hi. unfold set_bit.
  destruct (lookup_lt_is_Some_2 bs (i / 8) Hi) as [b Hb]. rewrite Hb.
  eexists. split; [done|]. split; [by rewrite length_insert|].
  intros j. rewrite !bit_at_1.
  pose proof (Nat.mod_upper_bound i 8 ltac:(lia)).
  pose proof (Nat.mod_upper_bound j 8 ltac:(lia)).
  destruct (decide (j / 8 = i / 8)%nat) as [Heq|Hne].
  - rewrite Heq, list_lookup_total_insert.
    rewrite decide_True by done.
    rewrite (list_lookup_total_correct _ _ _ Hb).
    rewrite testbit_byte_of_Z by lia.
    rewrite Z.lor_spec, Z.shiftl_1_l, Z.pow2_bits_eqb by lia.
    rewrite orb_true_iff, Z.eqb_eq. split.
    + intros [?|Hk]; [by left|]. right. apply same_byte_index; [done|lia].
    + intros [? | ->]; [by left|by right].
  - rewrite list_lookup_total_insert_ne by done. split; [by left|].
    intros [?| ->]; done.
Qed.

Lemma set_bits_spec (bits : list bool) (i : nat) (bs : bytes) :
  (i + length bits ≤ 8 * length bs)%nat →
  ∃ bs', set_bits i bits bs = Ok bs' ∧ length bs' = length bs
         ∧ ∀ j, bit_at bs' j = 1
                ↔ bit_at bs j = 1 ∨ ((i ≤ j)%nat ∧ bits !! (j - i)%nat = Some true).
Proof.
  revert i bs. induction bits as [|bit bits IH]; intros i bs Hlen.
  { exists bs. split; [done|]. split; [done|]. intros j. split; [by left|].
    intros [?|[_ H]]; [done|]. by rewrite lookup_nil in H. }
  cbn [set_bits]. simpl in Hlen.
  assert (∃ bs1, (if bit then set_bit bs i else Ok bs) = Ok bs1
                 ∧ length bs1 = length bs
                 ∧ ∀ j, bit_at bs1 j = 1 ↔ bit_at bs j = 1 ∨ (j = i ∧ bit = true))
    as (bs1 & -> & Hl1 & H1).
  { destruct bit.
    - destruct (set_bit_spec bs i) as (bs1 & ? & ? & H1).
      { apply Nat.Div0.div_lt_upper_bound. lia. }
      exists bs1. split_and!; [done..|]. intros j. rewrite H1. naive_solver.
    - exists bs. split_and!; [done..|]. intros j. naive_solver. }
  cbn [mbind result_bind].
  destruct (IH (S i) bs1) as (bs' & -> & Hl & H); [lia|].
  exists bs'. split_and!; [done|congruence|]. intros j. rewrite H, H1. split.
  - intros [[?|[-> ->]]|[Hj Hb]].
    + by left.
    + right. split; [done|]. by rewrite Nat.sub_diag.
    + right. split; [lia|]. replace (j - i)%nat with (S (j - S i)) by lia. done.
  - intros [?|[Hj Hb]]; [by left; left|].
    destruct (decide (j = i)) as [->|Hne].
    + rewrite Nat.sub_diag in Hb. injection Hb as ->. left. by right.
    + right. split; [lia|].
      replace (j - i)%nat with (S (j - S i)) in Hb by lia. done.
Qed.

Lemma bit_at_zeros (n j : nat) : bit_at (replicate n x00) j ≠ 1.
Proof.
  rewrite bit_at_1, list_lookup_total_alt.
  destruct (replicate n x00 !! (j / 8)%nat) as [b|] eqn:E; simpl.
  - apply lookup_replicate in E as [-> _]. simpl. by rewrite Z.bits_0.
  - change (byte_val inhabitant) with 0. by rewrite Z.bits_0.
Qed.

Lemma build_bitfeild_payload (bitfeild : list bool) (details : Details.TorrentDetails) :
  let n := Details.num_of_pieces details in
  0 ≤ n < 2 ^ 32 →
  len bitfeild ≤ 8 * ((n + 7) `div` 8) →
  ∃ payload,
    build_bitfeild bitfeild details
    = Ok (be_bytes 4 (1 + len payload) ++ [x05] ++ payload)
    ∧ len payload = (n + 7) `div` 8
    ∧ ∀ i, bit_at payload i = 1 ↔ bitfeild !! i = Some true.
Proof.
  cbv zeta. intros Hn Hlen. unfold build_bitfeild.
  pose proof (Z.div_pos (Details.num_of_pieces details + 7) 8).
  rewrite decide_False by lia.
  destruct (set_bits_spec bitfeild 0
              (replicate (Z.to_nat ((Details.num_of_pieces details + 7) `div` 8)) x00))
    as (payload & -> & Hl & Hbits).
  { rewrite length_replicate. unfold len in Hlen. lia. }
  rewrite length_replicate in Hl. cbn [mbind result_bind].
  assert ((Details.num_of_pieces details + 7) `div` 8 < 2 ^ 32 - 1).
  { apply Z.div_lt_upper_bound; [lia|]. change (2 ^ 32) with 4294967296 in *. lia. }
  rewrite decide_True by (unfold len; lia).
  exists payload. split_and!; [done|unfold len; lia|].
  intros i. rewrite Hbits, Nat.sub_0_r. split.
  - intros [Hz|[_ ?]]; [|done]. by apply bit_at_zeros in Hz.
  - intros ?. right. split; [lia|done].
Qed.

(** X18: for a torrent of [n] pieces ([0 <= n < 2^32]) and a list of at
    most [8 * ceil(n / 8)] booleans, [build_bitfeild] returns a message
    with length prefix [1 + ceil(n / 8)], id 5 and a payload of
    [ceil(n / 8)] bytes in which bit [i], most significant bit first, is
    set exactly when entry [i] of the list is [True]; the spare bits are
    zero. *)
Theorem build_bitfeild_bits (bitfeild : list bool) (details : Details.TorrentDetails) :
  let n := Details.num_of_pieces details in
  0 ≤ n < 2 ^ 32 →
  len bitfeild ≤ 8 * ((n + 7) `div` 8) →
  ∃ payload,
    build_bitfeild bitfeild details
    = Ok (be_bytes 4 (1 + len payload) ++ [x05] ++ payload)
    ∧ len payload = (n + 7) `div` 8
    ∧ ∀ i, bit_at payload i = 1 ↔ bitfeild !! i = Some true.
Proof. apply build_bitfeild_payload. Qed.


Lemma build_bitfeild_bits_witness :
  ∃ payload,
    build_bitfeild [true; false; true]
      (Details.mkTorrentDetails 16384 40000 3 [] Samples.sample_info_hash)
    = Ok (be_bytes 4 (1 + len payload) ++ [x05] ++ payload)
    ∧ len payload = (3 + 7) `div` 8
    ∧ ∀ i, bit_at payload i = 1 ↔ [true; false; true] !! i = Some true.
Proof.
  apply (build_bitfeild_bits [true; false; true]
           (Details.mkTorrentDetails 16384 40000 3 [] Samples.sample_info_hash)).
  - simpl. lia.
  - by apply Z.leb_le.
Defined.

Lemma set_bits_out_of_range (bits : list bool) (i : nat) (bs : bytes) (k : nat) :
  bits !! k = Some true → (length bs ≤ (i + k) / 8)%nat →
  set_bits i bits bs = Raise IndexError.
Proof.
  revert i bs k. induction bits as [|bit bits IH]; intros i bs k Hk Hlen.
  { by rewrite lookup_nil in Hk. }
  cbn [set_bits].
  assert (∀ bs1, length bs1 = length bs → (0 < k)%nat →
                 set_bits (S i) bits bs1 = Raise IndexError) as Hrest.
  { intros bs1 Hl Hpos. destruct k as [|k]; [lia|].
    apply (IH (S i) bs1 k); [done|].
    rewrite Hl. by replace (S i + k)%nat with (i + S k)%nat by lia. }
  destruct bit.
  - unfold set_bit. destruct (bs !! (i / 8)%nat) as [b|] eqn:Hb.
    + cbn [mbind result_bind]. apply Hrest; [by rewrite length_insert|].
      destruct k; [|lia]. rewrite Nat.add_0_r in Hlen.
      apply lookup_lt_Some in Hb. lia.
    + done.
  - cbn [mbind result_bind]. apply Hrest; [done|].
    destruct k; [done|lia].
Qed.

(** X19: [build_bitfeild] raises [IndexError] when the list has a [True]
    entry at an index past the last bit of the buffer, that is at
    [8 * ceil(n / 8)] or later for a torrent of [n >= 0] pieces. *)
Theorem build_bitfeild_too_long (bitfeild : list bool)
    (details : Details.TorrentDetails) (i : nat) :
  let n := Details.num_of_pieces details in
  0 ≤ n →
  bitfeild !! i = Some true →
  8 * ((n + 7) `div` 8) ≤ Z.of_nat i →
  build_bitfeild bitfeild details = Raise IndexError.
Proof.
  cbv zeta. intros Hn Hi Hpast. unfold build_bitfeild.
  pose proof (Z.div_pos (Details.num_of_pieces details + 7) 8).
  rewrite decide_False by lia.
  rewrite (set_bits_out_of_range bitfeild 0 _ i); [done|done|].
  rewrite length_replicate. apply Nat.div_le_lower_bound; lia.
Qed.

Lemma build_bitfeild_too_long_witness :
  build_bitfeild (replicate 8 false ++ [true])
    (Details.mkTorrentDetails 16384 40000 3 [] Samples.sample_info_hash)
  = Raise IndexError.
Proof.
  apply (build_bitfeild_too_long _ _ 8).
  - simpl. lia.
  - reflexivity.
  - by apply Z.leb_le.
Defined.

Lemma own_bitfield_handled (ours theirs : list bool)
    (details : Details.TorrentDetails) :
  let n := Details.num_of_pieces details in
  0 < n < 2 ^ 32 →
  len ours = n →
  ∃ msg parsed l,
    build_bitfeild ours details = Ok msg
    ∧ parse_message msg = Ok parsed
    ∧ is_bitfeild parsed = true
    ∧ Details.size parsed = Some (1 + (n + 7) `div` 8)
    ∧ bitfield_handler parsed theirs = Ok l
    ∧ ∀ i, i ∈ l ↔
           (i / 8 * 8 + 7 < length theirs)%nat
           ∧ ours !! i = Some true ∧ theirs !! i = Some false.
Proof.
  cbv zeta. intros Hn Hlen.
  pose proof (Z.div_mod (Details.num_of_pieces details + 7) 8 ltac:(lia)) as Hdm.
  pose proof (Z.mod_pos_bound (Details.num_of_pieces details + 7) 8 ltac:(lia)).
  destruct (build_bitfeild_payload ours details) as (payload & Hb & Hpl & Hbits);
    [lia|lia|].
  assert ((Details.num_of_pieces details + 7) `div` 8 < 2 ^ 32 - 1).
  { apply Z.div_lt_upper_bound; [lia|]. change (2 ^ 32) with 4294967296 in *. lia. }
  destruct payload as [|p0 payload]; [unfold len in Hpl; simpl in Hpl; lia|].
  pose proof (parse_message_frame (be_bytes 4 (1 + len (p0 :: payload))) x05
                (p0 :: payload) (length_be_bytes _ _)) as Hparse.
  rewrite be_uint_be_bytes_4 in Hparse by lia.
  eexists _, _. 
  destruct (bitfield_handler_spec _ (p0 :: payload) theirs
              (f_equal Details.payload eq_refl
                 : Details.payload
                     (Details.mkParsedMessage (Some (1 + len (p0 :: payload)))
                        (Some ((byte_val x05 + 128) mod 256 - 128))
                        (Some (p0 :: payload))) = Some (p0 :: payload)))
    as (l & Hh & Hl).
  exists l. split_and!; [exact Hb|exact Hparse|done|by rewrite Hpl|exact Hh|].
  intros i. rewrite Hl, Hbits. split; [tauto|].
  intros (? & Ho & ?). split_and!; [|done..].
  apply lookup_lt_Some in Ho. apply Nat.Div0.div_lt_upper_bound.
  unfold len in *. lia.
Qed.

(** X20: the bitfield message this client builds from [n] booleans
    ([0 < n < 2^32] pieces) is read by the client's own receiving side as a
    bitfield: [parse_message] accepts it, [is_bitfeild] holds, and
    [bitfield_handler], against a list [theirs] of verified flags, returns
    exactly the indices of whole bytes that the sender has and the receiver
    has not verified. *)
Theorem bitfield_exchange (ours theirs : list bool)
    (details : Details.TorrentDetails) :
  let n := Details.num_of_pieces details in
  0 < n < 2 ^ 32 →
  len ours = n →
  ∃ msg parsed l,
    build_bitfeild ours details = Ok msg
    ∧ parse_message msg = Ok parsed
    ∧ is_bitfeild parsed = true
    ∧ Details.size parsed = Some (1 + (n + 7) `div` 8)
    ∧ bitfield_handler parsed theirs = Ok l
    ∧ ∀ i, i ∈ l ↔
           (i / 8 * 8 + 7 < length theirs)%nat
           ∧ ours !! i = Some true ∧ theirs !! i = Some false.
Proof. apply own_bitfield_handled. Qed.

Lemma bitfield_exchange_witness :
  ∃ msg parsed l,
    build_bitfeild (replicate 8 true)
      (Details.mkTorrentDetails 16384 131072 8 [] Samples.sample_info_hash)
    = Ok msg
    ∧ parse_message msg = Ok parsed
    ∧ is_bitfeild parsed = true
    ∧ Details.size parsed = Some (1 + (8 + 7) `div` 8)
    ∧ bitfield_handler parsed (replicate 8 false) = Ok l
    ∧ ∀ i, i ∈ l ↔
           (i / 8 * 8 + 7 < length (replicate 8 false))%nat
           ∧ replicate 8 true !! i = Some true
           ∧ replicate 8 false !! i = Some false.
Proof.
  apply (bitfield_exchange (replicate 8 true) (replicate 8 false)
           (Details.mkTorrentDetails 16384 131072 8 [] Samples.sample_info_hash)).
  - simpl. lia.
  - reflexivity.
Defined.

End bitfields_more.

(* --------------------------------------------------------------------- *)
(** ** Further properties: the resume bitmap                             *)
(* --------------------------------------------------------------------- *)

Section resume_bits.
Import BuildMessages Handlers JsonData.

Lemma bit_at_index (buf : bytes) (q t : nat) :
  (t < 8)%nat →
  bit_at buf (8 * q + t) = 1
  ↔ Z.testbit (byte_val (buf !!! q)) (7 - Z.of_nat t) = true.
Proof.
  intros Ht. rewrite bit_at_1.
  replace ((8 * q + t) / 8)%nat with q
    by (apply (Nat.div_unique _ 8 q t); lia).
  replace ((8 * q + t) mod 8)%nat with t
    by (apply (Nat.mod_unique _ 8 q t); lia).
  done.
Qed.

Lemma index_split (j : nat) : ∃ q t, j = (8 * q + t)%nat ∧ (t < 8)%nat.
Proof.
  exists (j / 8)%nat, (j mod 8)%nat. split; [apply Nat.div_mod_eq|].
  apply Nat.mod_upper_bound. lia.
Qed.

Lemma bit_at_app_l (buf more : bytes) (j : nat) :
  (j < 8 * length buf)%nat → bit_at (buf ++ more) j = bit_at buf j.
Proof.
  intros Hj. unfold bit_at.
  assert (j / 8 < length buf)%nat by (apply Nat.Div0.div_lt_upper_bound; lia).
  rewrite !list_lookup_total_alt, lookup_app_l by done. done.
Qed.

Lemma bit_at_past (buf : bytes) (j : nat) :
  (8 * length buf ≤ j)%nat → bit_at buf j ≠ 1.
Proof.
  intros Hj. rewrite bit_at_1, list_lookup_total_alt, lookup_ge_None_2.
  - simpl. change (byte_val inhabitant) with 0. by rewrite Z.bits_0.
  - apply Nat.div_le_lower_bound; lia.
Qed.

Lemma testbit_push (byte : Z) (bit : bool) (m : Z) :
  0 ≤ m →
  Z.testbit (Z.lor (Z.shiftl byte 1) (Z.b2z bit)) m
  = if decide (m = 0) then bit else Z.testbit byte (m - 1).
Proof.
  intros Hm. rewrite Z.lor_spec, Z.shiftl_spec by done. case_decide as H0.
  - subst m. rewrite Z.testbit_neg_r by lia. simpl. by destruct bit.
  - replace (Z.testbit (Z.b2z bit) m) with false; [by rewrite orb_false_r|].
    destruct bit; simpl.
    + symmetry. apply Z.bits_above_log2; simpl; lia.
    + by rewrite Z.bits_0.
Qed.

Lemma push_range (byte : Z) (bit : bool) (r : nat) :
  0 ≤ byte < 2 ^ Z.of_nat r →
  0 ≤ Z.lor (Z.shiftl byte 1) (Z.b2z bit) < 2 ^ Z.of_nat (S r).
Proof.
  intros [Hb0 Hb].
  assert (0 ≤ Z.lor (Z.shiftl byte 1) (Z.b2z bit)) as Hnn.
  { apply Z.lor_nonneg. split; [by apply Z.shiftl_nonneg|by destruct bit]. }
  split; [done|].
  apply Z.bounded_iff_bits_nonneg; [lia|done|].
  intros l Hl. rewrite testbit_push by lia. rewrite decide_False by lia.
  apply (Z.bounded_iff_bits_nonneg (Z.of_nat r) byte); [lia|done|done|lia].
Qed.

Lemma packed_step (pre : list bool) (buf : bytes) (byte : Z) (q r : nat)
    (bit : bool) :
  packed pre buf byte q r →
  let byte' := Z.lor (Z.shiftl byte 1) (Z.b2z bit) in
  if decide (r = 7)%nat
  then 0 ≤ byte' < 256
       ∧ packed (pre ++ [bit]) (buf ++ [byte_of_Z byte']) 0 (S q) 0
  else packed (pre ++ [bit]) buf byte' q (S r).
Proof.
  intros (Hlen & Hr & Hbuf & Hbits & Hrange & Hbyte). cbv zeta.
  pose proof (push_range byte bit r Hrange) as Hrange'.
  assert (∀ t, (t ≤ r)%nat →
            Z.testbit (Z.lor (Z.shiftl byte 1) (Z.b2z bit)) (Z.of_nat (r - t)) = true
            ↔ (pre ++ [bit]) !! (8 * q + t)%nat = Some true) as Hbyte'.
  { intros t Ht. rewrite testbit_push by lia. case_decide as H0.
    - assert (t = r) as -> by lia.
      rewrite lookup_app_r by lia.
      replace (8 * q + r - length pre)%nat with 0%nat by lia. simpl.
      split; [by intros ->|by intros [= ->]].
    - rewrite lookup_app_l by lia.
      replace (Z.of_nat (r - t) - 1) with (Z.of_nat (r - 1 - t)) by lia.
      apply Hbyte. lia. }
  case_decide as H7.
  - subst r. split; [done|]. unfold packed. split_and!.
    + rewrite length_app. simpl. lia.
    + lia.
    + rewrite length_app. simpl. lia.
    + intros j Hj. destruct (decide (j < 8 * q)%nat) as [Hlow|Hhigh].
      * rewrite bit_at_app_l by lia. rewrite lookup_app_l by lia. by apply Hbits.
      * destruct (index_split j) as (q' & t & -> & Ht).
        assert (q' = q) as -> by lia.
        rewrite bit_at_index by done.
        rewrite list_lookup_total_alt, lookup_app_r, Hbuf, Nat.sub_diag by lia.
        simpl. rewrite testbit_byte_of_Z by lia.
        replace (7 - Z.of_nat t) with (Z.of_nat (7 - t)) by lia.
        apply Hbyte'. lia.
    + done.
    + done.
    + intros t Ht. lia.
  - unfold packed. split_and!.
    + rewrite length_app. simpl. lia.
    + lia.
    + done.
    + intros j Hj. rewrite lookup_app_l by lia. by apply Hbits.
    + lia.
    + lia.
    + intros t Ht. replace (S r - 1 - t)%nat with (r - t)%nat by lia.
      apply Hbyte'. lia.
Qed.

Lemma pack_bits_spec (bits pre : list bool) (buf : bytes) (byte : Z) (q r : nat) :
  packed pre buf byte q r →
  ∃ buf' byte' q' r',
    pack_bits (length pre) bits buf byte = Ok (buf', byte')
    ∧ packed (pre ++ bits) buf' byte' q' r'.
Proof.
  revert pre buf byte q r.
  induction bits as [|bit bits IH]; intros pre buf byte q r Hp.
  { exists buf, byte, q, r. by rewrite app_nil_r. }
  cbn [pack_bits].
  pose proof (packed_step pre buf byte q r bit Hp) as Hstep. cbv zeta in Hstep.
  destruct Hp as (Hlen & Hr & _).
  assert (length pre mod 8 = r)%nat as Hmod.
  { rewrite Hlen. symmetry. apply (Nat.mod_unique _ 8 q r); lia. }
  rewrite Hmod.
  replace (S (length pre)) with (length (pre ++ [bit]))
    by (rewrite length_app; simpl; lia).
  replace (pre ++ bit :: bits) with ((pre ++ [bit]) ++ bits)
    by (by rewrite <- app_assoc).
  destruct (decide (r = 7)%nat) as [H7|H7].
  - destruct Hstep as [Hrange Hp']. unfold bytearray_append.
    rewrite decide_True by done. cbn [mbind result_bind].
    by apply (IH _ _ _ _ _ Hp').
  - by apply (IH _ _ _ _ _ Hstep).
Qed.

Lemma packed_nil : packed [] [] 0 0 0.
Proof.
  unfold packed. split_and!; try done; try lia; intros; lia.
Qed.

Lemma verified_to_bytes_spec (self : ResumeData) :
  ∃ bs, verified_to_bytes self = Ok bs
        ∧ length bs = ((length (verified_pieces self) + 7) / 8)%nat
        ∧ ∀ i, bit_at bs i = 1 ↔ verified_pieces self !! i = Some true.
Proof.
  unfold verified_to_bytes.
  destruct (pack_bits_spec (verified_pieces self) [] [] 0 0 0 packed_nil)
    as (buf & byte & q & r & Hpack & Hp).
  simpl in Hpack, Hp. rewrite Hpack. cbn [mbind result_bind].
  destruct Hp as (Hlen & Hr & Hbuf & Hbits & Hrange & Hbyte).
  assert (length (verified_pieces self) mod 8 = r)%nat as ->.
  { rewrite Hlen. symmetry. apply (Nat.mod_unique _ 8 q r); lia. }
  case_decide as Hrem.
  - unfold bytearray_append.
    assert (0 ≤ Z.shiftl byte (8 - Z.of_nat r) < 256) as Hsh.
    { rewrite Z.shiftl_mul_pow2 by lia. split; [apply Z.mul_nonneg_nonneg; lia|].
      change 256 with (2 ^ 8).
      replace 8 with (Z.of_nat r + (8 - Z.of_nat r)) at 2 by lia.
      rewrite Z.pow_add_r by lia.
      apply Z.mul_lt_mono_pos_r; [apply Z.pow_pos_nonneg; lia|lia]. }
    rewrite decide_True by done. eexists. split; [done|]. split.
    + rewrite length_app, Hbuf, Hlen. cbn [length].
      apply (Nat.div_unique _ 8 (q + 1) (r - 1)); lia.
    + intros i. destruct (decide (i < 8 * q)%nat) as [Hlow|Hhigh].
      { rewrite bit_at_app_l by lia. by apply Hbits. }
      destruct (index_split i) as (q' & t & -> & Ht).
      destruct (decide (q' = q)) as [->|Hq].
      * rewrite bit_at_index by done.
        rewrite list_lookup_total_alt, lookup_app_r, Hbuf, Nat.sub_diag by lia.
        simpl. rewrite testbit_byte_of_Z, Z.shiftl_spec by lia.
        destruct (decide (t < r)%nat) as [Hin|Hout].
        -- replace (7 - Z.of_nat t - (8 - Z.of_nat r)) with (Z.of_nat (r - 1 - t))
             by lia.
           by apply Hbyte.
        -- rewrite Z.testbit_neg_r by lia.
           rewrite lookup_ge_None_2 by lia. done.
      * split.
        -- intros H1. apply bit_at_past in H1; [done|].
           rewrite length_app, Hbuf. simpl. lia.
        -- intros H1%lookup_lt_Some. lia.
  - assert (r = 0)%nat as -> by lia. exists buf. split; [done|]. split.
    + rewrite Hbuf, Hlen. apply (Nat.div_unique _ 8 q 7); lia.
    + intros i. destruct (decide (i < 8 * q)%nat) as [Hlow|Hhigh].
      * by apply Hbits.
      * split.
        -- intros H1. apply bit_at_past in H1; [done|]. lia.
        -- intros H1%lookup_lt_Some. lia.
Qed.

(** X21: [verified_to_bytes] never raises; it returns
    [ceil(len(verified_pieces) / 8)] bytes in which bit [i], most
    significant bit first, is set exactly when piece [i] is verified, the
    spare bits of the last byte being zero. *)
Theorem verified_to_bytes_bits (self : ResumeData) :
  ∃ bs, verified_to_bytes self = Ok bs
        ∧ length bs = ((length (verified_pieces self) + 7) / 8)%nat
        ∧ ∀ i, bit_at bs i = 1 ↔ verified_pieces self !! i = Some true.
Proof. apply verified_to_bytes_spec. Qed.

Lemma testbit_byte_high (b : byte) (m : Z) :
  8 ≤ m → Z.testbit (byte_val b) m = false.
Proof.
  intros Hm. pose proof (byte_val_range b).
  rewrite <- (Z.mod_small (byte_val b) (2 ^ 8)) by (change (2 ^ 8) with 256; lia).
  apply Z.mod_pow2_bits_high. lia.
Qed.

Lemma bit_at_ext (a b : bytes) :
  length a = length b →
  (∀ i, bit_at a i = 1 ↔ bit_at b i = 1) →
  a = b.
Proof.
  intros Hlen Hbits. apply list_eq_same_length with (length a); [done..|].
  intros k x y Hk Hx Hy. apply byte_val_inj, Z.bits_inj'. intros m Hm.
  destruct (decide (m < 8)) as [Hlow|Hhigh].
  - specialize (Hbits (8 * k + Z.to_nat (7 - m))%nat).
    rewrite !bit_at_index in Hbits by lia.
    rewrite (list_lookup_total_correct _ _ _ Hx) in Hbits.
    rewrite (list_lookup_total_correct _ _ _ Hy) in Hbits.
    replace (7 - Z.of_nat (Z.to_nat (7 - m))) with m in Hbits by lia.
    destruct (Z.testbit (byte_val x) m), (Z.testbit (byte_val y) m);
      try done; naive_solver.
  - by rewrite !testbit_byte_high by lia.
Qed.

(** X22: the two bit packers of the client agree: for a resume record with
    fewer than [2^32] pieces, the payload of the bitfield message that
    [build_bitfeild] makes of [verified_pieces] is the byte string that
    [verified_to_bytes] returns. *)
Theorem bitfield_of_resume_data (self : ResumeData)
    (details : Details.TorrentDetails) :
  Details.num_of_pieces details = len (verified_pieces self) →
  len (verified_pieces self) < 2 ^ 32 →
  ∃ bs, verified_to_bytes self = Ok bs
        ∧ build_bitfeild (verified_pieces self) details
          = Ok (be_bytes 4 (1 + len bs) ++ [x05] ++ bs).
Proof.
  intros Hn Hsmall.
  destruct (verified_to_bytes_spec self) as (bs & Hv & Hl & Hbits).
  destruct (build_bitfeild_payload (verified_pieces self) details)
    as (payload & Hb & Hpl & Hpbits).
  { rewrite Hn. unfold len in *. lia. }
  { rewrite Hn.
    pose proof (Z.div_mod (len (verified_pieces self) + 7) 8 ltac:(lia)).
    pose proof (Z.mod_pos_bound (len (verified_pieces self) + 7) 8 ltac:(lia)).
    lia. }
  exists bs. split; [done|].
  assert (payload = bs) as <-; [|done].
  apply bit_at_ext.
  - rewrite Hl. unfold len in Hpl. rewrite Hn in Hpl. unfold len in Hpl.
    apply Nat2Z.inj. rewrite Hpl, Nat2Z.inj_div. f_equal. lia.
  - intros i. by rewrite Hbits, Hpbits.
Qed.

Lemma bitfield_of_resume_data_witness :
  ∃ bs, verified_to_bytes (fresh "2a" 16384 3 [40000] 0 "1970-01-01T00:00:00Z")
        = Ok bs
        ∧ build_bitfeild
            (verified_pieces (fresh "2a" 16384 3 [40000] 0 "1970-01-01T00:00:00Z"))
            (Details.mkTorrentDetails 16384 40000 3 [] Samples.sample_info_hash)
          = Ok (be_bytes 4 (1 + len bs) ++ [x05] ++ bs).
Proof.
  apply (bitfield_of_resume_data
           (fresh "2a" 16384 3 [40000] 0 "1970-01-01T00:00:00Z")
           (Details.mkTorrentDetails 16384 40000 3 [] Samples.sample_info_hash)).
  - reflexivity.
  - reflexivity.
Defined.

End resume_bits.

(* --------------------------------------------------------------------- *)
(** ** Further properties: have messages                                 *)
(* --------------------------------------------------------------------- *)

Section have_more.
Import BuildMessages VerifyMessages Handlers.

Lemma have_read_back (piece_index : Z) (verified_pieces : list bool) :
  0 ≤ piece_index < 2 ^ 32 →
  ∃ parsed,
    parse_message (have_message piece_index) = Ok parsed
    ∧ is_have parsed = true
    ∧ Details.size parsed = Some 5
    ∧ have_handler parsed verified_pieces
      = match verified_pieces !! Z.to_nat piece_index with
        | None => Raise IndexError
        | Some true => Ok []
        | Some false => Ok [Z.to_nat piece_index]
        end.
Proof.
  intros Hi. unfold have_message.
  pose proof (parse_message_frame (be_bytes 4 5) x04 (be_bytes 4 piece_index)
                (length_be_bytes _ _)) as Hparse.
  eexists. split; [exact Hparse|]. split; [done|]. split; [done|].
  unfold have_handler. cbn [Details.payload be_bytes].
  unfold unpack_I. rewrite decide_True by done. cbn [mbind result_bind].
  change (be_uint _) with (be_uint (be_bytes 4 piece_index)).
  rewrite be_uint_be_bytes_4 by done.
  by destruct (verified_pieces !! Z.to_nat piece_index) as [[]|].
Qed.

(** X23: for an index below [2^32], [build_have] packs without
    [struct.error] and the message is read back by the receiving side:
    [parse_message] accepts it, [is_have] holds, and [have_handler] returns
    the index when the piece is not verified, no index when it is, and
    raises [IndexError] when the index is past the piece list. *)
Theorem have_round_trip (piece_index : Z) (verified_pieces : list bool) :
  0 ≤ piece_index < 2 ^ 32 →
  ∃ msg parsed,
    build_have piece_index = Ok msg
    ∧ parse_message msg = Ok parsed
    ∧ is_have parsed = true
    ∧ Details.size parsed = Some 5
    ∧ have_handler parsed verified_pieces
      = match verified_pieces !! Z.to_nat piece_index with
        | None => Raise IndexError
        | Some true => Ok []
        | Some false => Ok [Z.to_nat piece_index]
        end.
Proof.
  intros Hi.
  destruct (have_read_back piece_index verified_pieces Hi)
    as (parsed & Hparse & Hhave & Hsize & Hhandler).
  exists (have_message piece_index), parsed. split_and!; try done.
  unfold build_have. by rewrite decide_True.
Qed.

Lemma have_round_trip_witness :
  ∃ msg parsed,
    build_have 1 = Ok msg
    ∧ parse_message msg = Ok parsed
    ∧ is_have parsed = true
    ∧ Details.size parsed = Some 5
    ∧ have_handler parsed [true; false]
      = match [true; false] !! Z.to_nat 1 with
        | None => Raise IndexError
        | Some true => Ok []
        | Some false => Ok [Z.to_nat 1]
        end.
Proof. apply (have_round_trip 1 [true; false]). lia. Defined.

End have_more.

(* --------------------------------------------------------------------- *)
(** ** Further properties: the torrent metadata                          *)
(* --------------------------------------------------------------------- *)

Section metadata.
Import GetDetails.

Lemma or_exit_cases {A} (m : outcome A) :
  (∃ a, m = Done a ∧ or_exit m = Done a)
  ∨ ((∃ e, m = Fail e) ∧ or_exit m = Fail SystemExit).
Proof. destruct m as [a|e]; [left; by exists a|right; split; [by exists e|done]]. Qed.

(** What the two length loops and the layout loop make of the same list of
    file dictionaries. *)
Lemma file_entries_layout (files : list bvalue) (root : string) (offset0 acc : Z)
    (entries : list FileEntry) :
  file_entries files root offset0 = Done entries →
  ∃ lengths,
    sum_lengths files acc = Done (acc + total lengths)
    ∧ collect (fun file => subscript file b_length) files = Done (BInt <$> lengths)
    ∧ length <$> entries = BInt <$> lengths
    ∧ ∀ k e, entries !! k = Some e → offset e = offset0 + total (take k lengths).
Proof.
  revert offset0 acc entries.
  induction files as [|file files IH]; intros offset0 acc entries Hfe.
  { injection Hfe as <-. exists [].
    split_and!; [simpl; f_equal; unfold total; simpl; lia|done|done|].
    intros k e Hk. by rewrite lookup_nil in Hk. }
  cbn [file_entries] in Hfe.
  destruct (subscript file b_path) as [p|]; [|done]. cbn [mbind outcome_bind] in Hfe.
  destruct (iterate p) as [items|]; [|done]. cbn [mbind outcome_bind] in Hfe.
  destruct (collect decode items) as [strs|]; [|done].
  cbn [mbind outcome_bind] in Hfe.
  destruct (subscript file b_length) as [fl|] eqn:Hfl; [|done].
  cbn [mbind outcome_bind] in Hfe.
  destruct fl as [z| | |]; try done. cbn [add_int mbind outcome_bind] in Hfe.
  destruct (file_entries files root (offset0 + z)) as [rest|] eqn:Hrest; [|done].
  cbn [mbind outcome_bind] in Hfe. injection Hfe as <-.
  destruct (IH (offset0 + z) (acc + z) rest Hrest) as (ls & Hsum & Hcol & Hlen & Hoff).
  exists (z :: ls). split_and!.
  - cbn [sum_lengths]. rewrite Hfl. cbn [mbind outcome_bind add_int].
    rewrite Hsum. f_equal. unfold total. simpl. lia.
  - cbn [collect]. rewrite Hfl. cbn [mbind outcome_bind]. by rewrite Hcol.
  - cbn [fmap list_fmap length]. f_equal. exact Hlen.
  - intros [|k] e Hk.
    + injection Hk as <-. simpl. unfold total. simpl. lia.
    + simpl in Hk. rewrite (Hoff k e Hk). unfold total. simpl. lia.
Qed.

(** X24: whenever [get_file_details] returns a layout for a multi-file
    torrent, the files lie end to end from offset 0 in the order of the
    list, every length is an integer, [get_file_sizes] returns these
    lengths and [get_total_length] their sum. *)
Theorem multi_file_layout (info_dict : list (bytes * bvalue)) (root : string)
    (files : bvalue) (entries : list FileEntry) :
  dict_get info_dict b_files = Some files →
  get_file_details info_dict root = Done entries →
  ∃ lengths,
    length <$> entries = BInt <$> lengths
    ∧ (∀ k e, entries !! k = Some e → offset e = total (take k lengths))
    ∧ get_file_sizes info_dict = Done (BInt <$> lengths)
    ∧ get_total_length info_dict = Done (total lengths).
Proof.
  intros Hfiles Hfd. unfold get_file_details, get_file_sizes, get_total_length in *.
  rewrite Hfiles in *. destruct (iterate files) as [fs|]; [|done].
  cbn [mbind outcome_bind] in *.
  destruct (file_entries_layout fs root 0 0 entries Hfd)
    as (lengths & Hsum & Hcol & Hlen & Hoff).
  exists lengths. split_and!; [done| |by rewrite Hcol|by rewrite Hsum].
  intros k e Hk. by rewrite (Hoff k e Hk).
Qed.


Lemma multi_file_layout_witness :
  ∃ lengths,
    length <$> [mkFileEntry "dl/a/b.txt" (BInt 5) 0; mkFileEntry "dl/c.bin" (BInt 7) 5]
    = BInt <$> lengths
    ∧ (∀ k e,
         [mkFileEntry "dl/a/b.txt" (BInt 5) 0; mkFileEntry "dl/c.bin" (BInt 7) 5] !! k
         = Some e →
         offset e = total (take k lengths))
    ∧ get_file_sizes Samples.two_files = Done (BInt <$> lengths)
    ∧ get_total_length Samples.two_files = Done (total lengths).
Proof.
  apply (multi_file_layout Samples.two_files "dl/"
           (BList [BDict [(b_length, BInt 5);
                          (b_path, BList [BBytes (list_byte_of_string "a");
                                          BBytes (list_byte_of_string "b.txt")])];
                   BDict [(b_length, BInt 7);
                          (b_path, BList [BBytes (list_byte_of_string "c.bin")])]])).
  - reflexivity.
  - reflexivity.
Defined.

Lemma collect_slices (pieces : bytes) (n first : nat) :
  collect (fun i => slice_value (BBytes pieces) (20 * i) (20 * (i + 1))) (seq first n)
  = Done ((fun i => BBytes (slice (20 * i) (20 * (i + 1)) pieces)) <$> seq first n).
Proof.
  revert first. induction n as [|n IH]; intros first; [done|].
  cbn [seq collect slice_value mbind outcome_bind]. by rewrite IH.
Qed.

Lemma concat_slices (pieces : bytes) (n first : nat) :
  concat ((fun i => slice (20 * i) (20 * (i + 1)) pieces) <$> seq first n)
  = take (20 * n) (drop (20 * first) pieces).
Proof.
  revert first. induction n as [|n IH]; intros first.
  { by rewrite Nat.mul_0_r. }
  cbn [seq fmap list_fmap concat].
  change (list_fmap _ _ ?f ?l) with (f <$> l). rewrite IH. unfold slice.
  replace (20 * (first + 1) - 20 * first)%nat with 20%nat by lia.
  replace (20 * S n)%nat with (20 + 20 * n)%nat by lia.
  rewrite <- take_take_drop, drop_drop. do 3 f_equal. lia.
Qed.

(** X25: when [pieces] is a byte string, [get_hash_list] returns
    [num_of_pieces] entries, entry [i] being bytes [20 i] to [20 i + 19] of
    [pieces]; their concatenation is the first [20 * num_of_pieces] bytes of
    [pieces].  Nothing checks the length of [pieces]: entries past its end
    are shorter than 20 bytes, or empty. *)
Theorem get_hash_list_chunks (info_dict : list (bytes * bvalue))
    (num_of_pieces : Z) (pieces : bytes) :
  dict_get info_dict b_pieces = Some (BBytes pieces) →
  ∃ hashes,
    get_hash_list info_dict num_of_pieces = Done (BBytes <$> hashes)
    ∧ List.length hashes = Z.to_nat num_of_pieces
    ∧ (∀ i h, hashes !! i = Some h → h = slice (20 * i) (20 * (i + 1)) pieces)
    ∧ concat hashes = take (20 * Z.to_nat num_of_pieces) pieces.
Proof.
  intros Hp. unfold get_hash_list, getitem. rewrite Hp. cbn [mbind outcome_bind].
  exists ((fun i => slice (20 * i) (20 * (i + 1)) pieces)
            <$> seq 0 (Z.to_nat num_of_pieces)).
  split_and!.
  - rewrite collect_slices. f_equal. by rewrite <- list_fmap_compose.
  - by rewrite length_fmap, length_seq.
  - intros i h Hi. apply list_lookup_fmap_Some in Hi as (j & -> & Hj).
    by apply lookup_seq in Hj as [-> _].
  - by rewrite concat_slices.
Qed.

Lemma get_hash_list_chunks_witness :
  ∃ hashes,
    get_hash_list Samples.two_files 2 = Done (BBytes <$> hashes)
    ∧ List.length hashes = Z.to_nat 2
    ∧ (∀ i h, hashes !! i = Some h
              → h = slice (20 * i) (20 * (i + 1)) (replicate 30 x41))
    ∧ concat hashes = take (20 * Z.to_nat 2) (replicate 30 x41).
Proof. apply (get_hash_list_chunks Samples.two_files 2). reflexivity. Defined.

End metadata.

(* --------------------------------------------------------------------- *)
(** ** Further properties: writing pieces to disk                        *)
(* --------------------------------------------------------------------- *)

Section disk.
Import GetDetails Storage.











End disk.
